(** * tensorpipe: channel protocol core, callback wrappers, CMA worker,
      SHM event loop and libuv loop

    A shallow embedding of
      - [tensorpipe/common/callback.h]       (modules [Callback],
        [RearmableCallback] and [Closing]),
      - [tensorpipe/channel/basic/channel.cc] (modules [DeferredLoop],
        [BasicChannel] and [ChannelHistory]),
      - [tensorpipe/channel/cma/context.cc]  (modules [Cma], [CmaHistory]
        and [CmaDomain]),
      - [tensorpipe/transport/shm/loop.cc]   (module [ShmLoop]),
      - [tensorpipe/transport/uv/loop.cc]    (module [UvLoop]),
    with the properties the design document states about them and further
    properties of the code. *)

From stdpp Require Import base option list strings numbers functions gmap sorting pretty.
From Stdlib Require Import ZArith Lia Ascii.

Local Open Scope Z_scope.

(** ** Errors and exceptions *)

(** Modelled from the spec: [tensorpipe::Error] and its classes
    (common/error.h and channel/error.h are not among the sources).  A
    tagged value of which [kSuccess] is the zero value; the kinds are those
    the sources construct ([ChannelClosedError], [SystemError],
    [ShortReadError], [UVError]) and the transport-side kinds the design
    document names. *)
Inductive Error : Type :=
| kSuccess
| ChannelClosedError
| ConnectionClosedError
| EOFError
| ShortReadError (expected actual : Z)
| ShortWriteError (expected actual : Z)
| SystemError (subsystem : string) (errno : Z)
| UVError (error : Z).

#[global] Instance Error_eq_dec : EqDecision Error.
Proof. solve_decision. Defined.

(** [Error::operator bool]: true when the value carries an error. *)
Definition is_error (e : Error) : bool :=
  match e with
  | kSuccess => false
  | _ => true
  end.

(** What a [TP_THROW_ASSERT], a [TP_THROW_SYSTEM] or an out-of-range vector
    access ends a call with. *)
Inductive Exception : Type :=
| AssertionFailed (msg : string)
| SystemException (errno : Z)
| OutOfRange.

#[global] Instance Exception_eq_dec : EqDecision Exception.
Proof. solve_decision. Defined.

(** A call either returns or throws. *)
Inductive Result (A : Type) : Type :=
| Ok (a : A)
| Throw (e : Exception).
Arguments Ok {A} a.
Arguments Throw {A} e.

#[global] Instance Result_ret : MRet Result := fun _ a => Ok a.
#[global] Instance Result_bind : MBind Result := fun _ _ f m =>
  match m with
  | Ok a => f a
  | Throw e => Throw e
  end.

Definition returns {A} (r : Result A) : bool :=
  match r with
  | Ok _ => true
  | Throw _ => false
  end.

(** Unsigned 64-bit arithmetic ([uint64_t], [size_t]). *)
Definition two64 : Z := 2 ^ 64.
Definition to_uint64 (z : Z) : Z := z mod two64.

(** ** callback.h: lazy and eager callback wrappers *)

Module Callback.

(** What the wrappers need of their [TSubject]: the sticky [error_] member
    and the [handleError_] method (both reached through [friend]). *)
Class Subject (S : Type) : Type := {
  subject_error : S → Error;
  subject_set_error : Error → S → S;
  subject_handleError : S → S;
}.

Module LazyCallbackWrapper.
Section Lazy.
Context {S : Type} `{!Subject S}.

(** [processError_]: true when the callback must not run. *)
Definition processError_ (subject : S) (error : Error) : bool * S :=
  if is_error (subject_error subject) then (true, subject)
  else if negb (is_error error) then (false, subject)
  else (true, subject_handleError (subject_set_error error subject)).

Definition entryPointFromLoop_
    (fn : S → Result S) (error : Error) (subject : S) : Result S :=
  let '(stop, subject') := processError_ subject error in
  if stop then Ok subject' else fn subject'.
End Lazy.
End LazyCallbackWrapper.

Module EagerCallbackWrapper.
Section Eager.
Context {S : Type} `{!Subject S}.

Definition processError_ (subject : S) (error : Error) : S :=
  if is_error (subject_error subject) || negb (is_error error)
  then subject
  else subject_handleError (subject_set_error error subject).

(** Proceeds regardless of any error. *)
Definition entryPointFromLoop_
    (fn : S → Result S) (error : Error) (subject : S) : Result S :=
  fn (processError_ subject error).
End Eager.
End EagerCallbackWrapper.

End Callback.

(** ** channel.cc: the deferred loop of a channel

    [Channel::Impl] owns a mutex, the queue [pendingTasks_] and the thread
    identifier [currentLoop_].  Several threads call [deferToLoop_]; each
    critical section (the code between taking and releasing [mutex_]) is one
    atomic step of the calling thread, and so is each action of the running
    callable.  A schedule is the order in which threads take their steps. *)

Module DeferredLoop.
Section Loop.

(** The callables ([std::function<void()>]) handed to the loop. *)
Context {Task : Type}.

(** The calls of [deferToLoop_] a callable makes on its own loop while it
    runs, in program order. *)
Variable submits : Task → list Task.

(** Whether the callable, after these calls, ends by throwing instead of
    returning.  [task()] is called outside any [try]: the exception leaves
    [deferToLoop_] and every frame of the thread below it. *)
Variable throws : Task → bool.

(** [std::thread::id] of a running thread. *)
Definition ThreadId : Type := nat.
#[global] Instance ThreadId_eq_dec : EqDecision ThreadId := Nat.eq_dec.

(** The members the loop is made of.  [currentLoop_ = None] is the
    default-constructed [std::thread::id()], which denotes no thread. *)
Record Loop : Type := {
  currentLoop_ : option ThreadId;
  pendingTasks_ : list Task;
}.

(** Where a thread stands inside one activation of [deferToLoop_]. *)
Inductive Frame : Type :=
| AtLoopHead
| InTask (task : Task) (todo : list Task).

(** What happened, oldest first: a callable was pushed on the queue, a
    callable was started by the draining thread, a callable returned, a
    callable threw. *)
Inductive LogEntry : Type :=
| Submitted (tid : ThreadId) (fn : Task)
| Began (tid : ThreadId) (task : Task)
| Ended (tid : ThreadId) (task : Task)
| Threw (tid : ThreadId) (task : Task).

Record World : Type := {
  loop : Loop;
  stacks : ThreadId → list Frame;
  log : list LogEntry;
}.

Definition initial : World :=
  {| loop := {| currentLoop_ := None; pendingTasks_ := [] |};
     stacks := fun _ => [];
     log := [] |}.

Definition set_stack (tid : ThreadId) (stack : list Frame) (w : World) : World :=
  {| loop := loop w; stacks := <[tid := stack]> (stacks w); log := log w |}.

(** [inLoop_], called by thread [tid]. *)
Definition inLoop_ (tid : ThreadId) (w : World) : bool :=
  bool_decide (currentLoop_ (loop w) = Some tid).

(** [deferToLoop_], first block: push the callable; return when some thread
    is draining, otherwise claim the loop and enter [while (true)]. *)
Definition deferToLoop_ (tid : ThreadId) (fn : Task) (w : World) : World :=
  let pending := pendingTasks_ (loop w) ++ [fn] in
  match currentLoop_ (loop w) with
  | Some owner =>
      {| loop := {| currentLoop_ := Some owner; pendingTasks_ := pending |};
         stacks := stacks w;
         log := log w ++ [Submitted tid fn] |}
  | None =>
      {| loop := {| currentLoop_ := Some tid; pendingTasks_ := pending |};
         stacks := <[tid := AtLoopHead :: stacks w tid]> (stacks w);
         log := log w ++ [Submitted tid fn] |}
  end.

(** [deferToLoop_], the critical section of the [while (true)] body, run by a
    thread whose stack is [AtLoopHead :: below]. *)
Definition loopIteration (tid : ThreadId) (below : list Frame) (w : World) : World :=
  match pendingTasks_ (loop w) with
  | [] =>
      {| loop := {| currentLoop_ := None; pendingTasks_ := [] |};
         stacks := <[tid := below]> (stacks w);
         log := log w |}
  | task :: rest =>
      {| loop := {| currentLoop_ := currentLoop_ (loop w); pendingTasks_ := rest |};
         stacks := <[tid := InTask task (submits task) :: below]> (stacks w);
         log := log w ++ [Began tid task] |}
  end.

(** One step of thread [tid] inside [deferToLoop_]: the critical section at
    the head of [while (true)]; a call of [deferToLoop_] made by the running
    callable; the end of [task()], which either returns to the head of the
    loop or throws, and then the thread is out of [deferToLoop_] with
    [currentLoop_] and [pendingTasks_] as they are. *)
Definition advance (tid : ThreadId) (w : World) : World :=
  match stacks w tid with
  | [] => w
  | AtLoopHead :: below => loopIteration tid below w
  | InTask task (fn :: todo) :: below =>
      deferToLoop_ tid fn (set_stack tid (InTask task todo :: below) w)
  | InTask task [] :: below =>
      if throws task then
        {| loop := loop w;
           stacks := <[tid := []]> (stacks w);
           log := log w ++ [Threw tid task] |}
      else
        {| loop := loop w;
           stacks := <[tid := AtLoopHead :: below]> (stacks w);
           log := log w ++ [Ended tid task] |}
  end.

(** What a scheduler may pick: a thread that is outside [deferToLoop_] calls
    it, or a thread inside it takes its next step. *)
Inductive Action : Type :=
| Call (tid : ThreadId) (fn : Task)
| Advance (tid : ThreadId).

Definition step (w : World) (a : Action) : World :=
  match a with
  | Call tid fn =>
      match stacks w tid with
      | [] => deferToLoop_ tid fn w
      | _ :: _ => w
      end
  | Advance tid => advance tid w
  end.

Definition run (w : World) (schedule : list Action) : World :=
  fold_left step schedule w.

(** The callable the draining thread is inside of, if any. *)
Definition running (w : World) : option Task :=
  match currentLoop_ (loop w) with
  | Some tid =>
      match stacks w tid with
      | InTask task _ :: _ => Some task
      | _ => None
      end
  | None => None
  end.

(** Readings of the log. *)
Definition submitted (l : list LogEntry) : list Task :=
  omap (fun e => match e with Submitted _ fn => Some fn | _ => None end) l.
Definition began (l : list LogEntry) : list Task :=
  omap (fun e => match e with Began _ task => Some task | _ => None end) l.
Definition ended (l : list LogEntry) : list Task :=
  omap (fun e => match e with Ended _ task => Some task | _ => None end) l.
Definition threw (l : list LogEntry) : list Task :=
  omap (fun e => match e with Threw _ task => Some task | _ => None end) l.

(** The callables that are over, by a return or by an exception. *)
Definition finished (l : list LogEntry) : list Task :=
  omap (fun e => match e with
                 | Ended _ task | Threw _ task => Some task
                 | _ => None
                 end) l.

End Loop.

(** The design document's serial executor, as a checker of logs: callables
    wait in one queue in the order they were submitted, at most one runs at a
    time, and the one that starts is the oldest one waiting.  [replay] gives
    the waiting callables and the running one, or [None] for a log that is
    not serial or not in submission order. *)
Section Serial.
Context {Task : Type} `{!EqDecision Task}.

Definition replay_entry (st : list Task * option Task) (e : @LogEntry Task)
    : option (list Task * option Task) :=
  match e, st with
  | Submitted _ fn, (waiting, current) => Some (waiting ++ [fn], current)
  | Began _ task, (first :: waiting, None) =>
      if decide (task = first) then Some (waiting, Some task) else None
  | Ended _ task, (waiting, Some current) =>
      if decide (task = current) then Some (waiting, None) else None
  | Threw _ task, (waiting, Some current) =>
      if decide (task = current) then Some (waiting, None) else None
  | _, _ => None
  end.

Fixpoint replay_from (st : list Task * option Task) (l : list (@LogEntry Task))
    : option (list Task * option Task) :=
  match l with
  | [] => Some st
  | e :: l' =>
      match replay_entry st e with
      | Some st' => replay_from st' l'
      | None => None
      end
  end.

Definition replay (l : list (@LogEntry Task)) : option (list Task * option Task) :=
  replay_from ([], None) l.

(** What holds of every world a schedule can reach: a thread inside
    [deferToLoop_] owns the loop; the owner is inside once, unless a callable
    has thrown, and then the loop stays owned with no thread inside. *)
Record LoopInv (w : @World Task) : Prop := {
  inv_owner : ∀ tid, stacks w tid ≠ [] → currentLoop_ (loop w) = Some tid;
  inv_depth : ∀ tid, currentLoop_ (loop w) = Some tid →
              threw (log w) = [] → ∃ f, stacks w tid = [f];
  inv_thrown : threw (log w) ≠ [] →
               is_Some (currentLoop_ (loop w)) ∧ ∀ tid, stacks w tid = [];
  inv_replay : replay (log w) = Some (pendingTasks_ (loop w), running w);
}.

(** The life of a callable [fn] that the running callable [task] of thread
    [tid] has just submitted: [task] is still running; [task] has returned
    and [fn] waits; [fn] is running; [fn] has returned; or a callable has
    thrown.  [log1] is the log right after the submission. *)
Inductive Phase (tid : ThreadId) (task fn : Task) (log1 : list (@LogEntry Task))
    (w : @World Task) : Prop :=
| PhaseSubmitting todo l :
    stacks w tid = [InTask task todo] →
    fn ∈ pendingTasks_ (loop w) →
    log w = log1 ++ l →
    Phase tid task fn log1 w
| PhaseWaiting f l1 l2 :
    stacks w tid = [f] →
    fn ∈ pendingTasks_ (loop w) →
    log w = log1 ++ l1 ++ Ended tid task :: l2 →
    Phase tid task fn log1 w
| PhaseRunning todo l1 l2 l3 :
    stacks w tid = [InTask fn todo] →
    log w = log1 ++ l1 ++ Ended tid task :: l2 ++ Began tid fn :: l3 →
    Phase tid task fn log1 w
| PhaseDone l1 l2 l3 l4 :
    log w = log1 ++ l1 ++ Ended tid task :: l2 ++ Began tid fn :: l3
                 ++ Ended tid fn :: l4 →
    Phase tid task fn log1 w
| PhaseThrown :
    threw (log w) ≠ [] →
    Phase tid task fn log1 w.

End Serial.
End DeferredLoop.

(** ** channel.cc: the basic channel

    Every entry point of [Channel::Impl] hands its body to [deferToLoop_]
    ([send] runs [sendFromLoop_], a wrapped transport callback runs
    [entryPointFromLoop_], ...).  The loop runs these callables one at a
    time, in the order of their submission, so a channel's history is the
    list of its callables in that order; none of them submits to its own
    loop.  User callbacks are known by their identity and the calls made to
    them are recorded. *)

Module BasicChannel.

(** A user-supplied [std::function], by identity. *)
Definition UserCallback : Type := nat.

(** [proto::Descriptor]: one unsigned 64-bit field. *)
Record Descriptor : Type := { operation_id : Z }.

(** Modelled from the spec: [saveDescriptor] and [loadDescriptor] of
    channel/helpers.h, which is not among the sources.  A [TDescriptor] is
    the serialised message holding the single field [operation_id]; it is
    opaque to everyone but the channel, which loads back what was saved. *)
Inductive TDescriptor : Type :=
| Serialized (pb : Descriptor).

Definition saveDescriptor (pb : Descriptor) : TDescriptor := Serialized pb.

Definition loadDescriptor (descriptor : TDescriptor) : Descriptor :=
  match descriptor with
  | Serialized pb => pb
  end.

(** [proto::Packet]: a request, a reply, or neither set. *)
Inductive Packet : Type :=
| Request (operation_id : Z)
| Reply (operation_id : Z)
| NotSet.

(** The lambdas the channel wraps and hands to the transport. *)
Inductive Lambda : Type :=
| LambdaNop                        (* [packet](Impl&) {} *)
| LambdaOnPacket                   (* impl.onPacket_( *packet ) *)
| LambdaSendCompleted (id : Z)     (* impl.sendCompleted(id) *)
| LambdaRecvCompleted (id : Z).    (* impl.recvCompleted(id) *)

(** A wrapped callback: [lazyCallbackWrapper_(fn)] holds a [weak_ptr] to the
    channel, [eagerCallbackWrapper_(fn)] a [shared_ptr]. *)
Inductive Wrapped : Type :=
| Lazy (fn : Lambda)
| Eager (fn : Lambda).

(** Modelled from the spec: the transport connection
    ([transport::Connection], not among the sources), by its contract: reads
    and writes of a packet or of [length] bytes are taken with their
    callback and stay in flight until the transport calls it back; [close()]
    aborts what is in flight, which the transport reports through the same
    callbacks. *)
Inductive Operation : Type :=
| ReadPacket (cb : Wrapped)
| ReadBytes (ptr length : Z) (cb : Wrapped)
| WritePacket (packet : Packet) (cb : Wrapped)
| WriteBytes (ptr length : Z) (cb : Wrapped).

Definition op_callback (op : Operation) : Wrapped :=
  match op with
  | ReadPacket cb | ReadBytes _ _ cb | WritePacket _ cb | WriteBytes _ _ cb => cb
  end.

Record Connection : Type := {
  inflight : list Operation;
  closed : bool;
}.

Definition submit (op : Operation) (c : Connection) : Connection :=
  {| inflight := inflight c ++ [op]; closed := closed c |}.

Definition close (c : Connection) : Connection :=
  {| inflight := inflight c; closed := true |}.

Definition called_back (k : nat) (c : Connection) : Connection :=
  {| inflight := delete k (inflight c); closed := closed c |}.

Module SendOperation.
Record t : Type := mk {
  id : Z;
  ptr : Z;
  length : Z;
  callback : UserCallback;
}.
End SendOperation.

Module RecvOperation.
Record t : Type := mk {
  id : Z;
  ptr : Z;
  length : Z;
  callback : UserCallback;
}.
End RecvOperation.

(** A call made to a user callback, with its arguments. *)
Inductive Invocation : Type :=
| DescriptorCallback (cb : UserCallback) (error : Error) (descriptor : TDescriptor)
| SendCallback (cb : UserCallback) (error : Error)
| RecvCallback (cb : UserCallback) (error : Error).

(** [Channel::Impl].  Besides the members: [called] lists the calls made to
    user callbacks, oldest first, and [channel] says whether the [Channel]
    object, which holds the one lasting [shared_ptr<Impl>], still exists.
    ([context_] and [closingReceiver_] only forward the context's close to
    [close()].) *)
Record Impl : Type := {
  connection_ : Connection;
  error_ : Error;
  id_ : Z;
  sendOperations_ : list SendOperation.t;
  recvOperations_ : list RecvOperation.t;
  called : list Invocation;
  channel : bool;
}.

Definition set_connection (c : Connection) (s : Impl) : Impl :=
  {| connection_ := c; error_ := error_ s; id_ := id_ s;
     sendOperations_ := sendOperations_ s; recvOperations_ := recvOperations_ s;
     called := called s; channel := channel s |}.

Definition set_error (e : Error) (s : Impl) : Impl :=
  {| connection_ := connection_ s; error_ := e; id_ := id_ s;
     sendOperations_ := sendOperations_ s; recvOperations_ := recvOperations_ s;
     called := called s; channel := channel s |}.

Definition set_id (id : Z) (s : Impl) : Impl :=
  {| connection_ := connection_ s; error_ := error_ s; id_ := id;
     sendOperations_ := sendOperations_ s; recvOperations_ := recvOperations_ s;
     called := called s; channel := channel s |}.

Definition set_sendOperations (ops : list SendOperation.t) (s : Impl) : Impl :=
  {| connection_ := connection_ s; error_ := error_ s; id_ := id_ s;
     sendOperations_ := ops; recvOperations_ := recvOperations_ s;
     called := called s; channel := channel s |}.

Definition set_recvOperations (ops : list RecvOperation.t) (s : Impl) : Impl :=
  {| connection_ := connection_ s; error_ := error_ s; id_ := id_ s;
     sendOperations_ := sendOperations_ s; recvOperations_ := ops;
     called := called s; channel := channel s |}.

Definition set_channel (b : bool) (s : Impl) : Impl :=
  {| connection_ := connection_ s; error_ := error_ s; id_ := id_ s;
     sendOperations_ := sendOperations_ s; recvOperations_ := recvOperations_ s;
     called := called s; channel := b |}.

(** Calling a user callback. *)
Definition invoke (i : Invocation) (s : Impl) : Impl :=
  {| connection_ := connection_ s; error_ := error_ s; id_ := id_ s;
     sendOperations_ := sendOperations_ s; recvOperations_ := recvOperations_ s;
     called := called s ++ [i]; channel := channel s |}.

(** [connection_->read(...)] and [connection_->write(...)]. *)
Definition connection_submit (op : Operation) (s : Impl) : Impl :=
  set_connection (submit op (connection_ s)) s.

Definition sendFromLoop_ (ptr length : Z)
    (descriptorCallback callback : UserCallback) (s : Impl) : Impl :=
  let id := id_ s in
  let s := set_id (to_uint64 (id + 1)) s in
  let pbDescriptor := {| operation_id := id |} in
  let s := set_sendOperations
             (sendOperations_ s ++ [SendOperation.mk id ptr length callback]) s in
  invoke (DescriptorCallback descriptorCallback kSuccess
            (saveDescriptor pbDescriptor)) s.

Definition recvFromLoop_ (descriptor : TDescriptor) (ptr length : Z)
    (callback : UserCallback) (s : Impl) : Impl :=
  let pbDescriptor := loadDescriptor descriptor in
  let id := operation_id pbDescriptor in
  let s := set_recvOperations
             (recvOperations_ s ++ [RecvOperation.mk id ptr length callback]) s in
  connection_submit (WritePacket (Request id) (Lazy LambdaNop)) s.

Definition readPacket_ (s : Impl) : Impl :=
  connection_submit (ReadPacket (Lazy LambdaOnPacket)) s.

Definition initFromLoop_ (s : Impl) : Impl :=
  readPacket_ s.

Definition handleError_ (s : Impl) : Impl :=
  set_connection (close (connection_ s)) s.

Definition closeFromLoop_ (s : Impl) : Impl :=
  if is_error (error_ s) then s
  else handleError_ (set_error ChannelClosedError s).

Definition onRequest_ (id : Z) (s : Impl) : Result Impl :=
  match list_find (fun op => SendOperation.id op = id) (sendOperations_ s) with
  | None => Throw (AssertionFailed "Expected send operation to exist.")
  | Some (_, op) =>
      let s := connection_submit (WritePacket (Reply id) (Lazy LambdaNop)) s in
      Ok (connection_submit
            (WriteBytes (SendOperation.ptr op) (SendOperation.length op)
               (Eager (LambdaSendCompleted id))) s)
  end.

Definition onReply_ (id : Z) (s : Impl) : Result Impl :=
  match list_find (fun op => RecvOperation.id op = id) (recvOperations_ s) with
  | None => Throw (AssertionFailed "Expected recv operation to exist.")
  | Some (_, op) =>
      Ok (connection_submit
            (ReadBytes (RecvOperation.ptr op) (RecvOperation.length op)
               (Eager (LambdaRecvCompleted id))) s)
  end.

Definition onPacket_ (packet : Packet) (s : Impl) : Result Impl :=
  s ← match packet with
      | Request id => onRequest_ id s
      | Reply id => onReply_ id s
      | NotSet => Throw (AssertionFailed "Packet is not a request nor a reply.")
      end;
  Ok (readPacket_ s).

Definition sendCompleted (id : Z) (s : Impl) : Result Impl :=
  match list_find (fun op => SendOperation.id op = id) (sendOperations_ s) with
  | None => Throw (AssertionFailed "Expected send operation to exist.")
  | Some (i, op) =>
      let s := set_sendOperations (delete i (sendOperations_ s)) s in
      Ok (invoke (SendCallback (SendOperation.callback op) (error_ s)) s)
  end.

Definition recvCompleted (id : Z) (s : Impl) : Result Impl :=
  match list_find (fun op => RecvOperation.id op = id) (recvOperations_ s) with
  | None => Throw (AssertionFailed "Expected recv operation to exist.")
  | Some (i, op) =>
      let s := set_recvOperations (delete i (recvOperations_ s)) s in
      Ok (invoke (RecvCallback (RecvOperation.callback op) (error_ s)) s)
  end.

(** The channel as the wrappers' [TSubject]. *)
#[global] Instance Impl_Subject : Callback.Subject Impl := {|
  Callback.subject_error := error_;
  Callback.subject_set_error := set_error;
  Callback.subject_handleError := handleError_;
|}.

(** Running a wrapped lambda; [packet] is what the transport has read into
    the buffer the lambda captured. *)
Definition apply_lambda (fn : Lambda) (packet : Packet) (s : Impl) : Result Impl :=
  match fn with
  | LambdaNop => Ok s
  | LambdaOnPacket => onPacket_ packet s
  | LambdaSendCompleted id => sendCompleted id s
  | LambdaRecvCompleted id => recvCompleted id s
  end.

(** The callables the channel hands to [deferToLoop_]. *)
Inductive Task : Type :=
| SendTask (ptr length : Z) (descriptorCallback callback : UserCallback)
| RecvTask (descriptor : TDescriptor) (ptr length : Z) (callback : UserCallback)
| InitTask
| CloseTask
| LazyEntry (fn : Lambda) (error : Error) (packet : Packet)
| EagerEntry (fn : Lambda) (error : Error) (packet : Packet).

Definition run_task (task : Task) (s : Impl) : Result Impl :=
  match task with
  | SendTask ptr length descriptorCallback callback =>
      Ok (sendFromLoop_ ptr length descriptorCallback callback s)
  | RecvTask descriptor ptr length callback =>
      Ok (recvFromLoop_ descriptor ptr length callback s)
  | InitTask => Ok (initFromLoop_ s)
  | CloseTask => Ok (closeFromLoop_ s)
  | LazyEntry fn error packet =>
      Callback.LazyCallbackWrapper.entryPointFromLoop_ (apply_lambda fn packet) error s
  | EagerEntry fn error packet =>
      Callback.EagerCallbackWrapper.entryPointFromLoop_ (apply_lambda fn packet) error s
  end.

(** Owners of the channel: the [Channel] object and every eager callback the
    transport still holds. *)
Definition is_eager (op : Operation) : bool :=
  match op_callback op with
  | Eager _ => true
  | Lazy _ => false
  end.

Definition use_count (s : Impl) : nat :=
  ((if channel s then 1 else 0)
   + length (filter (fun op => is_eager op = true) (inflight (connection_ s))))%nat.

(** [runIfAlive]: [weak.lock()] succeeds while somebody owns the subject. *)
Definition runIfAlive (fn : Impl → Result Impl) (s : Impl) : Result Impl :=
  if bool_decide (0 < use_count s)%nat then fn s else Ok s.

(** The transport calls a wrapped callback. *)
Definition fire (cb : Wrapped) (error : Error) (packet : Packet) (s : Impl)
    : Result Impl :=
  match cb with
  | Lazy fn => runIfAlive (run_task (LazyEntry fn error packet)) s
  | Eager fn => run_task (EagerEntry fn error packet) s
  end.

(** What happens to a channel: its user calls [send], [recv] or [close] or
    destroys the [Channel]; the transport calls back its [k]-th operation in
    flight with [error] (and [packet], for the read of a packet). *)
Inductive Event : Type :=
| CallSend (ptr length : Z) (descriptorCallback callback : UserCallback)
| CallRecv (descriptor : TDescriptor) (ptr length : Z) (callback : UserCallback)
| CallClose
| Destroy
| Complete (k : nat) (error : Error) (packet : Packet).

Definition step (e : Event) (s : Impl) : Result Impl :=
  match e with
  | CallSend ptr length descriptorCallback callback =>
      if channel s
      then run_task (SendTask ptr length descriptorCallback callback) s
      else Ok s
  | CallRecv descriptor ptr length callback =>
      if channel s
      then run_task (RecvTask descriptor ptr length callback) s
      else Ok s
  | CallClose =>
      if channel s then run_task CloseTask s else Ok s
  | Destroy =>
      if channel s
      then s ← run_task CloseTask s; Ok (set_channel false s)
      else Ok s
  | Complete k error packet =>
      match inflight (connection_ s) !! k with
      | None => Ok s
      | Some op =>
          fire (op_callback op) error packet
            (set_connection (called_back k (connection_ s)) s)
      end
  end.

Fixpoint run (events : list Event) (s : Impl) : Result Impl :=
  match events with
  | [] => Ok s
  | e :: events => s ← step e s; run events s
  end.

(** [Channel::Channel]: a new [Impl], then [init()]. *)
Definition fresh : Impl :=
  {| connection_ := {| inflight := []; closed := false |};
     error_ := kSuccess;
     id_ := 0;
     sendOperations_ := [];
     recvOperations_ := [];
     called := [];
     channel := true |}.

Definition create : Impl := initFromLoop_ fresh.

(** The completion callbacks among the calls made so far. *)
Definition completion (i : Invocation) : option (UserCallback * Error) :=
  match i with
  | DescriptorCallback _ _ _ => None
  | SendCallback cb error | RecvCallback cb error => Some (cb, error)
  end.

(** Every completion callback among [calls] was given [e]. *)
Definition completed_with (e : Error) (calls : list Invocation) : Prop :=
  Forall (fun i => ∀ cb e', completion i = Some (cb, e') → e' = e) calls.

(** No eager callback is in flight: no payload read or write is pending. *)
Definition no_eager (s : Impl) : Prop :=
  Forall (fun op => is_eager op = false) (inflight (connection_ s)).

(** Identifiers handed out so far are below [id_], which counts the sends,
    as long as fewer than 2^64 events have happened. *)
Definition ids_below (n : Z) (s : Impl) : Prop :=
  0 ≤ id_ s ≤ n ∧
  Forall (fun op => 0 ≤ SendOperation.id op < id_ s) (sendOperations_ s).

(** States of a channel used as examples: a send was accepted; then the peer's request
    for it has arrived, so that the reply packet, the payload write and the
    next packet read are in flight. *)
Definition sent : Impl := sendFromLoop_ 4096 5 1%nat 2%nat create.

Definition requested : Impl :=
  readPacket_
    (connection_submit (WriteBytes 4096 5 (Eager (LambdaSendCompleted 0)))
       (connection_submit (WritePacket (Reply 0) (Lazy LambdaNop))
          (set_connection (called_back 0 (connection_ sent)) sent))).

(** Then the transport fails the payload write. *)
Definition failed : Impl :=
  Eval vm_compute in
    match step (Complete 1 ConnectionClosedError NotSet) requested with
    | Ok s => s
    | Throw _ => requested
    end.

(** A channel closed with the send still outstanding. *)
Definition closed_after_send : Impl := closeFromLoop_ sent.

End BasicChannel.

(** ** cma/context.cc: the CMA context and its worker *)

Module Cma.

(** A user-supplied [copy_request_callback_fn], by identity. *)
Definition UserCallback : Type := nat.

Record CopyRequest : Type := {
  remotePid : Z;
  remotePtr : Z;
  localPtr : Z;
  length : Z;
  callback : UserCallback;
}.

(** Modelled from the spec: [Queue] of common/queue.h, which is not among
    the sources: the unbounded first-in first-out mailbox of the design
    document, listed oldest first.  [push] appends; [pop] takes the oldest
    element, and blocks while there is none ([None] here). *)
Definition queue_push {T : Type} (x : T) (q : list T) : list T := q ++ [x].

Definition queue_pop {T : Type} (q : list T) : option (T * list T) :=
  match q with
  | [] => None
  | x :: q => Some (x, q)
  end.

(** [Context::Impl].  In [requests_], [None] is the tombstone [nullopt].
    [emitterClosed] counts the calls of [closingEmitter_.close()], [exited]
    says that the worker thread has returned from [handleCopyRequests_],
    [copied] lists the requests handed to [process_vm_readv] and [called]
    the calls made to user callbacks, oldest first. *)
Record Impl : Type := {
  requests_ : list (option CopyRequest);
  closed_ : bool;
  joined_ : bool;
  emitterClosed : nat;
  exited : bool;
  copied : list CopyRequest;
  called : list (UserCallback * Error);
}.

Definition initial : Impl :=
  {| requests_ := []; closed_ := false; joined_ := false; emitterClosed := 0;
     exited := false; copied := []; called := [] |}.

Definition push (x : option CopyRequest) (s : Impl) : Impl :=
  {| requests_ := queue_push x (requests_ s); closed_ := closed_ s;
     joined_ := joined_ s; emitterClosed := emitterClosed s; exited := exited s;
     copied := copied s; called := called s |}.

Definition requestCopy (request : CopyRequest) (s : Impl) : Impl :=
  push (Some request) s.

Definition close (s : Impl) : Impl :=
  if closed_ s then s
  else push None
         {| requests_ := requests_ s; closed_ := true; joined_ := joined_ s;
            emitterClosed := S (emitterClosed s); exited := exited s;
            copied := copied s; called := called s |}.

(** [join()]; the wait for the worker ([thread_.join()]) changes nothing. *)
Definition join (s : Impl) : Impl :=
  let s := close s in
  {| requests_ := requests_ s; closed_ := closed_ s; joined_ := true;
     emitterClosed := emitterClosed s; exited := exited s;
     copied := copied s; called := called s |}.

(** The error the worker hands to the callback, from what
    [process_vm_readv] returned.  [nread] is an [ssize_t] and is compared
    with the [size_t] length as an unsigned number. *)
Definition copy_error (request : CopyRequest) (nread errno : Z) : Error :=
  if decide (nread = -1) then SystemError "cma" errno
  else if decide (to_uint64 nread ≠ length request)
       then ShortReadError (length request) nread
       else kSuccess.

(** One iteration of [while (true)] in [handleCopyRequests_]; [nread] and
    [errno] are what [process_vm_readv] gives if the iteration calls it.
    With an empty queue the worker stays blocked in [pop]. *)
Definition handleCopyRequests_iteration (nread errno : Z) (s : Impl) : Impl :=
  if exited s then s
  else
    match queue_pop (requests_ s) with
    | None => s
    | Some (None, rest) =>
        {| requests_ := rest; closed_ := closed_ s; joined_ := joined_ s;
           emitterClosed := emitterClosed s; exited := true;
           copied := copied s; called := called s |}
    | Some (Some request, rest) =>
        {| requests_ := rest; closed_ := closed_ s; joined_ := joined_ s;
           emitterClosed := emitterClosed s; exited := false;
           copied := copied s ++ [request];
           called := called s ++ [(callback request, copy_error request nread errno)] |}
    end.

(** [handleCopyRequests_], run on the results of the system calls it gets
    to make. *)
Definition handleCopyRequests_ (results : list (Z * Z)) (s : Impl) : Impl :=
  fold_left (fun s r => handleCopyRequests_iteration (fst r) (snd r) s) results s.

(** What the users of a context and its worker do, in the order a schedule
    puts them. *)
Inductive Action : Type :=
| RequestCopy (request : CopyRequest)
| Close
| Join
| Worker (nread errno : Z).

Definition step (s : Impl) (a : Action) : Impl :=
  match a with
  | RequestCopy request => requestCopy request s
  | Close => close s
  | Join => join s
  | Worker nread errno => handleCopyRequests_iteration nread errno s
  end.

Definition run (s : Impl) (schedule : list Action) : Impl :=
  fold_left step schedule s.

(** The requests the worker will still serve: those in front of the first
    tombstone, while it has not returned. *)
Fixpoint until_tombstone (q : list (option CopyRequest)) : list CopyRequest :=
  match q with
  | Some request :: q => request :: until_tombstone q
  | _ => []
  end.

Definition live (s : Impl) : list CopyRequest :=
  if exited s then [] else until_tombstone (requests_ s).

(** The tombstone is in the queue, or the worker has met it. *)
Definition tombstoned (s : Impl) : Prop :=
  exited s = true ∨ None ∈ requests_ s.

(** The callback [c] has not been called and no request the worker will
    still serve, or has served, carries it. *)
Definition untouched (c : UserCallback) (s : Impl) : Prop :=
  (∀ r, r ∈ live s → callback r ≠ c) ∧
  (∀ r, r ∈ copied s → callback r ≠ c) ∧
  (∀ e, (c, e) ∉ called s).

End Cma.

(** ** shm/loop.cc: the epoll loop of the shared-memory transport *)

Module ShmLoop.

Definition EPERM : Z := 1.
Definition ENOENT : Z := 2.
Definition EINTR : Z := 4.
Definition EBADF : Z := 9.
Definition EAGAIN : Z := 11.
Definition EEXIST : Z := 17.
Definition EPOLLIN : Z := 1.

(** Modelled from the spec: [kCapacity_] of transport/shm/loop.h, which is
    not among the sources: the fixed capacity to which [Loop::loop] resizes
    [epollEvents_] before every call of [epoll_wait]. *)
Definition kCapacity_ : nat := 64.

(** A value-initialised [struct epoll_event], as [resize] appends them. *)
Definition blank : nat * Z := (0%nat, 0).

(** What a descriptor number denotes in the process: nothing, an open file
    that does not support epoll (a regular file, a directory), or an open
    file that does. *)
Inductive FileKind : Type :=
| NotOpen
| NoEpoll
| Pollable.

(** The kernel's side of [epoll_ctl(2)] on the interest list of [epollFd_],
    a map from registered descriptors to their event masks.  The call is
    refused with [EBADF] for a descriptor that is not open and with [EPERM]
    for a file that does not support epoll; adding a registered descriptor
    fails with [EEXIST], modifying or deleting one that is not registered
    fails with [ENOENT].  (Failures for want of memory or of watches are
    left out.)  The result is the return value, [errno] and the new
    interest list. *)
Inductive EpollOp : Type :=
| EPOLL_CTL_ADD
| EPOLL_CTL_MOD
| EPOLL_CTL_DEL.

Definition epoll_ctl (op : EpollOp) (fd : nat) (events : Z)
    (files : nat → FileKind) (interest : gmap nat Z) : Z * Z * gmap nat Z :=
  match files fd with
  | NotOpen => (-1, EBADF, interest)
  | NoEpoll => (-1, EPERM, interest)
  | Pollable =>
      match op, interest !! fd with
      | EPOLL_CTL_ADD, None => (0, 0, <[fd := events]> interest)
      | EPOLL_CTL_ADD, Some _ => (-1, EEXIST, interest)
      | EPOLL_CTL_MOD, Some _ => (0, 0, <[fd := events]> interest)
      | EPOLL_CTL_MOD, None => (-1, ENOENT, interest)
      | EPOLL_CTL_DEL, Some _ => (0, 0, delete fd interest)
      | EPOLL_CTL_DEL, None => (-1, ENOENT, interest)
      end
  end.

(** A slot of [handlers_]: a [std::weak_ptr<EventHandler>], never assigned
    (or reset), or assigned from the handler [handler]. *)
Inductive WeakHandler : Type :=
| Uninitialized
| Weak (handler : nat).

#[global] Instance WeakHandler_eq_dec : EqDecision WeakHandler.
Proof. solve_decision. Defined.

Definition is_uninitialized (weak : WeakHandler) : bool :=
  match weak with
  | Uninitialized => true
  | Weak _ => false
  end.

(** Where the thread running [Loop::loop] stands: before the start of the
    wakeup handler; at the test of [while]; inside [epoll_wait]; waiting on
    [epollCond_] for the reactor; returned from [loop]; out of [loop] by an
    exception. *)
Inductive LoopThread : Type :=
| Starting
| AtWhile
| InEpollWait
| WaitingForReactor
| Returned
| Threw (errno : Z).

(** The thread is inside [while]. *)
Definition inside (t : LoopThread) : bool :=
  match t with
  | AtWhile | InEpollWait | WaitingForReactor => true
  | Starting | Returned | Threw _ => false
  end.

(** [Loop]: the members the claims are about, with the kernel objects
    behind them: the table of the descriptors of the process ([files],
    which no step changes: descriptors are opened before they are
    registered and closed after they are unregistered), the interest list
    of [epollFd_] and the counter of [eventFd_]; and, as a ghost, the calls
    of [handleEventsFromLoop] made so far, each with the handler called
    and the events it was given ([dispatched]). *)
Record Loop : Type := {
  files : nat → FileKind;
  interest : gmap nat Z;
  eventFd_ : nat;
  counter : Z;
  handlers_ : list WeakHandler;
  handlerCount_ : Z;
  closed_ : bool;
  joined_ : bool;
  epollEvents_ : list (nat * Z);
  thread : LoopThread;
  dispatched : list (nat * Z);
}.

(** [Loop::Loop], with the descriptor [eventfd(2)] returned, which is open
    from then on. *)
Definition initial (files : nat → FileKind) (eventFd : nat) : Loop :=
  {| files := <[eventFd := Pollable]> files;
     interest := ∅; eventFd_ := eventFd; counter := 0; handlers_ := [];
     handlerCount_ := 0; closed_ := false; joined_ := false;
     epollEvents_ := []; thread := Starting; dispatched := [] |}.

Definition set_thread (t : LoopThread) (s : Loop) : Loop :=
  {| files := files s;
     interest := interest s; eventFd_ := eventFd_ s; counter := counter s;
     handlers_ := handlers_ s; handlerCount_ := handlerCount_ s;
     closed_ := closed_ s; joined_ := joined_ s;
     epollEvents_ := epollEvents_ s; thread := t;
     dispatched := dispatched s |}.

Definition set_epollEvents (events : list (nat * Z)) (s : Loop) : Loop :=
  {| files := files s;
     interest := interest s; eventFd_ := eventFd_ s; counter := counter s;
     handlers_ := handlers_ s; handlerCount_ := handlerCount_ s;
     closed_ := closed_ s; joined_ := joined_ s;
     epollEvents_ := events; thread := thread s;
     dispatched := dispatched s |}.

Definition set_counter (c : Z) (s : Loop) : Loop :=
  {| files := files s;
     interest := interest s; eventFd_ := eventFd_ s; counter := c;
     handlers_ := handlers_ s; handlerCount_ := handlerCount_ s;
     closed_ := closed_ s; joined_ := joined_ s;
     epollEvents_ := epollEvents_ s; thread := thread s;
     dispatched := dispatched s |}.

Definition set_interest (i : gmap nat Z) (s : Loop) : Loop :=
  {| files := files s;
     interest := i; eventFd_ := eventFd_ s; counter := counter s;
     handlers_ := handlers_ s; handlerCount_ := handlerCount_ s;
     closed_ := closed_ s; joined_ := joined_ s;
     epollEvents_ := epollEvents_ s; thread := thread s;
     dispatched := dispatched s |}.

Definition set_handlers (handlers : list WeakHandler) (count : Z) (s : Loop) : Loop :=
  {| files := files s;
     interest := interest s; eventFd_ := eventFd_ s; counter := counter s;
     handlers_ := handlers; handlerCount_ := count;
     closed_ := closed_ s; joined_ := joined_ s;
     epollEvents_ := epollEvents_ s; thread := thread s;
     dispatched := dispatched s |}.

(** How a call on the loop ends: it returns or it throws, and either way
    it leaves the loop in some state. *)
Inductive Outcome (A : Type) : Type :=
| Returns (a : A)
| Throws (e : Exception) (a : A).
Arguments Returns {A} a.
Arguments Throws {A} e a.

Definition state_of {A : Type} (o : Outcome A) : A :=
  match o with
  | Returns a | Throws _ a => a
  end.

(** [wakeup]: a write of 1 to the eventfd. *)
Definition wakeup (s : Loop) : Loop :=
  set_counter (counter s + 1) s.

(** [registerDescriptor]: the block under [handlersMutex_], then the calls
    of [epoll_ctl], whose failure throws with the handler table already
    updated. *)
Definition registerDescriptor (fd : nat) (events : Z) (h : nat) (s : Loop)
    : Outcome Loop :=
  let handlers :=
    if decide (length (handlers_ s) ≤ fd)%nat
    then resize (fd + 1) Uninitialized (handlers_ s)
    else handlers_ s in
  match handlers !! fd with
  | None => Throws OutOfRange s
  | Some weak =>
      let count :=
        if is_uninitialized weak then handlerCount_ s + 1 else handlerCount_ s in
      let s := set_handlers (<[fd := Weak h]> handlers) count s in
      let '(rv, errno, interest1) :=
        epoll_ctl EPOLL_CTL_ADD fd events (files s) (interest s) in
      let '(rv, errno, interest2) :=
        if decide (rv = -1 ∧ errno = EEXIST)
        then epoll_ctl EPOLL_CTL_MOD fd events (files s) interest1
        else (rv, errno, interest1) in
      if decide (rv = -1) then Throws (SystemException errno) s
      else Returns (set_interest interest2 s)
  end.

(** [unregisterDescriptor]: the call of [epoll_ctl], whose failure throws
    before anything else is done, then the block under [handlersMutex_]. *)
Definition unregisterDescriptor (fd : nat) (s : Loop) : Outcome Loop :=
  let '(rv, errno, interest1) :=
    epoll_ctl EPOLL_CTL_DEL fd 0 (files s) (interest s) in
  if decide (rv = -1) then Throws (SystemException errno) s
  else
    let s := set_interest interest1 s in
    match handlers_ s !! fd with
    | None => Throws OutOfRange s
    | Some weak =>
        let count :=
          if negb (is_uninitialized weak) then handlerCount_ s - 1
          else handlerCount_ s in
        let s := set_handlers (<[fd := Uninitialized]> (handlers_ s)) count s in
        Returns (if decide (count = 1) then wakeup s else s)
    end.

(** [FunctionEventHandler]: the descriptor and event it was made for and
    its [cancelled_] flag; [handler] is the identity of the object. *)
Record FunctionEventHandler : Type := {
  handler : nat;
  fd_ : nat;
  event_ : Z;
  cancelled_ : bool;
}.

Definition start (h : FunctionEventHandler) (s : Loop) : Outcome Loop :=
  registerDescriptor (fd_ h) (event_ h) (handler h) s.

(** [cancel]: [cancelled_] is set after [unregisterDescriptor] has
    returned. *)
Definition cancel (hs : FunctionEventHandler * Loop)
    : Outcome (FunctionEventHandler * Loop) :=
  let '(h, s) := hs in
  if cancelled_ h then Returns (h, s)
  else
    match unregisterDescriptor (fd_ h) s with
    | Returns s =>
        Returns ({| handler := handler h; fd_ := fd_ h; event_ := event_ h;
                    cancelled_ := true |}, s)
    | Throws e s => Throws e (h, s)
    end.

(** [close]; [reactor_.close()] is the reactor's business. *)
Definition close (s : Loop) : Loop :=
  if closed_ s then s
  else wakeup
         {| files := files s;
            interest := interest s; eventFd_ := eventFd_ s; counter := counter s;
            handlers_ := handlers_ s; handlerCount_ := handlerCount_ s;
            closed_ := true; joined_ := joined_ s;
            epollEvents_ := epollEvents_ s; thread := thread s;
     dispatched := dispatched s |}.

(** [join]; the waits for the reactor and for the thread change nothing. *)
Definition join (s : Loop) : Loop :=
  let s := close s in
  {| files := files s;
     interest := interest s; eventFd_ := eventFd_ s; counter := counter s;
     handlers_ := handlers_ s; handlerCount_ := handlerCount_ s;
     closed_ := closed_ s; joined_ := true;
     epollEvents_ := epollEvents_ s; thread := thread s;
     dispatched := dispatched s |}.

(** What a call of [epoll_wait] returns when it returns: -1 with [errno], or
    the events it has filled in. *)
Inductive EpollWait : Type :=
| EpollError (errno : Z)
| EpollEvents (events : list (nat * Z)).

(** The event says that the eventfd is readable. *)
Definition wakes (s : Loop) (event : nat * Z) : bool :=
  bool_decide (fst event = eventFd_ s) && negb (Z.land (snd event) EPOLLIN =? 0).

(** The kernel's side of [epoll_wait(2)] with no timeout: whether the call
    can return [result].  It returns -1 with an [errno], or at least one
    and at most [maxevents] events, each for a descriptor of the interest
    list and one for a descriptor at most; it reports the eventfd readable
    only while the counter of the eventfd is not zero. *)
Definition epoll_wait (maxevents : nat) (result : EpollWait) (s : Loop) : bool :=
  match result with
  | EpollError _ => true
  | EpollEvents events =>
      bool_decide (0 < length events ≤ maxevents)%nat
      && bool_decide (NoDup events.*1)
      && forallb (fun event => bool_decide (is_Some (interest s !! fst event)))
           events
      && (negb (existsb (wakes s) events) || bool_decide (0 < counter s))
  end.

(** The condition of [while] in [Loop::loop]. *)
Definition loop_condition (s : Loop) : bool :=
  negb (closed_ s) || bool_decide (1 < handlerCount_ s).

(** The handler of the wakeup eventfd, made on the stack of [Loop::loop];
    its identity is 0, which no other handler has. *)
Definition wakeupHandler (s : Loop) : FunctionEventHandler :=
  {| handler := 0; fd_ := eventFd_ s; event_ := EPOLLIN; cancelled_ := false |}.

(** An exception leaves [Loop::loop]. *)
Definition thrown (e : Exception) : LoopThread :=
  match e with
  | SystemException errno => Threw errno
  | _ => Threw 0
  end.

(** One step of the thread running [Loop::loop]: the start of the wakeup
    handler; the test of the condition, followed by the resize of
    [epollEvents_] and the call of [epoll_wait], or by the return (with the
    wakeup handler destroyed, hence cancelled); the return of [epoll_wait]
    with [result], if the kernel can return it: an interrupted call goes
    back to the test, another error throws, events are left in
    [epollEvents_] (resized to their number) for the reactor; the wait for
    the reactor to have emptied [epollEvents_]. *)
Definition loop (result : EpollWait) (s : Loop) : Loop :=
  match thread s with
  | Starting =>
      match start (wakeupHandler s) s with
      | Returns s => set_thread AtWhile s
      | Throws e s => set_thread (thrown e) s
      end
  | AtWhile =>
      if loop_condition s then
        set_thread InEpollWait
          (set_epollEvents (resize kCapacity_ blank (epollEvents_ s)) s)
      else
        match cancel (wakeupHandler s, s) with
        | Returns hs => set_thread Returned (snd hs)
        | Throws e hs => set_thread (thrown e) (snd hs)
        end
  | InEpollWait =>
      if epoll_wait kCapacity_ result s then
        match result with
        | EpollError errno =>
            if decide (errno = EINTR) then set_thread AtWhile s
            else set_thread (Threw errno) s
        | EpollEvents events =>
            set_thread WaitingForReactor (set_epollEvents events s)
        end
      else s
  | WaitingForReactor =>
      match epollEvents_ s with
      | [] => set_thread AtWhile s
      | _ :: _ => s
      end
  | Returned | Threw _ => s
  end.

(** The ghost record of a call of [handleEventsFromLoop]. *)
Definition set_dispatched (calls : list (nat * Z)) (s : Loop) : Loop :=
  {| files := files s;
     interest := interest s; eventFd_ := eventFd_ s; counter := counter s;
     handlers_ := handlers_ s; handlerCount_ := handlerCount_ s;
     closed_ := closed_ s; joined_ := joined_ s;
     epollEvents_ := epollEvents_ s; thread := thread s;
     dispatched := calls |}.

(** [handleEventsFromLoop] of the handler [h], called with [events].  The
    wakeup handler, given an event it was made for, reads the eventfd,
    which resets its counter; the read of the non-blocking eventfd fails
    with [EAGAIN], and throws, when the counter is zero.  What other
    handlers do to the loop are actions of their own. *)
Definition handleEventsFromLoop (h : nat) (events : Z) (s : Loop) : Outcome Loop :=
  let s := set_dispatched (dispatched s ++ [(h, events)]) s in
  if decide (h = handler (wakeupHandler s)
             ∧ Z.land events (event_ (wakeupHandler s)) ≠ 0)
  then
    if decide (counter s = 0) then Throws (SystemException EAGAIN) s
    else Returns (set_counter 0 s)
  else Returns s.

(** The [for] of [handleEpollEventsFromLoop]: the handler in the slot of
    the descriptor of each event, if there is one, is called with the
    events.  (A handler is taken to live as long as it is in its slot, so
    that [lock()] gives it.) *)
Fixpoint handle_events (events : list (nat * Z)) (s : Loop) : Outcome Loop :=
  match events with
  | [] => Returns s
  | event :: events =>
      match handlers_ s !! fst event with
      | Some (Weak h) =>
          match handleEventsFromLoop h (snd event) s with
          | Returns s => handle_events events s
          | Throws e s => Throws e s
          end
      | _ => handle_events events s
      end
  end.

(** [handleEpollEventsFromLoop], run by the reactor: the handlers of the
    events are called, then [epollEvents_] is cleared. *)
Definition handleEpollEventsFromLoop (s : Loop) : Outcome Loop :=
  match handle_events (epollEvents_ s) s with
  | Returns s => Returns (set_epollEvents [] s)
  | Throws e s => Throws e s
  end.

(** The call that the reactor makes for an event, if any: the handler in
    the slot of its descriptor, with the events. *)
Definition dispatch (s : Loop) (event : nat * Z) : option (nat * Z) :=
  match handlers_ s !! fst event with
  | Some (Weak h) => Some (h, snd event)
  | _ => None
  end.

(** What the threads around a loop do, in the order a schedule puts them.
    A call leaves the loop as it is when the call returns or throws.  The
    reactor runs [handleEpollEventsFromLoop] under [epollMutex_], which the
    thread of the loop holds except while it waits for the reactor. *)
Inductive Action : Type :=
| Register (fd : nat) (events : Z) (h : nat)
| Unregister (fd : nat)
| Close
| Join
| LoopThreadStep (result : EpollWait)
| Reactor.

Definition step (s : Loop) (a : Action) : Loop :=
  match a with
  | Register fd events h => state_of (registerDescriptor fd events h s)
  | Unregister fd => state_of (unregisterDescriptor fd s)
  | Close => close s
  | Join => join s
  | LoopThreadStep result => loop result s
  | Reactor =>
      match thread s with
      | WaitingForReactor => state_of (handleEpollEventsFromLoop s)
      | _ => s
      end
  end.

Definition run (s : Loop) (schedule : list Action) : Loop :=
  fold_left step schedule s.

(** The action is not about the wakeup eventfd nor about the wakeup
    handler, which are private to the loop. *)
Definition foreign (eventFd : nat) (a : Action) : bool :=
  match a with
  | Register fd _ h => bool_decide (fd ≠ eventFd ∧ h ≠ 0%nat)
  | Unregister fd => bool_decide (fd ≠ eventFd)
  | _ => true
  end.

(** The slots that hold a handler. *)
Definition initialised (handlers : list WeakHandler) : nat :=
  length (filter (fun weak => is_uninitialized weak = false) handlers).

(** What the handler table and the kernel have in common in every
    history: a descriptor in the interest list is open, supports epoll and
    has a handler in its slot, and [handlerCount_] counts the slots that
    hold a handler. *)
Record Consistent (s : Loop) : Prop := {
  cons_slots : ∀ fd, is_Some (interest s !! fd)
                     → ∃ h, handlers_ s !! fd = Some (Weak h);
  cons_files : ∀ fd, is_Some (interest s !! fd) → files s fd = Pollable;
  cons_count : handlerCount_ s = Z.of_nat (initialised (handlers_ s));
  cons_counter : 0 ≤ counter s;
}.

(** [handlers_] after the [resize] of [registerDescriptor]. *)
Definition grown (fd : nat) (s : Loop) : list WeakHandler :=
  if decide (length (handlers_ s) ≤ fd)%nat
  then resize (fd + 1) Uninitialized (handlers_ s)
  else handlers_ s.

(** While the thread of the loop is inside [while], the wakeup eventfd is
    registered. *)
Record Running (eventFd : nat) (s : Loop) : Prop := {
  run_eventFd : eventFd_ s = eventFd;
  run_files : files s eventFd = Pollable;
  run_consistent : Consistent s;
  run_wakeup : inside (thread s) = true → is_Some (interest s !! eventFd);
}.

(** While the other threads leave the wakeup eventfd and the wakeup handler
    alone: inside [while] the eventfd is registered for [EPOLLIN] with the
    wakeup handler in its slot, and in no other slot; a thread inside
    [epoll_wait] when the condition of [while] is false has a wakeup to
    read; and the reactor is given one event for a descriptor at most, and
    one of the eventfd only with a wakeup to read. *)
Record Awake (eventFd : nat) (s : Loop) : Prop := {
  awake_running : Running eventFd s;
  awake_handler : inside (thread s) = true →
                  interest s !! eventFd = Some EPOLLIN ∧
                  handlers_ s !! eventFd = Some (Weak 0);
  awake_private : ∀ fd, handlers_ s !! fd = Some (Weak 0) → fd = eventFd;
  awake_woken : thread s = InEpollWait → loop_condition s = false → 0 < counter s;
  awake_events : thread s = WaitingForReactor → NoDup (epollEvents_ s).*1;
  awake_handed : thread s = WaitingForReactor →
                 existsb (wakes s) (epollEvents_ s) = true → 0 < counter s;
}.

(** [epollEvents_] outside the wait for the reactor: empty, or the buffer
    of [kCapacity_] entries made for [epoll_wait]. *)
Definition buffer (s : Loop) : Prop :=
  match thread s with
  | Starting => epollEvents_ s = []
  | InEpollWait => epollEvents_ s = replicate kCapacity_ blank
  | WaitingForReactor => True
  | AtWhile | Returned | Threw _ =>
      epollEvents_ s = [] ∨ epollEvents_ s = replicate kCapacity_ blank
  end.

End ShmLoop.

(** ** callback.h: the rearmable callback *)

Module RearmableCallback.
Section Rearmable.

(** The stored callable [TFn] and the stored arguments [TStoredArgs]. *)
Context {Fn Args : Type}.

(** [RearmableCallback]: the two deques, front first; [fired] lists the
    calls [cb_apply(fn, args)] made so far, oldest first. *)
Record t : Type := {
  callbacks_ : list Fn;
  args_ : list Args;
  fired : list (Fn * Args);
}.

Definition empty : t := {| callbacks_ := []; args_ := []; fired := [] |}.

Definition arm (fn : Fn) (s : t) : t :=
  match args_ s with
  | args :: rest =>
      {| callbacks_ := callbacks_ s; args_ := rest;
         fired := fired s ++ [(fn, args)] |}
  | [] =>
      {| callbacks_ := callbacks_ s ++ [fn]; args_ := []; fired := fired s |}
  end.

Definition trigger (args : Args) (s : t) : t :=
  match callbacks_ s with
  | fn :: rest =>
      {| callbacks_ := rest; args_ := args_ s;
         fired := fired s ++ [(fn, args)] |}
  | [] =>
      {| callbacks_ := []; args_ := args_ s ++ [args]; fired := fired s |}
  end.

(** The loop of [triggerAll]: [generator k] is what the [k]-th call of the
    generator returns; the callbacks do not arm or trigger this object
    while the loop runs. *)
Fixpoint triggerAll_loop (generator : nat → Args) (k : nat)
    (callbacks : list Fn) (calls : list (Fn * Args)) : list (Fn * Args) :=
  match callbacks with
  | [] => calls
  | fn :: rest =>
      triggerAll_loop generator (S k) rest (calls ++ [(fn, generator k)])
  end.

Definition triggerAll (generator : nat → Args) (s : t) : t :=
  {| callbacks_ := []; args_ := args_ s;
     fired := triggerAll_loop generator 0 (callbacks_ s) (fired s) |}.

(** The calls made on one object, in order. *)
Inductive Op : Type :=
| Arm (fn : Fn)
| Trigger (args : Args).

Definition step (s : t) (op : Op) : t :=
  match op with
  | Arm fn => arm fn s
  | Trigger args => trigger args s
  end.

Definition run (ops : list Op) : t := fold_left step ops empty.

Definition armed (ops : list Op) : list Fn :=
  omap (fun op => match op with Arm fn => Some fn | Trigger _ => None end) ops.

Definition triggered (ops : list Op) : list Args :=
  omap (fun op => match op with Trigger args => Some args | Arm _ => None end) ops.

End Rearmable.
End RearmableCallback.

(** ** callback.h: the closing emitter and its receivers *)

Module Closing.
Section Emitter.

(** The thunk a receiver subscribes: [runIfAlive(subject, close)]. *)
Context {Thunk : Type}.

(** [ClosingEmitter]: [receivers_], a map from tokens ([uintptr_t]) to
    thunks. *)
Definition ClosingEmitter : Type := gmap Z Thunk.

(** [subscribe]: [unordered_map::emplace] inserts only when the key is not
    there yet. *)
Definition subscribe (token : Z) (fn : Thunk) (receivers_ : gmap Z Thunk)
    : gmap Z Thunk :=
  match receivers_ !! token with
  | Some _ => receivers_
  | None => <[token := fn]> receivers_
  end.

Definition unsubscribe (token : Z) (receivers_ : gmap Z Thunk) : gmap Z Thunk :=
  delete token receivers_.

(** [close]: the thunks it calls, with their tokens, in the order of the
    iteration over the map. *)
Definition close (receivers_ : gmap Z Thunk) : list (Z * Thunk) :=
  map_to_list receivers_.

(** [ClosingReceiver]: its [token_], 0 until activated. *)
Record ClosingReceiver : Type := { token_ : Z }.

Definition inactive : ClosingReceiver := {| token_ := 0 |}.

(** [activate(subject)]: the token is the address of the subject. *)
Definition activate (address : Z) (fn : Thunk)
    (re : ClosingReceiver * gmap Z Thunk) : ClosingReceiver * gmap Z Thunk :=
  ({| token_ := address |}, subscribe address fn (snd re)).

(** [~ClosingReceiver]. *)
Definition destroy (re : ClosingReceiver * gmap Z Thunk) : gmap Z Thunk :=
  if decide (0 < token_ (fst re)) then unsubscribe (token_ (fst re)) (snd re)
  else snd re.

End Emitter.
End Closing.

(** ** channel.cc: readings of a channel's history *)

Module ChannelHistory.
Import BasicChannel.

(** The completion callbacks called so far, by direction. *)
Definition send_called (calls : list Invocation) : list UserCallback :=
  omap (fun i => match i with SendCallback cb _ => Some cb | _ => None end) calls.

Definition recv_called (calls : list Invocation) : list UserCallback :=
  omap (fun i => match i with RecvCallback cb _ => Some cb | _ => None end) calls.

(** The completion callbacks the channel holds or has called. *)
Definition send_owed (s : Impl) : list UserCallback :=
  (SendOperation.callback <$> sendOperations_ s) ++ send_called (called s).

Definition recv_owed (s : Impl) : list UserCallback :=
  (RecvOperation.callback <$> recvOperations_ s) ++ recv_called (called s).

(** The completion callbacks the user has passed to [send] (to [recv])
    while the [Channel] existed. *)
Fixpoint sends_accepted (events : list Event) : list UserCallback :=
  match events with
  | [] => []
  | CallSend _ _ _ callback :: events => callback :: sends_accepted events
  | Destroy :: _ => []
  | _ :: events => sends_accepted events
  end.

Fixpoint recvs_accepted (events : list Event) : list UserCallback :=
  match events with
  | [] => []
  | CallRecv _ _ _ callback :: events => callback :: recvs_accepted events
  | Destroy :: _ => []
  | _ :: events => recvs_accepted events
  end.

(** The reads of a packet in flight. *)
Definition is_packet_read (op : Operation) : bool :=
  match op with
  | ReadPacket _ => true
  | _ => false
  end.

Definition packet_reads (s : Impl) : nat :=
  length (filter (fun op => is_packet_read op = true) (inflight (connection_ s))).

(** The operations the channel submits, each with the callback the channel
    wraps for it. *)
Definition submitted_by_channel (op : Operation) : Prop :=
  match op with
  | ReadPacket cb => cb = Lazy LambdaOnPacket
  | WritePacket _ cb => cb = Lazy LambdaNop
  | WriteBytes _ _ cb => ∃ id, cb = Eager (LambdaSendCompleted id)
  | ReadBytes _ _ cb => ∃ id, cb = Eager (LambdaRecvCompleted id)
  end.

(** What holds of a channel as long as it runs: without the [Channel]
    object it is in the error state; the operations in flight are those it
    submits; at most one read of a packet is in flight, and exactly one in
    the Success state; it is in the error state exactly when it has closed
    its connection. *)
Record Pumping (s : Impl) : Prop := {
  pump_destroyed : channel s = false → error_ s ≠ kSuccess;
  pump_ops : Forall submitted_by_channel (inflight (connection_ s));
  pump_at_most : (packet_reads s ≤ 1)%nat;
  pump_armed : error_ s = kSuccess → packet_reads s = 1%nat;
  pump_closed : error_ s ≠ kSuccess ↔ closed (connection_ s) = true;
}.

(** The identifiers of the outstanding sends increase along the list and
    are below [id_], which is at most [n]. *)
Record Numbered (n : Z) (s : Impl) : Prop := {
  num_id : 0 ≤ id_ s ≤ n;
  num_sorted : StronglySorted Z.lt (SendOperation.id <$> sendOperations_ s);
  num_below : Forall (fun op => 0 ≤ SendOperation.id op < id_ s) (sendOperations_ s);
}.

(** A history used as an example: two sends, the peer's request for the
    second, a recv, and the completion of the second send's payload write
    (then operation 2 of those in flight). *)
Definition exchange : list Event :=
  [CallSend 4096 5 1%nat 2%nat; CallSend 4100 7 3%nat 4%nat;
   Complete 0 kSuccess (Request 1);
   CallRecv (saveDescriptor {| operation_id := 0 |}) 8192 5 5%nat].

Definition exchanged : Impl :=
  Eval vm_compute in
    match run exchange create with
    | Ok s => s
    | Throw _ => create
    end.

(** Two recvs outstanding for the same descriptor, after one for another. *)
Definition twice_requested : Impl :=
  Eval vm_compute in
    recvFromLoop_ (saveDescriptor {| operation_id := 7 |}) 8200 5 7%nat
      (recvFromLoop_ (saveDescriptor {| operation_id := 7 |}) 8192 5 6%nat
         (recvFromLoop_ (saveDescriptor {| operation_id := 3 |}) 8100 5 5%nat create)).

End ChannelHistory.

(** ** The history of a CMA context *)

Module CmaHistory.
Import Cma.

(** The requests made before the first [close()] or [join()] of a
    schedule. *)
Fixpoint requested_before_close (schedule : list Action) : list CopyRequest :=
  match schedule with
  | RequestCopy request :: schedule => request :: requested_before_close schedule
  | Worker _ _ :: schedule => requested_before_close schedule
  | _ => []
  end.

(** The iterations of the worker's loop in a schedule. *)
Fixpoint iterations (schedule : list Action) : nat :=
  match schedule with
  | [] => 0
  | Worker _ _ :: schedule => S (iterations schedule)
  | _ :: schedule => iterations schedule
  end.

Definition is_tombstone (x : option CopyRequest) : bool :=
  match x with
  | None => true
  | Some _ => false
  end.

(** The tombstones pushed so far: those in the queue and the one the
    worker has met. *)
Definition tombstones (s : Impl) : nat :=
  (Datatypes.length (filter (fun x => is_tombstone x = true) (requests_ s))
   + (if exited s then 1 else 0))%nat.

(** The call [c] is the callback of [request] with the error of some
    result of [process_vm_readv]. *)
Definition answers (request : CopyRequest) (c : UserCallback * Error) : Prop :=
  fst c = callback request ∧ ∃ nread errno, snd c = copy_error request nread errno.

(** What holds of a context in every history: [close()] has had its effect
    once if at all, and the worker has called back each request it has
    copied, in order. *)
Record Queued (s : Impl) : Prop := {
  queued_emitter : emitterClosed s = if closed_ s then 1%nat else 0%nat;
  queued_tombstones : tombstones s = if closed_ s then 1%nat else 0%nat;
  queued_calls : Forall2 answers (copied s) (called s);
}.

(** A schedule used as an example: two requests, a close, a late request,
    and the worker at its first iteration. *)
Definition two_then_close : list Action :=
  [RequestCopy {| remotePid := 100; remotePtr := 4096; localPtr := 8192;
                  length := 16; callback := 1%nat |};
   RequestCopy {| remotePid := 100; remotePtr := 4112; localPtr := 8208;
                  length := 16; callback := 2%nat |};
   Close;
   RequestCopy {| remotePid := 100; remotePtr := 4128; localPtr := 8224;
                  length := 16; callback := 3%nat |};
   Worker 16 0].

End CmaHistory.

(** ** uv/loop.cc: deferred functions on the libuv loop *)

Module UvLoop.
Section Loop.

(** The functions ([std::function<void()>]) handed to [deferToLoop]. *)
Context {Fn : Type}.

(** The calls of [deferToLoop] a function makes on its own loop while it
    runs, in program order. *)
Variable submits : Fn → list Fn.

(** Where the thread of the loop stands: inside [uv_run] and outside the
    callback of the async handle; in [runFunctionsFromLoop] before the
    swap; at the head of its [for], with the functions left of the local
    [fns]; inside [fn()], which has [todo] still to defer. *)
Inductive LoopThread : Type :=
| InUvRun
| AtSwap
| AtFor (fns : list Fn)
| InFn (fn : Fn) (todo : list Fn) (fns : list Fn).

(** [Loop]: the member [fns_], and of the async handle whether a send is
    waiting to be delivered.  [deferred] and [ran] list the functions
    handed to [deferToLoop] and those called, oldest first.

    Modelled from the spec: libuv's side of the async handle, the wakeup
    mechanism of the design document: [uv_async_send] on the initialised
    handle marks it and returns 0, sends made before the callback is
    called are coalesced, and the loop clears the mark and calls the
    callback once from [uv_run]. *)
Record Loop : Type := {
  fns_ : list Fn;
  async_pending : bool;
  thread : LoopThread;
  deferred : list Fn;
  ran : list Fn;
}.

Definition initial : Loop :=
  {| fns_ := []; async_pending := false; thread := InUvRun;
     deferred := []; ran := [] |}.

Definition set_thread (t : LoopThread) (s : Loop) : Loop :=
  {| fns_ := fns_ s; async_pending := async_pending s; thread := t;
     deferred := deferred s; ran := ran s |}.

(** [wakeup]: [uv_async_send], which returns 0. *)
Definition wakeup (s : Loop) : Loop :=
  {| fns_ := fns_ s; async_pending := true; thread := thread s;
     deferred := deferred s; ran := ran s |}.

(** [deferToLoop], under [mutex_]. *)
Definition deferToLoop (fn : Fn) (s : Loop) : Loop :=
  wakeup {| fns_ := fns_ s ++ [fn]; async_pending := async_pending s;
            thread := thread s; deferred := deferred s ++ [fn]; ran := ran s |}.

(** [uv__async_cb]: the call of [runFunctionsFromLoop]. *)
Definition uv__async_cb (s : Loop) : Loop :=
  set_thread AtSwap s.

(** libuv delivers the async: inside [uv_run], with a send waiting, the
    mark is cleared and the callback called. *)
Definition deliver (s : Loop) : Loop :=
  match thread s, async_pending s with
  | InUvRun, true =>
      uv__async_cb {| fns_ := fns_ s; async_pending := false; thread := thread s;
                      deferred := deferred s; ran := ran s |}
  | _, _ => s
  end.

(** One step of the thread of the loop inside [runFunctionsFromLoop]: the
    swap under [mutex_]; the call of the next function; a call of
    [deferToLoop] by the running function; its return; the end of
    [for]. *)
Definition runFunctionsFromLoop (s : Loop) : Loop :=
  match thread s with
  | InUvRun => s
  | AtSwap =>
      {| fns_ := []; async_pending := async_pending s; thread := AtFor (fns_ s);
         deferred := deferred s; ran := ran s |}
  | AtFor [] => set_thread InUvRun s
  | AtFor (fn :: fns) =>
      {| fns_ := fns_ s; async_pending := async_pending s;
         thread := InFn fn (submits fn) fns;
         deferred := deferred s; ran := ran s ++ [fn] |}
  | InFn fn [] fns => set_thread (AtFor fns) s
  | InFn fn (g :: todo) fns => deferToLoop g (set_thread (InFn fn todo fns) s)
  end.

(** What happens to a loop, in the order a schedule puts it: another
    thread calls [deferToLoop]; libuv delivers the async; the thread of
    the loop takes a step in [runFunctionsFromLoop]. *)
Inductive Action : Type :=
| DeferToLoop (fn : Fn)
| Deliver
| LoopThreadStep.

Definition step (s : Loop) (a : Action) : Loop :=
  match a with
  | DeferToLoop fn => deferToLoop fn s
  | Deliver => deliver s
  | LoopThreadStep => runFunctionsFromLoop s
  end.

Definition run (s : Loop) (schedule : list Action) : Loop :=
  fold_left step schedule s.

(** The functions swapped out of [fns_] and not yet called. *)
Definition waiting (s : Loop) : list Fn :=
  match thread s with
  | AtFor fns | InFn _ _ fns => fns
  | InUvRun | AtSwap => []
  end.

(** Everything deferred has been called, is next in the local [fns], or
    waits in [fns_], in the order of the calls of [deferToLoop]; and while
    functions wait in [fns_], the async handle is marked or the thread of
    the loop is about to swap them out. *)
Record Served (s : Loop) : Prop := {
  served_order : ran s ++ waiting s ++ fns_ s = deferred s;
  served_woken : fns_ s ≠ [] → async_pending s = true ∨ thread s = AtSwap;
}.

End Loop.
End UvLoop.

(** ** cma/context.cc: the domain descriptor *)

Module CmaDomain.

Definition kChannelName : string := "cma".

(** [generateDomainDescriptor]: what is written to the [ostringstream], in
    order.  [bootID] is what [getBootID()] returns, [euid] and [egid] what
    [geteuid()] and [getegid()] return; unsigned numbers are written in
    decimal. *)
Definition generateDomainDescriptor (bootID : option string) (euid egid : N)
    : Result string :=
  match bootID with
  | None => Throw (AssertionFailed "Unable to read boot_id")
  | Some value =>
      let oss := kChannelName in
      let oss := (oss +:+ ":") +:+ value in
      let oss := (oss +:+ "/") +:+ pretty euid in
      let oss := (oss +:+ "/") +:+ pretty egid in
      Ok oss
  end.

(** The string has a slash in it. *)
Fixpoint has_slash (s : string) : bool :=
  match s with
  | EmptyString => false
  | String c s => bool_decide (c = "/"%char) || has_slash s
  end.

End CmaDomain.

(** * Properties *)

Lemma is_error_false e : is_error e = false ↔ e = kSuccess.
Proof. destruct e; simpl; split; congruence. Qed.

Lemma is_error_true e : is_error e = true ↔ e ≠ kSuccess.
Proof. destruct e; simpl; split; congruence. Qed.

(** ** The deferred loop *)

Section DeferredLoopFacts.
Import DeferredLoop.
Context {Task : Type} `{!EqDecision Task}.
Variable submits : Task → list Task.
Variable throws : Task → bool.

#[local] Abbreviation World := (@World Task).
#[local] Abbreviation LogEntry := (@LogEntry Task).

Lemma replay_from_app (st : list Task * option Task) (l1 l2 : list LogEntry) :
  replay_from st (l1 ++ l2) =
  match replay_from st l1 with
  | Some st' => replay_from st' l2
  | None => None
  end.
Proof.
  revert st. induction l1 as [|e l1 IH]; intros st; simpl; [done|].
  destruct (replay_entry st e); [apply IH | done].
Qed.

Lemma replay_snoc (l : list LogEntry) e st :
  replay l = Some st → replay (l ++ [e]) = replay_entry st e.
Proof.
  unfold replay. intros H. rewrite replay_from_app, H. simpl.
  by destruct (replay_entry st e).
Qed.

(** A log the serial executor accepts starts its callables in the order they
    were submitted. *)
Lemma replay_from_order (l : list LogEntry) q0 c0 q c :
  replay_from (q0, c0) l = Some (q, c) →
  q0 ++ submitted l = began l ++ q.
Proof.
  revert q0 c0. induction l as [|e l IH]; intros q0 c0; simpl.
  - intros [= <- <-]. by rewrite app_nil_r.
  - destruct e as [t fn|t task|t task|t task]; simpl.
    + intros H. apply IH in H. by rewrite <- app_assoc in H.
    + destruct q0 as [|first waiting]; [by destruct c0|].
      destruct c0; [done|]. case_decide as Heq; [|done]. subst.
      intros H. apply IH in H. unfold began, submitted in *. simpl. by f_equal.
    + destruct c0 as [current|]; [|done]. case_decide as Heq; [|done].
      intros H. by apply IH in H.
    + destruct c0 as [current|]; [|done]. case_decide as Heq; [|done].
      intros H. by apply IH in H.
Qed.

(** ... and has each of them over before it starts the next. *)
Lemma replay_from_serial (l : list LogEntry) q0 c0 q c :
  replay_from (q0, c0) l = Some (q, c) →
  option_list c0 ++ began l = finished l ++ option_list c.
Proof.
  revert q0 c0. induction l as [|e l IH]; intros q0 c0; simpl.
  - intros [= <- <-]. by rewrite app_nil_r.
  - destruct e as [t fn|t task|t task|t task]; simpl.
    + intros H. by apply IH in H.
    + destruct q0 as [|first waiting]; [by destruct c0|].
      destruct c0; [done|]. case_decide as Heq; [|done]. subst.
      intros H. apply IH in H. unfold began, finished in *. simpl in *. done.
    + destruct c0 as [current|]; [|done]. case_decide as Heq; [|done]. subst.
      intros H. apply IH in H. unfold began, finished in *. simpl in *.
      by f_equal.
    + destruct c0 as [current|]; [|done]. case_decide as Heq; [|done]. subst.
      intros H. apply IH in H. unfold began, finished in *. simpl in *.
      by f_equal.
Qed.

Lemma threw_snoc (l : list LogEntry) e :
  threw (l ++ [e]) = threw l ++ threw [e].
Proof. unfold threw. by rewrite omap_app. Qed.

Lemma began_snoc (l : list LogEntry) e :
  began (l ++ [e]) = began l ++ began [e].
Proof. unfold began. by rewrite omap_app. Qed.


Lemma LoopInv_initial : LoopInv (@initial Task).
Proof. split; simpl; done. Qed.

Lemma LoopInv_other_outside (w : World) tid tid' :
  LoopInv w → currentLoop_ (loop w) = Some tid → tid' ≠ tid → stacks w tid' = [].
Proof.
  intros Hinv Hown Hne. destruct (stacks w tid') eqn:E; [done|].
  assert (currentLoop_ (loop w) = Some tid') as H'.
  { apply (inv_owner _ Hinv). by rewrite E. }
  congruence.
Qed.

(** A thread is inside [deferToLoop_] only while no callable has thrown. *)
Lemma LoopInv_inside (w : World) tid :
  LoopInv w → stacks w tid ≠ [] → threw (log w) = [].
Proof.
  intros Hinv Hin. destruct (threw (log w)) as [|x l] eqn:Hth; [done|].
  destruct (inv_thrown _ Hinv) as [_ Hout]; [by rewrite Hth|].
  by rewrite Hout in Hin.
Qed.

Lemma LoopInv_deferToLoop_outside (w : World) tid fn :
  LoopInv w → stacks w tid = [] → LoopInv (deferToLoop_ tid fn w).
Proof.
  intros Hinv Hout. unfold deferToLoop_.
  destruct (currentLoop_ (loop w)) as [owner|] eqn:Hown.
  - split; simpl; rewrite ?threw_snoc; simpl; rewrite ?app_nil_r.
    + intros t Ht. rewrite <- Hown. by apply (inv_owner _ Hinv).
    + intros t [= ->]. apply (inv_depth _ Hinv). done.
    + intros Hth. destruct (inv_thrown _ Hinv Hth) as [_ Hall]. split; [by eauto|done].
    + rewrite (replay_snoc _ _ _ (inv_replay _ Hinv)). simpl.
      unfold running. simpl. by rewrite Hown.
  - assert (threw (log w) = []) as Hth.
    { destruct (threw (log w)) eqn:E; [done|].
      destruct (inv_thrown _ Hinv) as [[? ?] _]; [by rewrite E|congruence]. }
    split; simpl; rewrite ?threw_snoc; simpl; rewrite ?app_nil_r.
    + intros t Ht. destruct (decide (t = tid)) as [->|Hne]; [done|].
      rewrite fn_lookup_insert_ne in Ht by done.
      apply (inv_owner _ Hinv) in Ht. congruence.
    + intros t [= <-] _. rewrite fn_lookup_insert, Hout. eauto.
    + intros Hne. by rewrite Hth in Hne.
    + rewrite (replay_snoc _ _ _ (inv_replay _ Hinv)). simpl.
      unfold running. simpl. by rewrite Hown, fn_lookup_insert.
Qed.

Lemma LoopInv_advance (w : World) tid :
  LoopInv w → LoopInv (advance submits throws tid w).
Proof.
  intros Hinv. unfold advance.
  destruct (stacks w tid) as [|f below] eqn:Hst; [done|].
  assert (currentLoop_ (loop w) = Some tid) as Hown.
  { apply (inv_owner _ Hinv). by rewrite Hst. }
  assert (threw (log w) = []) as Hth.
  { apply (LoopInv_inside w tid Hinv). by rewrite Hst. }
  assert (below = []) as ->.
  { destruct (inv_depth _ Hinv _ Hown Hth) as [f' Hf]. congruence. }
  pose proof (inv_replay _ Hinv) as Hrep.
  unfold running in Hrep. rewrite Hown, Hst in Hrep.
  destruct f as [|task [|fn todo]].
  - (* the critical section at the head of the loop *)
    unfold loopIteration. destruct (pendingTasks_ (loop w)) as [|task rest] eqn:Hq.
    + split; simpl.
      * intros t Ht. destruct (decide (t = tid)) as [->|Hne].
        { by rewrite fn_lookup_insert in Ht. }
        rewrite fn_lookup_insert_ne in Ht by done.
        apply (inv_owner _ Hinv) in Ht. congruence.
      * done.
      * intros Hne. by rewrite Hth in Hne.
      * rewrite Hrep. done.
    + split; simpl; rewrite ?threw_snoc; simpl; rewrite ?app_nil_r.
      * intros t Ht. destruct (decide (t = tid)) as [->|Hne]; [done|].
        rewrite fn_lookup_insert_ne in Ht by done.
        by apply (inv_owner _ Hinv).
      * intros t Ht _. assert (t = tid) as -> by congruence.
        rewrite fn_lookup_insert. eauto.
      * intros Hne. by rewrite Hth in Hne.
      * rewrite (replay_snoc _ _ _ Hrep). simpl.
        rewrite decide_True by done.
        unfold running. simpl. by rewrite Hown, fn_lookup_insert.
  - destruct (throws task).
    + (* the callable throws *)
      split; simpl; rewrite ?threw_snoc; simpl.
      * intros t Ht. destruct (decide (t = tid)) as [->|Hne].
        { by rewrite fn_lookup_insert in Ht. }
        rewrite fn_lookup_insert_ne in Ht by done.
        by apply (inv_owner _ Hinv).
      * intros t _ Hnil. by apply app_eq_nil in Hnil as [_ ?].
      * intros _. split; [by eauto|]. intros t.
        destruct (decide (t = tid)) as [->|Hne]; [by rewrite fn_lookup_insert|].
        rewrite fn_lookup_insert_ne by done.
        by apply (LoopInv_other_outside w tid).
      * rewrite (replay_snoc _ _ _ Hrep). simpl.
        rewrite decide_True by done.
        unfold running. simpl. by rewrite Hown, fn_lookup_insert.
    + (* the callable returns *)
      split; simpl; rewrite ?threw_snoc; simpl; rewrite ?app_nil_r.
      * intros t Ht. destruct (decide (t = tid)) as [->|Hne]; [done|].
        rewrite fn_lookup_insert_ne in Ht by done.
        by apply (inv_owner _ Hinv).
      * intros t Ht _. assert (t = tid) as -> by congruence.
        rewrite fn_lookup_insert. eauto.
      * intros Hne. by rewrite Hth in Hne.
      * rewrite (replay_snoc _ _ _ Hrep). simpl.
        rewrite decide_True by done.
        unfold running. simpl. by rewrite Hown, fn_lookup_insert.
  - (* the callable calls deferToLoop_ *)
    unfold deferToLoop_, set_stack. simpl. rewrite Hown.
    split; simpl; rewrite ?threw_snoc; simpl; rewrite ?app_nil_r.
    + intros t Ht. destruct (decide (t = tid)) as [->|Hne]; [done|].
      rewrite fn_lookup_insert_ne in Ht by done.
      rewrite <- Hown. by apply (inv_owner _ Hinv).
    + intros t Ht _. assert (t = tid) as -> by congruence.
      rewrite fn_lookup_insert. eauto.
    + intros Hne. by rewrite Hth in Hne.
    + rewrite (replay_snoc _ _ _ Hrep). simpl.
      unfold running. simpl. by rewrite fn_lookup_insert.
Qed.

Lemma LoopInv_step (w : World) a :
  LoopInv w → LoopInv (step submits throws w a).
Proof.
  intros Hinv. destruct a as [tid fn|tid]; simpl.
  - destruct (stacks w tid) eqn:E; [|done].
    by apply LoopInv_deferToLoop_outside.
  - by apply LoopInv_advance.
Qed.

Lemma LoopInv_run (w : World) schedule :
  LoopInv w → LoopInv (run submits throws w schedule).
Proof.
  revert w. induction schedule as [|a schedule IH]; intros w Hinv; [done|].
  simpl. apply IH. by apply LoopInv_step.
Qed.

Lemma run_app (w : World) (s1 s2 : list Action) :
  run submits throws w (s1 ++ s2)
  = run submits throws (run submits throws w s1) s2.
Proof. unfold run. apply fold_left_app. Qed.

(** Once a callable has thrown, nothing is started any more: calls of
    [deferToLoop_] queue their callable and return, and the loop stays
    owned. *)
Lemma wedged_step (w : World) a :
  LoopInv w → threw (log w) ≠ [] →
  threw (log (step submits throws w a)) ≠ [] ∧
  began (log (step submits throws w a)) = began (log w) ∧
  finished (log (step submits throws w a)) = finished (log w) ∧
  currentLoop_ (loop (step submits throws w a)) = currentLoop_ (loop w) ∧
  (∀ fn, fn ∈ pendingTasks_ (loop w) →
         fn ∈ pendingTasks_ (loop (step submits throws w a))).
Proof.
  intros Hinv Hth. destruct (inv_thrown _ Hinv Hth) as [[owner Hown] Hout].
  destruct a as [tid fn|tid]; simpl.
  - rewrite Hout. unfold deferToLoop_. rewrite Hown. simpl.
    rewrite threw_snoc, began_snoc. simpl. rewrite !app_nil_r.
    split; [done|]. split; [done|]. split.
    { unfold finished. rewrite omap_app. simpl. by rewrite app_nil_r. }
    split; [done|]. intros x Hx. apply elem_of_app. by left.
  - unfold advance. rewrite Hout. done.
Qed.

Lemma wedged_run (w : World) schedule :
  LoopInv w → threw (log w) ≠ [] →
  began (log (run submits throws w schedule)) = began (log w) ∧
  finished (log (run submits throws w schedule)) = finished (log w) ∧
  currentLoop_ (loop (run submits throws w schedule)) = currentLoop_ (loop w) ∧
  (∀ tid, stacks (run submits throws w schedule) tid = []) ∧
  (∀ fn, fn ∈ pendingTasks_ (loop w) →
         fn ∈ pendingTasks_ (loop (run submits throws w schedule))).
Proof.
  revert w. induction schedule as [|a schedule IH]; intros w Hinv Hth.
  - simpl. destruct (inv_thrown _ Hinv Hth) as [_ Hout]. done.
  - destruct (wedged_step w a Hinv Hth) as (Hth' & Hb & Hf & Hc & Hq).
    destruct (IH _ (LoopInv_step w a Hinv) Hth') as (Hb' & Hf' & Hc' & Hout' & Hq').
    simpl. rewrite Hb', Hf', Hc', Hb, Hf, Hc. split; [done|]. split; [done|].
    split; [done|]. split; [done|]. intros fn Hfn. by apply Hq', Hq.
Qed.

Lemma threw_step (w : World) a :
  threw (log w) ≠ [] → threw (log (step submits throws w a)) ≠ [].
Proof.
  intros Hth.
  assert (∀ e, threw (log w ++ [e]) ≠ []) as Hsnoc.
  { intros e. rewrite threw_snoc. intros Hnil. by apply app_eq_nil in Hnil as [? _]. }
  destruct a as [tid fn|tid]; simpl.
  - destruct (stacks w tid); [|done]. unfold deferToLoop_.
    destruct (currentLoop_ (loop w)); simpl; apply Hsnoc.
  - unfold advance. destruct (stacks w tid) as [|[|task [|fn todo]] below]; [done| | |].
    + unfold loopIteration. destruct (pendingTasks_ (loop w)); simpl; [done|apply Hsnoc].
    + destruct (throws task); simpl; apply Hsnoc.
    + unfold deferToLoop_. simpl. destruct (currentLoop_ (loop w)); simpl; apply Hsnoc.
Qed.

Ltac log_snoc H :=
  rewrite H; repeat (rewrite <- ?app_assoc, <- ?app_comm_cons); reflexivity.

Lemma Phase_step tid task fn log1 (w : World) a :
  LoopInv w → Phase tid task fn log1 w →
  Phase tid task fn log1 (step submits throws w a).
Proof.
  intros Hinv Hph.
  destruct (decide (threw (log (step submits throws w a)) = [])) as [Hquiet|Hth];
    [|by apply PhaseThrown].
  assert (threw (log w) = []) as Hquiet0.
  { destruct (decide (threw (log w) = [])) as [?|Hne]; [done|].
    by apply (threw_step w a) in Hne. }
  assert (∀ e, Phase tid task fn log1 w → stacks w tid ≠ [] →
            ∀ w', stacks w' tid = stacks w tid →
                  (∀ x, x ∈ pendingTasks_ (loop w) → x ∈ pendingTasks_ (loop w')) →
                  log w' = log w ++ [e] → Phase tid task fn log1 w') as Hframe.
  { intros e Hp _ w' Hs Hq Hl. destruct Hp as [todo l Hst Hin Hlog|f l1 l2 Hst Hin Hlog
      |todo l1 l2 l3 Hst Hlog|l1 l2 l3 l4 Hlog|Hne]; [| | | |done].
    - eapply (PhaseSubmitting _ _ _ _ _ todo (l ++ [e])); [congruence|by apply Hq|].
      rewrite Hl. log_snoc Hlog.
    - eapply (PhaseWaiting _ _ _ _ _ f l1 (l2 ++ [e])); [congruence|by apply Hq|].
      rewrite Hl. log_snoc Hlog.
    - eapply (PhaseRunning _ _ _ _ _ todo l1 l2 (l3 ++ [e])); [congruence|].
      rewrite Hl. log_snoc Hlog.
    - eapply (PhaseDone _ _ _ _ _ l1 l2 l3 (l4 ++ [e])).
      rewrite Hl. log_snoc Hlog. }
  assert (∀ w', log w' = log w ∨ (∃ e, log w' = log w ++ [e]) →
            (∃ l1 l2 l3 l4, log w = log1 ++ l1 ++ Ended tid task :: l2
                ++ Began tid fn :: l3 ++ Ended tid fn :: l4) →
            Phase tid task fn log1 w') as Hdone.
  { intros w' Hl (l1 & l2 & l3 & l4 & Hlog). destruct Hl as [Hl|[e Hl]].
    - eapply PhaseDone. rewrite Hl. exact Hlog.
    - eapply (PhaseDone _ _ _ _ _ l1 l2 l3 (l4 ++ [e])). rewrite Hl. log_snoc Hlog. }
  assert (∀ t, log (step submits throws w (Advance t)) = log w
               ∨ ∃ e, log (step submits throws w (Advance t)) = log w ++ [e])
    as Hgrows.
  { intros t. simpl. unfold advance.
    destruct (stacks w t) as [|[|tk [|g td]] below]; simpl; [by left| | |].
    - unfold loopIteration. destruct (pendingTasks_ (loop w)); simpl; eauto.
    - destruct (throws tk); simpl; eauto.
    - unfold deferToLoop_. simpl. destruct (currentLoop_ (loop w)); simpl; eauto. }
  destruct (decide (stacks w tid = [])) as [Hout|Hin].
  { (* only a finished [fn] leaves the thread outside *)
    destruct Hph as [? ? Hst|? ? ? Hst|? ? ? ? Hst|l1 l2 l3 l4 Hlog|Hne];
      try (rewrite Hst in Hout; discriminate); [|done].
    apply Hdone; [|by eauto 6].
    destruct a as [t g|t]; [|apply Hgrows]. simpl.
    destruct (stacks w t); [|by left]. right. unfold deferToLoop_.
    destruct (currentLoop_ (loop w)); simpl; eauto. }
  assert (currentLoop_ (loop w) = Some tid) as Hown by by apply (inv_owner _ Hinv).
  destruct a as [t g|t].
  - (* a call from outside: the callable is queued behind [fn] *)
    simpl. destruct (stacks w t) eqn:Hst; [|done].
    assert (t ≠ tid) as Hne by congruence.
    unfold deferToLoop_. rewrite Hown.
    eapply (Hframe (Submitted t g)); simpl; [done|done|done| |done].
    intros x Hx. apply elem_of_app. by left.
  - destruct (decide (t = tid)) as [->|Hne].
    2:{ simpl. unfold advance. by rewrite (LoopInv_other_outside _ _ _ Hinv Hown Hne). }
    simpl in Hquiet |- *. unfold advance in Hquiet |- *.
    destruct Hph as [todo l Hst Hq Hlog|f l1 l2 Hst Hq Hlog
      |todo l1 l2 l3 Hst Hlog|l1 l2 l3 l4 Hlog|Hne]; [| | | |done].
    + rewrite Hst in Hquiet |- *. destruct todo as [|g todo].
      * destruct (throws task).
        { simpl in Hquiet. rewrite threw_snoc in Hquiet.
          by apply app_eq_nil in Hquiet as [_ ?]. }
        eapply (PhaseWaiting _ _ _ _ _ AtLoopHead l []); simpl.
        -- by rewrite fn_lookup_insert.
        -- done.
        -- log_snoc Hlog.
      * unfold deferToLoop_, set_stack. simpl. rewrite Hown.
        eapply (PhaseSubmitting _ _ _ _ _ todo (l ++ [Submitted tid g])); simpl.
        -- by rewrite fn_lookup_insert.
        -- apply elem_of_app. by left.
        -- log_snoc Hlog.
    + rewrite Hst in Hquiet |- *. destruct f as [|t' [|g todo]].
      * unfold loopIteration.
        destruct (pendingTasks_ (loop w)) as [|first rest] eqn:Hpend.
        { by apply elem_of_nil in Hq. }
        apply elem_of_cons in Hq as [<-|Hq].
        -- eapply (PhaseRunning _ _ _ _ _ (submits fn) l1 l2 []); simpl.
           ++ by rewrite fn_lookup_insert.
           ++ log_snoc Hlog.
        -- eapply (PhaseWaiting _ _ _ _ _ _ l1 (l2 ++ [Began tid first])); simpl.
           ++ by rewrite fn_lookup_insert.
           ++ done.
           ++ log_snoc Hlog.
      * destruct (throws t').
        { simpl in Hquiet. rewrite threw_snoc in Hquiet.
          by apply app_eq_nil in Hquiet as [_ ?]. }
        eapply (PhaseWaiting _ _ _ _ _ _ l1 (l2 ++ [Ended tid t'])); simpl.
        -- by rewrite fn_lookup_insert.
        -- done.
        -- log_snoc Hlog.
      * unfold deferToLoop_, set_stack. simpl. rewrite Hown.
        eapply (PhaseWaiting _ _ _ _ _ _ l1 (l2 ++ [Submitted tid g])); simpl.
        -- by rewrite fn_lookup_insert.
        -- apply elem_of_app. by left.
        -- log_snoc Hlog.
    + rewrite Hst in Hquiet |- *. destruct todo as [|g todo].
      * destruct (throws fn).
        { simpl in Hquiet. rewrite threw_snoc in Hquiet.
          by apply app_eq_nil in Hquiet as [_ ?]. }
        eapply (PhaseDone _ _ _ _ _ l1 l2 l3 []); simpl. log_snoc Hlog.
      * unfold deferToLoop_, set_stack. simpl. rewrite Hown.
        eapply (PhaseRunning _ _ _ _ _ todo l1 l2 (l3 ++ [Submitted tid g])); simpl.
        -- by rewrite fn_lookup_insert.
        -- log_snoc Hlog.
    + apply Hdone; [|by eauto 6]. apply (Hgrows tid).
Qed.

Lemma Phase_run tid task fn log1 (w : World) schedule :
  LoopInv w → Phase tid task fn log1 w →
  Phase tid task fn log1 (run submits throws w schedule).
Proof.
  revert w. induction schedule as [|a schedule IH]; intros w Hinv Hph; [done|].
  simpl. apply IH; [by apply LoopInv_step | by apply Phase_step].
Qed.

Lemma Phase_outside tid task fn log1 (w : World) :
  Phase tid task fn log1 w → stacks w tid = [] → threw (log w) = [] →
  ∃ l1 l2 l3 l4,
    log w = log1 ++ l1 ++ Ended tid task :: l2 ++ Began tid fn :: l3
              ++ Ended tid fn :: l4.
Proof.
  intros [? ? Hst|? ? ? Hst|? ? ? ? Hst|l1 l2 l3 l4 Hlog|Hne] Hout Hquiet;
    try (rewrite Hst in Hout; discriminate); [|done].
  eauto 6.
Qed.

(** C6.  Whatever the schedule of the threads calling [deferToLoop_] on one
    channel, and whichever callables throw: the log of the loop is one the
    serial executor accepts, so the callables run one at a time and in the
    order of their submission (the callables started so far, followed by
    those still queued, are the callables submitted so far; each is over
    before the next starts); [inLoop_] is true for the thread that is
    inside the draining loop, and for no other thread as long as no
    callable has thrown; when a running callable [task] submits [fn], the
    call returns at once into [task] with [fn] queued, and at any later
    time at which the draining thread is back outside [deferToLoop_] and
    no callable has thrown, [task] has returned, after that [fn] was
    started by that same thread, and [fn] has returned.  Once a callable
    has thrown, the thread that ran it is outside [deferToLoop_] while
    [inLoop_] stays true for it, and whatever is called afterwards no
    callable is started any more: those queued stay queued. *)
Theorem deferToLoop_serial_in_submission_order (schedule : list Action) :
  let w := run submits throws initial schedule in
  replay (log w) = Some (pendingTasks_ (loop w), running w) ∧
  began (log w) ++ pendingTasks_ (loop w) = submitted (log w) ∧
  began (log w) = finished (log w) ++ option_list (running w) ∧
  (∀ tid, stacks w tid ≠ [] → inLoop_ tid w = true) ∧
  (threw (log w) = [] → ∀ tid, inLoop_ tid w = true → stacks w tid ≠ []) ∧
  (∀ tid task fn todo below,
     stacks w tid = InTask task (fn :: todo) :: below →
     let w1 := step submits throws w (Advance tid) in
     stacks w1 tid = InTask task todo :: below ∧
     pendingTasks_ (loop w1) = pendingTasks_ (loop w) ++ [fn] ∧
     log w1 = log w ++ [Submitted tid fn] ∧
     ∀ more,
       let w2 := run submits throws w1 more in
       stacks w2 tid = [] → threw (log w2) = [] →
       ∃ l1 l2 l3 l4,
         log w2 = log w1 ++ l1 ++ Ended tid task :: l2 ++ Began tid fn :: l3
                    ++ Ended tid fn :: l4) ∧
  (threw (log w) ≠ [] →
   (∃ tid, inLoop_ tid w = true ∧ stacks w tid = []) ∧
   ∀ more,
     let w2 := run submits throws w more in
     began (log w2) = began (log w) ∧
     (∀ tid, stacks w2 tid = []) ∧
     (∀ fn, fn ∈ pendingTasks_ (loop w) → fn ∈ pendingTasks_ (loop w2))).
Proof.
  intros w.
  assert (LoopInv w) as Hinv by (apply LoopInv_run, LoopInv_initial).
  pose proof (inv_replay _ Hinv) as Hrep.
  split; [exact Hrep|].
  split; [symmetry; exact (replay_from_order _ _ _ _ _ Hrep)|].
  split; [exact (replay_from_serial _ _ _ _ _ Hrep)|].
  split; [|split; [|split]].
  - intros tid Hin. unfold inLoop_. rewrite bool_decide_eq_true.
    by apply (inv_owner _ Hinv).
  - intros Hquiet tid. unfold inLoop_. rewrite bool_decide_eq_true.
    intros Hown. destruct (inv_depth _ Hinv _ Hown Hquiet) as [f Hf]. by rewrite Hf.
  - intros tid task fn todo below Hst w1.
    assert (currentLoop_ (loop w) = Some tid) as Hown.
    { apply (inv_owner _ Hinv). by rewrite Hst. }
    assert (threw (log w) = []) as Hquiet.
    { apply (LoopInv_inside w tid Hinv). by rewrite Hst. }
    assert (below = []) as ->.
    { destruct (inv_depth _ Hinv _ Hown Hquiet) as [f' Hf]. congruence. }
    assert (stacks w1 tid = [InTask task todo] ∧
            pendingTasks_ (loop w1) = pendingTasks_ (loop w) ++ [fn] ∧
            log w1 = log w ++ [Submitted tid fn]) as (Hst1 & Hq1 & Hlog1).
    { subst w1. simpl. unfold advance. rewrite Hst.
      unfold deferToLoop_, set_stack. simpl. rewrite Hown. simpl.
      by rewrite fn_lookup_insert. }
    repeat split; [done..|].
    intros more w2 Hout Hquiet2.
    apply (Phase_outside tid task fn (log w1) w2); [|done..].
    apply Phase_run; [by apply LoopInv_step|].
    eapply (PhaseSubmitting _ _ _ _ _ todo []); [done| |by rewrite app_nil_r].
    rewrite Hq1. apply elem_of_app. right. by apply list_elem_of_singleton.
  - intros Hth. destruct (inv_thrown _ Hinv Hth) as [[owner Hown] Hout]. split.
    + exists owner. split; [|done]. unfold inLoop_. by rewrite bool_decide_eq_true.
    + intros more w2. destruct (wedged_run w more Hinv Hth) as (Hb & _ & _ & Hout2 & Hq).
      done.
Qed.

End DeferredLoopFacts.

(** A schedule of two threads: thread 7 submits callable 1, which submits
    callable 2 while it runs; thread 8 submits callable 3 in between.  The
    callables run as 1, 3, 2, all on thread 7, which then leaves the loop. *)
Example deferToLoop_two_threads :
  let submits := fun task : nat => if decide (task = 1%nat) then [2%nat] else [] in
  let w := DeferredLoop.run submits (fun _ => false) DeferredLoop.initial
             (DeferredLoop.Call 7%nat 1%nat :: DeferredLoop.Advance 7%nat ::
              DeferredLoop.Call 8%nat 3%nat ::
              replicate 8 (DeferredLoop.Advance 7%nat)) in
  DeferredLoop.began (DeferredLoop.log w) = [1; 3; 2]%nat ∧
  DeferredLoop.ended (DeferredLoop.log w) = [1; 3; 2]%nat ∧
  DeferredLoop.submitted (DeferredLoop.log w) = [1; 3; 2]%nat ∧
  DeferredLoop.stacks w 7%nat = [] ∧
  DeferredLoop.currentLoop_ (DeferredLoop.loop w) = None.
Proof. vm_compute. done. Qed.

Lemma deferToLoop_serial_in_submission_order_witness :
  let submits := fun task : nat => if decide (task = 1%nat) then [2%nat] else [] in
  let throws := fun _ : nat => false in
  let w := DeferredLoop.run submits throws DeferredLoop.initial
             [DeferredLoop.Call 7%nat 1%nat; DeferredLoop.Advance 7%nat] in
  let w1 := DeferredLoop.step submits throws w (DeferredLoop.Advance 7%nat) in
  let w2 := DeferredLoop.run submits throws w1
              (DeferredLoop.Call 8%nat 3%nat ::
               replicate 7 (DeferredLoop.Advance 7%nat)) in
  DeferredLoop.stacks w 7%nat = [DeferredLoop.InTask 1%nat [2%nat]] ∧
  DeferredLoop.stacks w2 7%nat = [] ∧
  DeferredLoop.threw (DeferredLoop.log w2) = [] ∧
  ∃ l1 l2 l3 l4,
    DeferredLoop.log w2 =
      DeferredLoop.log w1 ++ l1 ++ DeferredLoop.Ended 7%nat 1%nat :: l2
        ++ DeferredLoop.Began 7%nat 2%nat :: l3
        ++ DeferredLoop.Ended 7%nat 2%nat :: l4.
Proof.
  intros submits throws w w1 w2.
  split; [reflexivity|]. split; [reflexivity|]. split; [reflexivity|].
  destruct (deferToLoop_serial_in_submission_order submits throws
              [DeferredLoop.Call 7%nat 1%nat; DeferredLoop.Advance 7%nat])
    as (_ & _ & _ & _ & _ & Hreentrant & _).
  destruct (Hreentrant 7%nat 1%nat 2%nat [] [] eq_refl) as (_ & _ & _ & Hlater).
  apply (Hlater (DeferredLoop.Call 8%nat 3%nat ::
                 replicate 7 (DeferredLoop.Advance 7%nat))).
  - reflexivity.
  - reflexivity.
Defined.

(** The claim of C6 fails when a callable throws.  Thread 7 submits
    callable 1, which submits callable 2 and returns; thread 8 has
    submitted callable 3, which throws, in between.  Callable 1 has
    returned and control is back with thread 7, outside [deferToLoop_],
    but callable 2 has not run and stays queued, also after thread 7
    submits callable 4; and [inLoop_] is true for thread 7, which is not
    draining the queue. *)
Lemma deferToLoop_wedged_by_throwing_callable :
  let submits := fun task : nat => if decide (task = 1%nat) then [2%nat] else [] in
  let throws := fun task : nat => bool_decide (task = 3%nat) in
  let w := DeferredLoop.run submits throws DeferredLoop.initial
             (DeferredLoop.Call 7%nat 1%nat :: DeferredLoop.Advance 7%nat ::
              DeferredLoop.Call 8%nat 3%nat ::
              replicate 8 (DeferredLoop.Advance 7%nat)
              ++ DeferredLoop.Call 7%nat 4%nat ::
              replicate 8 (DeferredLoop.Advance 7%nat)) in
  DeferredLoop.submitted (DeferredLoop.log w) = [1; 3; 2; 4]%nat ∧
  DeferredLoop.ended (DeferredLoop.log w) = [1%nat] ∧
  DeferredLoop.began (DeferredLoop.log w) = [1; 3]%nat ∧
  DeferredLoop.pendingTasks_ (DeferredLoop.loop w) = [2; 4]%nat ∧
  DeferredLoop.stacks w 7%nat = [] ∧
  DeferredLoop.inLoop_ 7%nat w = true.
Proof. vm_compute. done. Qed.

(** ** The callback wrappers *)

Section WrapperFacts.
Import Callback.
Context {S : Type} `{!Subject S}.

Lemma lazy_processError_stops (subject : S) (error : Error) :
  fst (LazyCallbackWrapper.processError_ subject error)
  = is_error (subject_error subject) || is_error error.
Proof.
  unfold LazyCallbackWrapper.processError_.
  destruct (is_error (subject_error subject)); [done|].
  by destruct (is_error error).
Qed.

Lemma lazy_entryPoint_suppressed (fn : S → Result S) error (subject : S) :
  is_error (subject_error subject) || is_error error = true →
  LazyCallbackWrapper.entryPointFromLoop_ fn error subject
  = Ok (snd (LazyCallbackWrapper.processError_ subject error)).
Proof.
  intros H. unfold LazyCallbackWrapper.entryPointFromLoop_.
  rewrite <- lazy_processError_stops in H.
  destruct (LazyCallbackWrapper.processError_ subject error) as [stop s'].
  simpl in *. by rewrite H.
Qed.

Lemma lazy_entryPoint_success (fn : S → Result S) (subject : S) :
  is_error (subject_error subject) = false →
  LazyCallbackWrapper.entryPointFromLoop_ fn kSuccess subject = fn subject.
Proof.
  intros H. unfold LazyCallbackWrapper.entryPointFromLoop_,
    LazyCallbackWrapper.processError_. by rewrite H.
Qed.

End WrapperFacts.

(** ** The basic channel *)

Section ChannelFacts.
Import Callback BasicChannel.

Ltac unfold_channel :=
  repeat progress
    (unfold step, fire, runIfAlive, run_task,
       LazyCallbackWrapper.entryPointFromLoop_, LazyCallbackWrapper.processError_,
       EagerCallbackWrapper.entryPointFromLoop_, EagerCallbackWrapper.processError_,
       apply_lambda, onPacket_, onRequest_, onReply_, sendCompleted, recvCompleted,
       closeFromLoop_, handleError_, initFromLoop_, readPacket_,
       sendFromLoop_, recvFromLoop_, connection_submit, invoke,
       set_connection, set_error, set_id, set_sendOperations, set_recvOperations,
       set_channel, mbind, Result_bind in *;
     simpl in *).

Ltac channel_cases :=
  unfold_channel; repeat (case_match; simpl in *; simplify_eq; try done).

Lemma step_sticky (ev : Event) (s s' : Impl) :
  error_ s ≠ kSuccess → step ev s = Ok s' →
  error_ s' = error_ s ∧
  ∃ new, called s' = called s ++ new ∧ completed_with (error_ s) new.
Proof.
  intros He Hstep. apply is_error_true in He.
  destruct ev; unfold_channel; rewrite ?He in *; simpl in *; channel_cases;
    (split; [done|]);
    first [ by (exists []; rewrite app_nil_r; split; [done|constructor])
          | eexists [_]; split; [done|];
            repeat constructor; simpl; intros; by simplify_eq ].
Qed.

Lemma run_sticky (events : list Event) (s s' : Impl) :
  error_ s ≠ kSuccess → run events s = Ok s' →
  error_ s' = error_ s ∧
  ∃ new, called s' = called s ++ new ∧ completed_with (error_ s) new.
Proof.
  revert s. induction events as [|ev events IH]; intros s He; simpl.
  - intros [= <-]. split; [done|]. exists []. rewrite app_nil_r. by split; [|constructor].
  - destruct (step ev s) as [s1|] eqn:Hstep; [|done]. simpl. intros Hrun.
    destruct (step_sticky _ _ _ He Hstep) as (He1 & new1 & Hc1 & Hf1).
    destruct (IH s1) as (He2 & new2 & Hc2 & Hf2); [congruence|done|].
    split; [congruence|]. exists (new1 ++ new2). split.
    + by rewrite Hc2, Hc1, app_assoc.
    + apply Forall_app. split; [done|]. by rewrite <- He1.
Qed.

Lemma step_first_error (s s' : Impl) k op error packet :
  error_ s = kSuccess → error ≠ kSuccess →
  inflight (connection_ s) !! k = Some op → (0 < use_count s)%nat →
  step (Complete k error packet) s = Ok s' →
  error_ s' = error ∧ closed (connection_ s') = true ∧
  ∃ new, called s' = called s ++ new ∧ completed_with error new.
Proof.
  intros He Herr Hop Halive Hstep. apply is_error_true in Herr.
  assert (0 < use_count (set_connection (called_back k (connection_ s)) s)
          ∨ is_eager op = true)%nat as Halive'.
  { unfold use_count in *. simpl.
    destruct (is_eager op) eqn:Hop'; [by right|left].
    rewrite <- (take_drop_middle _ _ _ Hop) in Halive.
    rewrite filter_app, filter_cons_False in Halive by (by rewrite Hop').
    rewrite <- filter_app, <- delete_take_drop in Halive. done. }
  unfold step in Hstep. rewrite Hop in Hstep. unfold is_eager in Halive'.
  destruct (op_callback op) as [fn|fn]; simpl in Hstep.
  - destruct Halive' as [Halive'|?]; [|done].
    unfold runIfAlive in Hstep. rewrite bool_decide_eq_true_2 in Hstep by done.
    unfold_channel. rewrite He, Herr in Hstep. simpl in Hstep. simplify_eq. simpl.
    split; [done|]. split; [done|].
    exists []. rewrite app_nil_r. by split; [|constructor].
  - unfold_channel. rewrite He, Herr in Hstep. simpl in Hstep.
    destruct fn; repeat (case_match; simpl in *; simplify_eq; try done);
      simplify_eq; simpl;
      (split; [done|]); (split; [done|]);
      first [ by (exists []; rewrite app_nil_r; split; [done|constructor])
            | eexists [_]; split; [done|];
              repeat constructor; simpl; intros; by simplify_eq ].
Qed.

(** The transport calls back the payload write of a send, or the payload
    read of a recv: whatever it reports, the completion callback of the
    operation is called, with the error the channel then holds. *)
Lemma step_payload_write_completes (s : Impl) k ptr len id i op error packet :
  inflight (connection_ s) !! k
  = Some (WriteBytes ptr len (Eager (LambdaSendCompleted id))) →
  list_find (fun op => SendOperation.id op = id) (sendOperations_ s) = Some (i, op) →
  ∃ s', step (Complete k error packet) s = Ok s' ∧
        error_ s' = (if decide (error_ s = kSuccess) then error else error_ s) ∧
        called s'
        = called s ++ [SendCallback (SendOperation.callback op) (error_ s')] ∧
        sendOperations_ s' = delete i (sendOperations_ s).
Proof.
  intros Hop Hfind. unfold step. rewrite Hop. simpl.
  unfold EagerCallbackWrapper.entryPointFromLoop_,
    EagerCallbackWrapper.processError_. simpl.
  destruct (is_error (error_ s)) eqn:He; simpl.
  - apply is_error_true in He. rewrite decide_False by done.
    unfold sendCompleted. simpl. rewrite Hfind. by eexists.
  - apply is_error_false in He. rewrite decide_True by done.
    destruct (is_error error) eqn:Herr; simpl.
    + unfold sendCompleted. simpl. rewrite Hfind. by eexists.
    + apply is_error_false in Herr. subst error.
      unfold sendCompleted. simpl. rewrite Hfind. eexists. split; [done|].
      simpl. by rewrite He.
Qed.

Lemma step_payload_read_completes (s : Impl) k ptr len id i op error packet :
  inflight (connection_ s) !! k
  = Some (ReadBytes ptr len (Eager (LambdaRecvCompleted id))) →
  list_find (fun op => RecvOperation.id op = id) (recvOperations_ s) = Some (i, op) →
  ∃ s', step (Complete k error packet) s = Ok s' ∧
        error_ s' = (if decide (error_ s = kSuccess) then error else error_ s) ∧
        called s'
        = called s ++ [RecvCallback (RecvOperation.callback op) (error_ s')] ∧
        recvOperations_ s' = delete i (recvOperations_ s).
Proof.
  intros Hop Hfind. unfold step. rewrite Hop. simpl.
  unfold EagerCallbackWrapper.entryPointFromLoop_,
    EagerCallbackWrapper.processError_. simpl.
  destruct (is_error (error_ s)) eqn:He; simpl.
  - apply is_error_true in He. rewrite decide_False by done.
    unfold recvCompleted. simpl. rewrite Hfind. by eexists.
  - apply is_error_false in He. rewrite decide_True by done.
    destruct (is_error error) eqn:Herr; simpl.
    + unfold recvCompleted. simpl. rewrite Hfind. by eexists.
    + apply is_error_false in Herr. subst error.
      unfold recvCompleted. simpl. rewrite Hfind. eexists. split; [done|].
      simpl. by rewrite He.
Qed.

Lemma step_errored_no_eager (ev : Event) (s : Impl) :
  error_ s ≠ kSuccess → no_eager s →
  ∃ s', step ev s = Ok s' ∧ error_ s' = error_ s ∧ no_eager s' ∧
        called s' = called s ++
          match ev with
          | CallSend _ _ descriptorCallback _ =>
              if channel s
              then [DescriptorCallback descriptorCallback kSuccess
                      (saveDescriptor {| operation_id := id_ s |})]
              else []
          | _ => []
          end ∧
        ∀ op, op ∈ sendOperations_ s → op ∈ sendOperations_ s'.
Proof.
  intros He Hno. apply is_error_true in He. unfold no_eager in *.
  destruct ev as [ptr len dcb cb|d ptr len cb| | |k error packet].
  - unfold_channel. destruct (channel s); eexists; (split; [done|]); simpl;
      rewrite ?app_nil_r; repeat split; try done.
    intros op Hop. apply elem_of_app. by left.
  - unfold_channel. destruct (channel s); eexists; (split; [done|]); simpl;
      rewrite ?app_nil_r; repeat split; try done.
    apply Forall_app. split; [done|]. by repeat constructor.
  - unfold_channel. rewrite He. destruct (channel s); eexists; (split; [done|]);
      simpl; rewrite ?app_nil_r; done.
  - unfold_channel. rewrite He. destruct (channel s); eexists; (split; [done|]);
      simpl; rewrite ?app_nil_r; done.
  - unfold step. destruct (inflight (connection_ s) !! k) as [op|] eqn:Hop.
    2:{ exists s. by rewrite app_nil_r. }
    assert (is_eager op = false) as Hlazy.
    { eapply (proj1 (Forall_forall _ _) Hno). by eapply list_elem_of_lookup_2. }
    unfold is_eager in Hlazy. destruct (op_callback op) as [fn|fn]; [|done].
    unfold_channel. rewrite He. simpl.
    exists (Build_Impl (called_back k (connection_ s)) (error_ s) (id_ s)
              (sendOperations_ s) (recvOperations_ s) (called s) (channel s)).
    split; [by case_bool_decide|]. simpl. rewrite app_nil_r.
    repeat split; try done. by apply Forall_delete.
Qed.

Lemma run_errored_no_eager (events : list Event) (s : Impl) :
  error_ s ≠ kSuccess → no_eager s →
  ∃ s', run events s = Ok s' ∧ error_ s' = error_ s ∧
        omap completion (called s') = omap completion (called s) ∧
        ∀ op, op ∈ sendOperations_ s → op ∈ sendOperations_ s'.
Proof.
  revert s. induction events as [|ev events IH]; intros s He Hno; simpl.
  - by exists s.
  - destruct (step_errored_no_eager ev s He Hno) as (s1 & Hstep & He1 & Hno1 & Hc1 & Hops1).
    rewrite Hstep. simpl.
    destruct (IH s1) as (s' & Hrun & He' & Hc' & Hops'); [congruence|done|].
    exists s'. split; [done|]. split; [congruence|]. split.
    + rewrite Hc', Hc1, omap_app.
      destruct ev; try destruct (channel s); simpl; by rewrite ?app_nil_r.
    + eauto.
Qed.

(** C1.  The code at the scenario of the claim: a fresh channel, a [send],
    then [close()] before any request of the peer has arrived.  Whatever
    the user and the transport do afterwards (the aborted read of the next
    packet called back with any error, further calls, the [Channel]
    destroyed), the run never throws, the channel stays [ChannelClosedError],
    the send operation stays in [sendOperations_], and no completion
    callback is ever called: the [callback] of the [send] is not called
    once, it is never called. *)
Theorem close_before_request_never_completes
    (ptr length : Z) (descriptorCallback callback : UserCallback)
    (events : list Event) :
  ∃ s,
    run (CallSend ptr length descriptorCallback callback :: CallClose :: events)
        create = Ok s ∧
    error_ s = ChannelClosedError ∧
    SendOperation.mk 0 ptr length callback ∈ sendOperations_ s ∧
    omap completion (called s) = [] ∧
    ∀ error, SendCallback callback error ∉ called s.
Proof.
  set (s2 := closeFromLoop_ (sendFromLoop_ ptr length descriptorCallback callback create)).
  destruct (run_errored_no_eager events s2) as (s & Hrun & He & Hc & Hops).
  { done. }
  { repeat constructor. }
  exists s. split; [exact Hrun|]. split; [done|]. split.
  { apply Hops. simpl. apply list_elem_of_singleton. done. }
  split; [done|].
  intros error Hin.
  assert ((callback, error) ∈ omap completion (called s)) as Hin'.
  { apply list_elem_of_omap. by exists (SendCallback callback error). }
  rewrite Hc in Hin'. simpl in Hin'. by apply elem_of_nil in Hin'.
Qed.

(** The same for a [recv] closed before the peer's reply: its request
    packet is written behind a lazy callback, no payload read is in flight,
    and its callback is never called. *)
Lemma recv_closed_before_reply_never_completes
    (descriptor : TDescriptor) (ptr length : Z) (callback : UserCallback)
    (events : list Event) :
  ∃ s,
    run (CallRecv descriptor ptr length callback :: CallClose :: events) create
      = Ok s ∧
    error_ s = ChannelClosedError ∧
    omap completion (called s) = [].
Proof.
  set (s2 := closeFromLoop_ (recvFromLoop_ descriptor ptr length callback create)).
  destruct (run_errored_no_eager events s2) as (s & Hrun & He & Hc & _).
  { done. }
  { repeat constructor. }
  exists s. split; [exact Hrun|]. by split.
Qed.

(** C3.  The first error a channel observes is the one it keeps, and the
    operations whose payload is in flight are completed with it; the others
    are not completed at all.

    In the Success state [close()] makes [error_] [ChannelClosedError] and
    a transport callback that reports [error] makes it [error], and either
    closes the connection.  From a state whose [error_] is not Success,
    whatever the user and the transport do next, [error_] keeps its value
    and every completion callback called from then on is given exactly
    that value.  When the transport calls back the payload write of a send
    or the payload read of a recv, whatever it reports, the completion
    callback of that operation is called, with the first error once there
    is one.  But an operation whose payload transfer has not been started
    is pending without a callback of its own at the transport: once
    [error_] is set and no payload transfer is in flight, no completion
    callback is called any more and the pending sends stay in
    [sendOperations_]; so after a send whose packet read the transport
    fails with [error], the channel holds [error] for ever and the
    callback of the send never receives it. *)
Theorem first_error_is_sticky :
  (∀ s, error_ s = kSuccess →
        error_ (closeFromLoop_ s) = ChannelClosedError ∧
        closed (connection_ (closeFromLoop_ s)) = true) ∧
  (∀ s s' k op error packet,
     error_ s = kSuccess → error ≠ kSuccess →
     inflight (connection_ s) !! k = Some op → (0 < use_count s)%nat →
     step (Complete k error packet) s = Ok s' →
     error_ s' = error ∧ closed (connection_ s') = true ∧
     ∃ new, called s' = called s ++ new ∧ completed_with error new) ∧
  (∀ events s s',
     error_ s ≠ kSuccess → run events s = Ok s' →
     error_ s' = error_ s ∧
     ∃ new, called s' = called s ++ new ∧ completed_with (error_ s) new) ∧
  (∀ s k ptr len id i op error packet,
     inflight (connection_ s) !! k
     = Some (WriteBytes ptr len (Eager (LambdaSendCompleted id))) →
     list_find (fun op => SendOperation.id op = id) (sendOperations_ s)
     = Some (i, op) →
     ∃ s', step (Complete k error packet) s = Ok s' ∧
           error_ s' = (if decide (error_ s = kSuccess) then error else error_ s) ∧
           called s'
           = called s ++ [SendCallback (SendOperation.callback op) (error_ s')] ∧
           sendOperations_ s' = delete i (sendOperations_ s)) ∧
  (∀ s k ptr len id i op error packet,
     inflight (connection_ s) !! k
     = Some (ReadBytes ptr len (Eager (LambdaRecvCompleted id))) →
     list_find (fun op => RecvOperation.id op = id) (recvOperations_ s)
     = Some (i, op) →
     ∃ s', step (Complete k error packet) s = Ok s' ∧
           error_ s' = (if decide (error_ s = kSuccess) then error else error_ s) ∧
           called s'
           = called s ++ [RecvCallback (RecvOperation.callback op) (error_ s')] ∧
           recvOperations_ s' = delete i (recvOperations_ s)) ∧
  (∀ events s,
     error_ s ≠ kSuccess → no_eager s →
     ∃ s', run events s = Ok s' ∧ error_ s' = error_ s ∧
           omap completion (called s') = omap completion (called s) ∧
           ∀ op, op ∈ sendOperations_ s → op ∈ sendOperations_ s') ∧
  (∀ ptr length descriptorCallback callback error packet events,
     error ≠ kSuccess →
     ∃ s,
       run (CallSend ptr length descriptorCallback callback
              :: Complete 0 error packet :: events) create = Ok s ∧
       error_ s = error ∧
       SendOperation.mk 0 ptr length callback ∈ sendOperations_ s ∧
       omap completion (called s) = []).
Proof.
  split; [|split; [|split; [|split; [|split; [|split]]]]].
  - intros s He. unfold closeFromLoop_. by rewrite He.
  - intros. by eapply step_first_error.
  - intros. by eapply run_sticky.
  - intros. by eapply step_payload_write_completes.
  - intros. by eapply step_payload_read_completes.
  - intros. by apply run_errored_no_eager.
  - intros ptr length descriptorCallback callback error packet events Herr.
    pose proof Herr as Herr'. apply is_error_true in Herr'.
    set (s1 := sendFromLoop_ ptr length descriptorCallback callback create).
    set (s2 := handleError_
                 (set_error error
                    (set_connection (called_back 0 (connection_ s1)) s1))).
    assert (step (Complete 0 error packet) s1 = Ok s2) as Hstep.
    { unfold step, s2. simpl. unfold runIfAlive. simpl.
      unfold LazyCallbackWrapper.entryPointFromLoop_,
        LazyCallbackWrapper.processError_. simpl. by rewrite Herr'. }
    destruct (run_errored_no_eager events s2) as (s & Hrun & He & Hc & Hops).
    { done. }
    { constructor. }
    exists s. split.
    { change (run (CallSend ptr length descriptorCallback callback
                     :: Complete 0 error packet :: events) create)
        with (step (Complete 0 error packet) s1 ≫= run events).
      by rewrite Hstep. }
    split; [done|]. split; [|done].
    apply Hops. simpl. by apply list_elem_of_singleton.
Qed.

(** The exchange without failure, on the sender's side and on the
    receiver's: the peer's request (reply) arrives, the payload write (read)
    completes, and the completion callback is called once, with Success. *)
Example exchange_completes_once :
  (∃ s, run [CallSend 4096 5 1%nat 2%nat; Complete 0 kSuccess (Request 0);
             Complete 1 kSuccess NotSet; Complete 0 kSuccess NotSet] create = Ok s ∧
        called s = [DescriptorCallback 1%nat kSuccess
                      (saveDescriptor {| operation_id := 0 |});
                    SendCallback 2%nat kSuccess] ∧
        sendOperations_ s = []) ∧
  (∃ s, run [CallRecv (saveDescriptor {| operation_id := 0 |}) 8192 5 3%nat;
             Complete 1 kSuccess NotSet; Complete 0 kSuccess (Reply 0);
             Complete 0 kSuccess NotSet] create = Ok s ∧
        called s = [RecvCallback 3%nat kSuccess] ∧
        recvOperations_ s = []).
Proof. split; eexists; (split; [reflexivity|]); done. Qed.

Lemma step_ids_below (ev : Event) (n : Z) (s s' : Impl) :
  n + 1 < two64 → ids_below n s → step ev s = Ok s' → ids_below (n + 1) s'.
Proof.
  intros Hn [Hid Hops] Hstep.
  assert (Forall (fun op => 0 ≤ SendOperation.id op < id_ s + 1) (sendOperations_ s))
    as Hops'.
  { eapply Forall_impl; [exact Hops|]. simpl. lia. }
  destruct ev; unfold_channel;
    repeat (case_match; simpl in *; simplify_eq; try done); simplify_eq;
    unfold ids_below; simpl;
    try (split; [lia|done]);
    try (split; [lia|by apply Forall_delete]).
  unfold to_uint64. rewrite Z.mod_small by lia. split; [lia|].
  apply Forall_app. split; [done|]. repeat constructor; simpl; lia.
Qed.

Lemma run_ids_below (events : list Event) (n : Z) (s s' : Impl) :
  n + Z.of_nat (length events) < two64 → ids_below n s →
  run events s = Ok s' → ids_below (n + Z.of_nat (length events)) s'.
Proof.
  revert n s. induction events as [|ev events IH]; intros n s Hn Hinv; simpl.
  - intros [= <-]. by rewrite Z.add_0_r.
  - destruct (step ev s) as [s1|] eqn:Hstep; [|done]. simpl. intros Hrun.
    simpl in Hn.
    replace (n + Z.of_nat (S (length events)))
      with ((n + 1) + Z.of_nat (length events)) in * by lia.
    apply (IH (n + 1) s1); [lia| |done].
    eapply step_ids_below; [lia|done|done].
Qed.

(** C4.  [send], in whatever state the channel is (its [error_] is not
    looked at): the identifier is the old [id_], and [id_] is incremented
    (modulo 2^64); a [SendOperation] with that identifier is appended; the
    descriptor callback is called, within the same callable, with Success
    and the serialised descriptor holding that identifier; nothing is
    submitted to the connection and nothing else changes.  On a channel that
    has seen fewer than 2^64 events the identifier is fresh: no outstanding
    send operation has it. *)
Theorem send_allocates_id_and_emits_descriptor :
  (∀ ptr length descriptorCallback callback s,
     let s' := sendFromLoop_ ptr length descriptorCallback callback s in
     id_ s' = to_uint64 (id_ s + 1) ∧
     sendOperations_ s' =
       sendOperations_ s ++ [SendOperation.mk (id_ s) ptr length callback] ∧
     called s' =
       called s ++ [DescriptorCallback descriptorCallback kSuccess
                      (saveDescriptor {| operation_id := id_ s |})] ∧
     operation_id (loadDescriptor (saveDescriptor {| operation_id := id_ s |}))
       = id_ s ∧
     connection_ s' = connection_ s ∧
     error_ s' = error_ s ∧
     recvOperations_ s' = recvOperations_ s ∧
     (channel s = true →
      step (CallSend ptr length descriptorCallback callback) s = Ok s')) ∧
  (∀ events s,
     run events create = Ok s → Z.of_nat (length events) < two64 →
     ∀ op, op ∈ sendOperations_ s → SendOperation.id op ≠ id_ s).
Proof.
  split.
  - intros ptr length dcb cb s s'. subst s'. repeat split.
    intros Hch. simpl. by rewrite Hch.
  - intros events s Hrun Hlen op Hop.
    assert (ids_below (0 + Z.of_nat (Datatypes.length events)) s) as [_ Hops].
    { eapply run_ids_below; [lia| |exact Hrun]. split; simpl; [lia|constructor]. }
    pose proof (proj1 (Forall_forall _ _) Hops op Hop) as H. simpl in H. lia.
Qed.

(** C5.  A request (a reply) whose identifier matches no outstanding send
    (recv) operation makes [onRequest_] ([onReply_]) throw its assertion,
    and so does the packet handler; when a matching operation exists the
    handler returns, with the reply packet and then the payload written
    (with the payload read issued), so under the protocol invariant the
    assertion is not reached. *)
Theorem unknown_operation_id_is_fatal :
  (∀ id s,
     (¬ ∃ op, op ∈ sendOperations_ s ∧ SendOperation.id op = id) →
     onRequest_ id s = Throw (AssertionFailed "Expected send operation to exist.") ∧
     onPacket_ (Request id) s
       = Throw (AssertionFailed "Expected send operation to exist.")) ∧
  (∀ id s,
     (¬ ∃ op, op ∈ recvOperations_ s ∧ RecvOperation.id op = id) →
     onReply_ id s = Throw (AssertionFailed "Expected recv operation to exist.") ∧
     onPacket_ (Reply id) s
       = Throw (AssertionFailed "Expected recv operation to exist.")) ∧
  (∀ id s,
     (∃ op, op ∈ sendOperations_ s ∧ SendOperation.id op = id) →
     ∃ op, op ∈ sendOperations_ s ∧ SendOperation.id op = id ∧
       onRequest_ id s =
         Ok (connection_submit
               (WriteBytes (SendOperation.ptr op) (SendOperation.length op)
                  (Eager (LambdaSendCompleted id)))
               (connection_submit (WritePacket (Reply id) (Lazy LambdaNop)) s))) ∧
  (∀ id s,
     (∃ op, op ∈ recvOperations_ s ∧ RecvOperation.id op = id) →
     ∃ op, op ∈ recvOperations_ s ∧ RecvOperation.id op = id ∧
       onReply_ id s =
         Ok (connection_submit
               (ReadBytes (RecvOperation.ptr op) (RecvOperation.length op)
                  (Eager (LambdaRecvCompleted id))) s)).
Proof.
  repeat split.
  - unfold onRequest_.
    destruct (list_find _ _) as [[i op]|] eqn:Hfind; [|done].
    apply list_find_Some in Hfind as (Hop & Hid & _).
    exfalso. apply H. exists op. split; [by eapply list_elem_of_lookup_2|done].
  - unfold onPacket_, onRequest_.
    destruct (list_find _ _) as [[i op]|] eqn:Hfind; [|done].
    apply list_find_Some in Hfind as (Hop & Hid & _).
    exfalso. apply H. exists op. split; [by eapply list_elem_of_lookup_2|done].
  - unfold onReply_.
    destruct (list_find _ _) as [[i op]|] eqn:Hfind; [|done].
    apply list_find_Some in Hfind as (Hop & Hid & _).
    exfalso. apply H. exists op. split; [by eapply list_elem_of_lookup_2|done].
  - unfold onPacket_, onReply_.
    destruct (list_find _ _) as [[i op]|] eqn:Hfind; [|done].
    apply list_find_Some in Hfind as (Hop & Hid & _).
    exfalso. apply H. exists op. split; [by eapply list_elem_of_lookup_2|done].
  - intros id s (op & Hop & Hid). unfold onRequest_.
    destruct (list_find _ _) as [[i op']|] eqn:Hfind.
    + apply list_find_Some in Hfind as (Hop' & Hid' & _).
      exists op'. split; [by eapply list_elem_of_lookup_2|]. done.
    + apply list_find_None in Hfind.
      by destruct (proj1 (Forall_forall _ _) Hfind op Hop).
  - intros id s (op & Hop & Hid). unfold onReply_.
    destruct (list_find _ _) as [[i op']|] eqn:Hfind.
    + apply list_find_Some in Hfind as (Hop' & Hid' & _).
      exists op'. split; [by eapply list_elem_of_lookup_2|]. done.
    + apply list_find_None in Hfind.
      by destruct (proj1 (Forall_forall _ _) Hfind op Hop).
Qed.

Lemma use_count_eager_in_flight (s : Impl) k op :
  inflight (connection_ s) !! k = Some op → is_eager op = true →
  (0 < use_count s)%nat.
Proof.
  intros Hop Heager. unfold use_count.
  rewrite <- (take_drop_middle _ _ _ Hop), filter_app, filter_cons_True by done.
  rewrite length_app. simpl. lia.
Qed.

(** C7.  For any subject: a lazy-wrapped callback that fires while the
    subject is in the error state, or with an error, returns without its
    inner callable (the result is that of [processError_] alone, the same
    for every inner callable), while with Success on a subject in the
    Success state it is the inner callable that runs; an eager-wrapped
    callback always runs its inner callable, after [processError_].  On the
    channel: while an eager callback is in flight the channel has an owner,
    also after the [Channel] was destroyed, and when the transport calls it
    back the wrapped lambda runs, in the error state too; a lazy callback
    called back on a channel without owner, or in the error state, or with
    an error, calls no user callback, touches no operation and submits
    nothing to the connection. *)
Theorem lazy_skips_and_eager_runs_inner_callable :
  (∀ (S : Type) (H : Subject S) (fn : S → Result S) error (subject : S),
     (subject_error subject ≠ kSuccess ∨ error ≠ kSuccess →
      LazyCallbackWrapper.entryPointFromLoop_ fn error subject
        = Ok (snd (LazyCallbackWrapper.processError_ subject error)) ∧
      ∀ fn', LazyCallbackWrapper.entryPointFromLoop_ fn' error subject
             = LazyCallbackWrapper.entryPointFromLoop_ fn error subject) ∧
     (subject_error subject = kSuccess → error = kSuccess →
      LazyCallbackWrapper.entryPointFromLoop_ fn error subject = fn subject) ∧
     EagerCallbackWrapper.entryPointFromLoop_ fn error subject
       = fn (EagerCallbackWrapper.processError_ subject error)) ∧
  (∀ s k op fn error packet,
     inflight (connection_ s) !! k = Some op → op_callback op = Eager fn →
     (0 < use_count s)%nat ∧
     step (Complete k error packet) s
       = apply_lambda fn packet
           (EagerCallbackWrapper.processError_
              (set_connection (called_back k (connection_ s)) s) error)) ∧
  (∀ s k op fn error packet,
     inflight (connection_ s) !! k = Some op → op_callback op = Lazy fn →
     use_count s = 0%nat ∨ error_ s ≠ kSuccess ∨ error ≠ kSuccess →
     ∃ s', step (Complete k error packet) s = Ok s' ∧
           called s' = called s ∧
           sendOperations_ s' = sendOperations_ s ∧
           recvOperations_ s' = recvOperations_ s ∧
           inflight (connection_ s') = delete k (inflight (connection_ s))).
Proof.
  split; [|split].
  - intros S H fn error subject. split; [|split].
    + intros Herr.
      assert (is_error (subject_error subject) || is_error error = true) as Hb.
      { apply orb_true_iff. by rewrite !is_error_true. }
      split; [by apply lazy_entryPoint_suppressed|].
      intros fn'. by rewrite !lazy_entryPoint_suppressed.
    + intros He ->. apply lazy_entryPoint_success. by apply is_error_false.
    + done.
  - intros s k op fn error packet Hop Hcb. split.
    + eapply use_count_eager_in_flight; [exact Hop|]. unfold is_eager. by rewrite Hcb.
    + unfold step. by rewrite Hop, Hcb.
  - intros s k op fn error packet Hop Hcb Hcase.
    unfold step. rewrite Hop, Hcb. simpl. unfold runIfAlive.
    assert (use_count (set_connection (called_back k (connection_ s)) s)
            = use_count s) as Hcount.
    { unfold use_count. simpl. f_equal.
      rewrite <- (take_drop_middle _ _ _ Hop) at 2.
      rewrite filter_app, filter_cons_False, <- filter_app, <- delete_take_drop; [done|].
      unfold is_eager. by rewrite Hcb. }
    rewrite Hcount. case_bool_decide as Halive.
    2:{ eexists. split; [done|]. done. }
    destruct Hcase as [H0|Herr]; [lia|].
    assert (is_error (error_ s) || is_error error = true) as Hb.
    { apply orb_true_iff. by rewrite !is_error_true. }
    unfold run_task. rewrite lazy_entryPoint_suppressed by done.
    eexists. split; [done|].
    unfold LazyCallbackWrapper.processError_. simpl.
    destruct (is_error (error_ s)); simpl; [done|].
    simpl in Hb. rewrite Hb. simpl. done.
Qed.

(** A send whose payload write is in flight when the [Channel] is
    destroyed: the eager callback is the channel's last owner, and when the
    transport calls it back the send's callback is called, with the sticky
    [ChannelClosedError]; then nobody owns the channel. *)
Example eager_callback_outlives_channel :
  let s1 := run [CallSend 4096 5 1%nat 2%nat; Complete 0 kSuccess (Request 0);
                 Destroy] create in
  let s2 := run [CallSend 4096 5 1%nat 2%nat; Complete 0 kSuccess (Request 0);
                 Destroy; Complete 1 ConnectionClosedError NotSet] create in
  (∃ s, s1 = Ok s ∧ channel s = false ∧ use_count s = 1%nat) ∧
  (∃ s, s2 = Ok s ∧ use_count s = 0%nat ∧
        omap completion (called s) = [(2%nat, ChannelClosedError)]).
Proof. split; eexists; (split; [reflexivity|]); done. Qed.

Example first_error_scenario :
  step (Complete 0 kSuccess (Request 0)) sent = Ok requested ∧
  step (Complete 1 ConnectionClosedError NotSet) requested = Ok failed ∧
  error_ failed = ConnectionClosedError ∧
  closed (connection_ failed) = true ∧
  called failed = called requested ++ [SendCallback 2%nat ConnectionClosedError] ∧
  ∃ s2,
    run [CallClose; Complete 0 EOFError NotSet;
         CallRecv (Serialized {| operation_id := 9 |}) 8192 5 3%nat] failed = Ok s2 ∧
    error_ s2 = ConnectionClosedError ∧
    called s2 = called failed.
Proof. repeat (split; [reflexivity|]). eexists. by repeat split. Qed.

Lemma send_allocates_id_and_emits_descriptor_witness :
  run [CallSend 4096 5 1%nat 2%nat; CallClose] create = Ok closed_after_send ∧
  error_ closed_after_send = ChannelClosedError ∧
  id_ closed_after_send = 1 ∧
  (∀ op, op ∈ sendOperations_ closed_after_send →
         SendOperation.id op ≠ id_ closed_after_send) ∧
  step (CallSend 8192 7 3%nat 4%nat) closed_after_send
    = Ok (sendFromLoop_ 8192 7 3%nat 4%nat closed_after_send) ∧
  called (sendFromLoop_ 8192 7 3%nat 4%nat closed_after_send) =
    called closed_after_send
      ++ [DescriptorCallback 3%nat kSuccess (saveDescriptor {| operation_id := 1 |})].
Proof.
  destruct send_allocates_id_and_emits_descriptor as [Hsend Hfresh].
  split; [reflexivity|]. split; [reflexivity|]. split; [reflexivity|].
  split.
  { apply (Hfresh [CallSend 4096 5 1%nat 2%nat; CallClose]); [reflexivity|].
    unfold two64. simpl. lia. }
  destruct (Hsend 8192 7 3%nat 4%nat closed_after_send)
    as (_ & _ & Hcalled & _ & _ & _ & _ & Hstep).
  split; [by apply Hstep|exact Hcalled].
Defined.

Lemma unknown_operation_id_is_fatal_witness :
  onPacket_ (Request 1) sent
    = Throw (AssertionFailed "Expected send operation to exist.") ∧
  onPacket_ (Reply 0) sent
    = Throw (AssertionFailed "Expected recv operation to exist.") ∧
  ∃ op, op ∈ sendOperations_ sent ∧ SendOperation.id op = 0 ∧
        onRequest_ 0 sent =
          Ok (connection_submit
                (WriteBytes (SendOperation.ptr op) (SendOperation.length op)
                   (Eager (LambdaSendCompleted 0)))
                (connection_submit (WritePacket (Reply 0) (Lazy LambdaNop)) sent)).
Proof.
  destruct unknown_operation_id_is_fatal as (Hreq & Hrep & Hsend & _).
  split; [|split].
  - apply Hreq. intros (op & Hop & Hid).
    apply list_elem_of_singleton in Hop as ->. discriminate.
  - apply Hrep. intros (op & Hop & _). by apply elem_of_nil in Hop.
  - apply Hsend. eexists. split; [apply list_elem_of_here|reflexivity].
Defined.

Lemma lazy_skips_and_eager_runs_inner_callable_witness :
  (0 < use_count requested)%nat ∧
  step (Complete 1 ConnectionClosedError NotSet) requested
    = sendCompleted 0
        (EagerCallbackWrapper.processError_
           (set_connection (called_back 1 (connection_ requested)) requested)
           ConnectionClosedError) ∧
  ∃ s', step (Complete 2 ConnectionClosedError (Request 0)) requested = Ok s' ∧
        called s' = called requested ∧
        sendOperations_ s' = sendOperations_ requested ∧
        inflight (connection_ s') = delete 2%nat (inflight (connection_ requested)).
Proof.
  destruct lazy_skips_and_eager_runs_inner_callable as (_ & Heager & Hlazy).
  destruct (Heager requested 1%nat
              (WriteBytes 4096 5 (Eager (LambdaSendCompleted 0)))
              (LambdaSendCompleted 0) ConnectionClosedError NotSet eq_refl eq_refl)
    as [Halive Hstep].
  split; [exact Halive|]. split; [exact Hstep|].
  destruct (Hlazy requested 2%nat (ReadPacket (Lazy LambdaOnPacket)) LambdaOnPacket
              ConnectionClosedError (Request 0) eq_refl eq_refl)
    as (s' & Hs' & Hc & Hso & _ & Hin).
  { right. right. done. }
  exists s'. done.
Defined.

End ChannelFacts.

(** ** The CMA context *)

Section CmaFacts.
Import Cma.

(** C2.  The worker, at a copy request of length [L] for which
    [process_vm_readv] returns [nread] (never below -1): it calls the
    request's callback, once, with [SystemError "cma" errno] when
    [nread = -1], with [ShortReadError L nread] when otherwise [nread < L],
    and with Success when [nread = L]; the three cases exclude each other. *)
Theorem copy_result_classified (s : Impl) (request : CopyRequest)
    (rest : list (option CopyRequest)) (nread errno : Z) :
  exited s = false → requests_ s = Some request :: rest →
  0 ≤ length request < two64 → -1 ≤ nread < 2 ^ 63 →
  let s' := handleCopyRequests_iteration nread errno s in
  ∃ error,
    called s' = called s ++ [(callback request, error)] ∧
    copied s' = copied s ++ [request] ∧
    requests_ s' = rest ∧
    (nread = -1 → error = SystemError "cma" errno) ∧
    (nread ≠ -1 → nread < length request →
     error = ShortReadError (length request) nread) ∧
    (nread = length request → error = kSuccess) ∧
    (error = kSuccess → nread = length request).
Proof.
  intros Hex Hq HL Hn s'. subst s'. unfold handleCopyRequests_iteration.
  rewrite Hex, Hq. simpl. eexists. repeat split.
  - intros ->. unfold copy_error. by rewrite decide_True.
  - intros Hne Hlt. unfold copy_error. rewrite decide_False by done.
    rewrite decide_True; [done|]. unfold to_uint64, two64 in *.
    rewrite Z.mod_small by lia. lia.
  - intros ->. unfold copy_error. rewrite decide_False by lia.
    rewrite decide_False; [done|]. unfold to_uint64, two64 in *.
    rewrite Z.mod_small by lia. lia.
  - unfold copy_error. destruct (decide (nread = -1)); [done|].
    destruct (decide (to_uint64 nread ≠ length request)) as [|Heq]; [done|].
    intros _. apply dec_stable in Heq. unfold to_uint64, two64 in *.
    rewrite <- Heq. rewrite Z.mod_small; [done|]. lia.
Qed.

Lemma copy_result_classified_witness :
  ∃ error,
    called (handleCopyRequests_iteration 3072 0
              (requestCopy {| remotePid := 7; remotePtr := 4096; localPtr := 8192;
                              length := 4096; callback := 1%nat |} initial))
      = [(1%nat, error)] ∧
    error = ShortReadError 4096 3072.
Proof.
  destruct (copy_result_classified
              (requestCopy {| remotePid := 7; remotePtr := 4096; localPtr := 8192;
                              length := 4096; callback := 1%nat |} initial)
              {| remotePid := 7; remotePtr := 4096; localPtr := 8192;
                 length := 4096; callback := 1%nat |} [] 3072 0)
    as (error & Hc & _ & _ & _ & Hshort & _); [reflexivity|reflexivity| | |].
  - unfold two64. simpl. lia.
  - lia.
  - exists error. split; [exact Hc|]. apply Hshort; simpl; lia.
Defined.

Lemma until_tombstone_app_tombstone (q q' : list (option CopyRequest)) :
  None ∈ q → until_tombstone (q ++ q') = until_tombstone q.
Proof.
  induction q as [|[request|] q IH]; simpl; intros Hin.
  - by apply elem_of_nil in Hin.
  - apply elem_of_cons in Hin as [|Hin]; [done|]. by rewrite IH.
  - done.
Qed.

Lemma until_tombstone_snoc (q : list (option CopyRequest)) x :
  ∀ r, r ∈ until_tombstone (q ++ [x]) → r ∈ until_tombstone q ∨ x = Some r.
Proof.
  induction q as [|[request|] q IH]; simpl; intros r Hin.
  - destruct x as [request|]; simpl in Hin.
    + apply list_elem_of_singleton in Hin as ->. by right.
    + by apply elem_of_nil in Hin.
  - apply elem_of_cons in Hin as [->|Hin].
    + left. apply list_elem_of_here.
    + destruct (IH r Hin) as [?|?]; [left|by right]. by apply list_elem_of_further.
  - by apply elem_of_nil in Hin.
Qed.

Lemma tombstoned_step (s : Impl) a :
  (closed_ s = true → tombstoned s) →
  (closed_ (step s a) = true → tombstoned (step s a)) ∧
  (tombstoned s → tombstoned (step s a)).
Proof.
  intros Hinv. unfold tombstoned in *.
  destruct a as [request| | |nread errno]; simpl;
    unfold join, close, requestCopy, push, queue_push,
      handleCopyRequests_iteration, queue_pop; simpl.
  - split; [intros Hc; destruct (Hinv Hc) as [?|?]|intros [?|?]];
      first [by left | right; apply elem_of_app; by left].
  - destruct (closed_ s) eqn:Hc; simpl.
    { split; [intros _; by apply Hinv|done]. }
    split; intros _; right; apply elem_of_app; right; apply list_elem_of_here.
  - destruct (closed_ s) eqn:Hc; simpl.
    + split; [intros _; by apply Hinv|done].
    + split; intros _; right; apply elem_of_app; right; apply list_elem_of_here.
  - destruct (exited s) eqn:Hex.
    { rewrite Hex. split; intros _; by left. }
    destruct (requests_ s) as [|[request|] rest] eqn:Hq; simpl.
    + rewrite Hex, Hq. split; [exact Hinv|done].
    + assert (false = true ∨ None ∈ Some request :: rest → false = true ∨ None ∈ rest)
        as Himp.
      { intros [?|Hin]; [done|]. apply elem_of_cons in Hin as [?|?]; [done|by right]. }
      split; [intros Hc; by apply Himp, Hinv | exact Himp].
    + split; intros _; by left.
Qed.

Lemma untouched_step (c : UserCallback) (s : Impl) a :
  untouched c s →
  tombstoned s ∨ (∀ r, a = RequestCopy r → callback r ≠ c) →
  untouched c (step s a).
Proof.
  intros (Hlive & Hcopied & Hcalled) Hcase. unfold untouched, live, tombstoned in *.
  assert (∀ r : CopyRequest, r ∈ [] → callback r ≠ c) as Hnil.
  { intros r Hr. by apply elem_of_nil in Hr. }
  destruct a as [request| | |nread errno]; simpl;
    unfold join, close, requestCopy, push, queue_push,
      handleCopyRequests_iteration, queue_pop; simpl.
  - split; [|done]. destruct (exited s) eqn:Hex; [done|]. intros r Hr.
    destruct Hcase as [[?|Htomb]|Hne]; [done| |].
    + rewrite until_tombstone_app_tombstone in Hr by done. by apply Hlive.
    + apply until_tombstone_snoc in Hr as [Hr|[= <-]]; [by apply Hlive|by apply Hne].
  - destruct (closed_ s); simpl; [done|]. split; [|done].
    destruct (exited s); [done|]. intros r Hr.
    apply until_tombstone_snoc in Hr as [Hr|?]; [by apply Hlive|done].
  - destruct (closed_ s); simpl; [done|]. split; [|done].
    destruct (exited s); [done|]. intros r Hr.
    apply until_tombstone_snoc in Hr as [Hr|?]; [by apply Hlive|done].
  - destruct (exited s) eqn:Hex; [by rewrite Hex|].
    destruct (requests_ s) as [|[request|] rest] eqn:Hq; simpl.
    + by rewrite Hex, Hq.
    + simpl in Hlive.
      assert (callback request ≠ c) as Hreq by (apply Hlive, list_elem_of_here).
      split; [|split].
      * intros r Hr. by apply Hlive, list_elem_of_further.
      * intros r Hr. apply elem_of_app in Hr as [Hr|Hr]; [by apply Hcopied|].
        by apply list_elem_of_singleton in Hr as ->.
      * intros e He. apply elem_of_app in He as [He|He]; [by apply (Hcalled e)|].
        apply list_elem_of_singleton in He. congruence.
    + done.
Qed.

Lemma closed_tombstoned_run (schedule : list Action) (s : Impl) :
  (closed_ s = true → tombstoned s) →
  (closed_ (run s schedule) = true → tombstoned (run s schedule)).
Proof.
  revert s. induction schedule as [|a schedule IH]; intros s Hinv; [done|].
  simpl. apply IH. by apply tombstoned_step.
Qed.

Lemma untouched_run_before (c : UserCallback) (schedule : list Action) (s : Impl) :
  untouched c s →
  (∀ r, RequestCopy r ∈ schedule → callback r ≠ c) →
  untouched c (run s schedule).
Proof.
  revert s. induction schedule as [|a schedule IH]; intros s Hun Hne; [done|].
  simpl. apply IH.
  - apply untouched_step; [done|]. right. intros r ->. apply Hne, list_elem_of_here.
  - intros r Hr. by apply Hne, list_elem_of_further.
Qed.

Lemma untouched_run_after (c : UserCallback) (schedule : list Action) (s : Impl) :
  (closed_ s = true → tombstoned s) → tombstoned s →
  untouched c s → untouched c (run s schedule).
Proof.
  revert s. induction schedule as [|a schedule IH]; intros s Hinv Htomb Hun; [done|].
  simpl. destruct (tombstoned_step s a Hinv) as [Hinv' Htomb'].
  apply IH; [done|by apply Htomb'|]. apply untouched_step; [done|by left].
Qed.

Lemma closed_after_close (s : Impl) : closed_ (close s) = true.
Proof. unfold close. by destruct (closed_ s) eqn:E. Qed.

Lemma closed_step (s : Impl) a : closed_ s = true → closed_ (step s a) = true.
Proof.
  intros Hc. destruct a; simpl; unfold join, close, handleCopyRequests_iteration;
    rewrite ?Hc; try done.
  destruct (exited s); [done|]. by destruct (requests_ s) as [|[?|] ?].
Qed.

Lemma closed_run (schedule : list Action) (s : Impl) :
  closed_ s = true → closed_ (run s schedule) = true.
Proof.
  revert s. induction schedule as [|a schedule IH]; intros s Hc; [done|].
  simpl. by apply IH, closed_step.
Qed.

(** C10.  In any history of a CMA context: a request whose callback was
    not used by the requests made [before] the first [close()], and that is
    made at any time after that [close()], is appended to the queue while
    the tombstone is in the queue already or the worker has met it and
    returned; whatever happens [after], the worker never hands the request
    to [process_vm_readv] and its callback is never called, with no error
    either. *)
Theorem requestCopy_after_close_is_dropped
    (before between after : list Action) (request : CopyRequest) :
  (∀ r, RequestCopy r ∈ before → callback r ≠ callback request) →
  let s1 := run initial (before ++ Close :: between) in
  let s2 := requestCopy request s1 in
  let s3 := run s2 after in
  closed_ s1 = true ∧
  requests_ s2 = requests_ s1 ++ [Some request] ∧
  (exited s1 = true ∨ None ∈ requests_ s1) ∧
  (request ∉ live s3) ∧
  (request ∉ copied s3) ∧
  (∀ error, (callback request, error) ∉ called s3).
Proof.
  intros Hfresh s1 s2 s3.
  set (s0 := run initial before).
  assert (closed_ s0 = true → tombstoned s0) as Hinv0.
  { apply closed_tombstoned_run. done. }
  assert (untouched (callback request) s0) as Hun0.
  { apply untouched_run_before; [|done]. repeat split; intros ? H; by apply elem_of_nil in H. }
  assert (s1 = run (close s0) between) as Hs1.
  { subst s1 s0. unfold run. by rewrite fold_left_app. }
  destruct (tombstoned_step s0 Close Hinv0) as [Hinvc _]. simpl in Hinvc.
  assert (tombstoned (close s0)) as Htombc by apply Hinvc, closed_after_close.
  assert (untouched (callback request) (close s0)) as Hunc.
  { apply (untouched_step _ s0 Close); [done|]. by right. }
  assert (closed_ s1 = true) as Hc1.
  { rewrite Hs1. apply closed_run, closed_after_close. }
  assert (closed_ s1 = true → tombstoned s1) as Hinv1.
  { rewrite Hs1. by apply closed_tombstoned_run. }
  assert (untouched (callback request) s1) as Hun1.
  { rewrite Hs1. by apply untouched_run_after. }
  destruct (tombstoned_step s1 (RequestCopy request) Hinv1) as [Hinv2 Htomb2].
  assert (untouched (callback request) s3) as (Hlive & Hcopied & Hcalled).
  { apply untouched_run_after; [done|by apply Htomb2, Hinv1|].
    apply (untouched_step _ s1 (RequestCopy request)); [done|]. left. by apply Hinv1. }
  split; [done|]. split; [done|]. split; [by apply Hinv1|].
  split; [intros H; by apply (Hlive _ H)|].
  split; [intros H; by apply (Hcopied _ H)|done].
Qed.

Lemma requestCopy_after_close_is_dropped_witness :
  let first := {| remotePid := 7; remotePtr := 4096; localPtr := 8192;
                  length := 16; callback := 1%nat |} in
  let late := {| remotePid := 7; remotePtr := 4096; localPtr := 8192;
                 length := 16; callback := 2%nat |} in
  let s := run initial [RequestCopy first; Close; RequestCopy late;
                        Worker 16 0; Worker 16 0; Worker 16 0; Join] in
  called s = [(1%nat, kSuccess)] ∧ exited s = true ∧
  requests_ s = [Some late] ∧
  ∀ error, (2%nat, error) ∉ called s.
Proof.
  intros first late s.
  split; [reflexivity|]. split; [reflexivity|]. split; [reflexivity|].
  apply (requestCopy_after_close_is_dropped [RequestCopy first] [] 
           [Worker 16 0; Worker 16 0; Worker 16 0; Join] late).
  intros r Hr. apply list_elem_of_singleton in Hr. injection Hr as Hr'.
  rewrite Hr'. intros Heq. cbv in Heq. discriminate.
Defined.

End CmaFacts.

(** ** The SHM loop *)

Section ShmLoopFacts.
Import ShmLoop.

Lemma initialised_cons (weak : WeakHandler) (l : list WeakHandler) :
  initialised (weak :: l)
  = ((if is_uninitialized weak then 0 else 1) + initialised l)%nat.
Proof. unfold initialised. rewrite filter_cons. by destruct weak. Qed.

Lemma initialised_app (l1 l2 : list WeakHandler) :
  initialised (l1 ++ l2) = (initialised l1 + initialised l2)%nat.
Proof. unfold initialised. by rewrite filter_app, length_app. Qed.

Lemma initialised_replicate (n : nat) : initialised (replicate n Uninitialized) = 0%nat.
Proof.
  induction n as [|n IH]; [done|]. simpl. by rewrite initialised_cons, IH.
Qed.

Lemma initialised_insert (l : list WeakHandler) (i : nat) (old new : WeakHandler) :
  l !! i = Some old →
  (initialised (<[i := new]> l) + (if is_uninitialized old then 0 else 1)
   = initialised l + (if is_uninitialized new then 0 else 1))%nat.
Proof.
  revert i. induction l as [|weak l IH]; intros i Hi; [done|].
  destruct i as [|i]; simpl in *.
  - injection Hi as ->. rewrite !initialised_cons. lia.
  - rewrite !initialised_cons. specialize (IH i Hi). lia.
Qed.

Lemma initialised_lookup (l : list WeakHandler) (i h : nat) :
  l !! i = Some (Weak h) → (1 ≤ initialised l)%nat.
Proof.
  intros Hi. pose proof (initialised_insert l i (Weak h) Uninitialized Hi).
  simpl in *. lia.
Qed.

Lemma initialised_two (l : list WeakHandler) (i j h h' : nat) :
  i ≠ j → l !! i = Some (Weak h) → l !! j = Some (Weak h') →
  (2 ≤ initialised l)%nat.
Proof.
  intros Hne Hi Hj.
  pose proof (initialised_insert l i (Weak h) Uninitialized Hi) as Hins.
  assert (<[i := Uninitialized]> l !! j = Some (Weak h')) as Hj'
    by by rewrite list_lookup_insert_ne.
  apply initialised_lookup in Hj'. simpl in *. lia.
Qed.

Lemma initialised_none (l : list WeakHandler) (i h : nat) :
  initialised l = 0%nat → l !! i ≠ Some (Weak h).
Proof. intros H0 Hi. apply initialised_lookup in Hi. lia. Qed.

Lemma initialised_grown (fd : nat) (s : Loop) :
  initialised (grown fd s) = initialised (handlers_ s).
Proof.
  unfold grown. case_decide as Hlen; [|done].
  rewrite resize_ge by lia. rewrite initialised_app, initialised_replicate. lia.
Qed.

Lemma grown_lookup (fd : nat) (s : Loop) :
  ∃ weak, grown fd s !! fd = Some weak ∧
          (is_uninitialized weak = false ↔ ∃ h, handlers_ s !! fd = Some (Weak h)).
Proof.
  unfold grown. case_decide as Hlen.
  - exists Uninitialized. split; [apply lookup_resize_new; lia|].
    split; [done|]. intros [h Hh]. apply lookup_lt_Some in Hh. lia.
  - destruct (handlers_ s !! fd) as [weak|] eqn:Hw.
    + exists weak. split; [done|]. destruct weak; simpl; split; try done.
      * by intros [? ?].
      * eauto.
    + apply lookup_ge_None in Hw. lia.
Qed.

Lemma grown_lookup_weak (fd fd' : nat) (s : Loop) h :
  grown fd s !! fd' = Some (Weak h) ↔ handlers_ s !! fd' = Some (Weak h).
Proof.
  unfold grown. case_decide as Hlen; [|done].
  destruct (decide (fd' < length (handlers_ s))%nat).
  - rewrite lookup_resize by lia. done.
  - split.
    + intros Hw. destruct (decide (fd' < fd + 1)%nat).
      * rewrite lookup_resize_new in Hw by lia. done.
      * rewrite lookup_resize_old in Hw by lia. done.
    + intros Hw. apply lookup_lt_Some in Hw. lia.
Qed.

(** [registerDescriptor], case by case: the handler table is updated
    whatever the kernel answers. *)
Lemma registerDescriptor_eq (fd : nat) (events : Z) (h : nat) (s : Loop) :
  ∃ weak,
    grown fd s !! fd = Some weak ∧
    registerDescriptor fd events h s =
      match files s fd with
      | NotOpen =>
          Throws (SystemException EBADF)
            (set_handlers (<[fd := Weak h]> (grown fd s))
               (if is_uninitialized weak then handlerCount_ s + 1
                else handlerCount_ s) s)
      | NoEpoll =>
          Throws (SystemException EPERM)
            (set_handlers (<[fd := Weak h]> (grown fd s))
               (if is_uninitialized weak then handlerCount_ s + 1
                else handlerCount_ s) s)
      | Pollable =>
          Returns
            (set_interest (<[fd := events]> (interest s))
               (set_handlers (<[fd := Weak h]> (grown fd s))
                  (if is_uninitialized weak then handlerCount_ s + 1
                   else handlerCount_ s) s))
      end.
Proof.
  destruct (grown_lookup fd s) as (weak & Hw & _). exists weak. split; [done|].
  unfold registerDescriptor. fold (grown fd s). rewrite Hw.
  unfold epoll_ctl. simpl. destruct (files s fd); simpl; [done..|].
  destruct (interest s !! fd) as [old|] eqn:Hfd; simpl; [|done].
  by rewrite Hfd.
Qed.

(** [unregisterDescriptor], case by case: a call that the kernel refuses
    leaves the loop as it is. *)
Lemma unregisterDescriptor_eq (fd : nat) (s : Loop) :
  unregisterDescriptor fd s =
    match files s fd with
    | NotOpen => Throws (SystemException EBADF) s
    | NoEpoll => Throws (SystemException EPERM) s
    | Pollable =>
        match interest s !! fd with
        | None => Throws (SystemException ENOENT) s
        | Some _ =>
            match handlers_ s !! fd with
            | None => Throws OutOfRange (set_interest (delete fd (interest s)) s)
            | Some weak =>
                let count :=
                  if is_uninitialized weak then handlerCount_ s
                  else handlerCount_ s - 1 in
                let s1 :=
                  set_handlers (<[fd := Uninitialized]> (handlers_ s)) count
                    (set_interest (delete fd (interest s)) s) in
                Returns (if decide (count = 1) then wakeup s1 else s1)
            end
        end
    end.
Proof.
  unfold unregisterDescriptor, epoll_ctl.
  destruct (files s fd); simpl; [done..|].
  destruct (interest s !! fd) as [old|]; simpl; [|done].
  destruct (handlers_ s !! fd) as [[|h]|]; simpl; done.
Qed.

Lemma Consistent_initial kinds eventFd : Consistent (initial kinds eventFd).
Proof.
  split; simpl; [| |done..]; intros fd Hfd; rewrite lookup_empty in Hfd;
    by destruct Hfd.
Qed.

Lemma Consistent_ext (s s' : Loop) :
  files s' = files s → interest s' = interest s → handlers_ s' = handlers_ s →
  handlerCount_ s' = handlerCount_ s → 0 ≤ counter s' →
  Consistent s → Consistent s'.
Proof.
  intros Hf Hi Hh Hc Hk [Hs Hp Hn Hz].
  split; [by rewrite Hi, Hh|by rewrite Hi, Hf|by rewrite Hc, Hh|done].
Qed.

Lemma registerDescriptor_Consistent (fd : nat) (events : Z) (h : nat) (s : Loop) :
  Consistent s → Consistent (state_of (registerDescriptor fd events h s)).
Proof.
  intros [Hs Hp Hn Hz].
  destruct (registerDescriptor_eq fd events h s) as (weak & Hw & ->).
  assert (fd < length (grown fd s))%nat as Hlen by by eapply lookup_lt_Some.
  assert (∀ fd', is_Some (interest s !! fd') →
                 ∃ h', <[fd := Weak h]> (grown fd s) !! fd' = Some (Weak h'))
    as Hslots.
  { intros fd' Hfd'. destruct (decide (fd' = fd)) as [->|Hne].
    - rewrite list_lookup_insert_eq by done. eauto.
    - rewrite list_lookup_insert_ne by done.
      destruct (Hs fd' Hfd') as [h' Hh']. exists h'. by apply grown_lookup_weak. }
  assert ((if is_uninitialized weak then handlerCount_ s + 1 else handlerCount_ s)
          = Z.of_nat (initialised (<[fd := Weak h]> (grown fd s)))) as Hcount.
  { pose proof (initialised_insert (grown fd s) fd weak (Weak h) Hw) as Hins.
    rewrite initialised_grown in Hins. simpl in Hins.
    destruct (is_uninitialized weak); lia. }
  destruct (files s fd) eqn:Hkind; simpl; (split; simpl; [|try done..]).
  - done.
  - done.
  - intros fd' Hfd'. destruct (decide (fd' = fd)) as [->|Hne].
    + rewrite list_lookup_insert_eq by done. eauto.
    + rewrite lookup_insert_ne in Hfd' by done. by apply Hslots.
  - intros fd' Hfd'. destruct (decide (fd' = fd)) as [->|Hne]; [done|].
    rewrite lookup_insert_ne in Hfd' by done. by apply Hp.
Qed.

Lemma unregisterDescriptor_Consistent (fd : nat) (s : Loop) :
  Consistent s → Consistent (state_of (unregisterDescriptor fd s)).
Proof.
  intros Hcons. pose proof Hcons as [Hs Hp Hn Hz].
  rewrite unregisterDescriptor_eq.
  destruct (files s fd) eqn:Hkind; simpl; [done..|].
  destruct (interest s !! fd) as [old|] eqn:Hfd; simpl; [|done].
  destruct (Hs fd) as [h Hh]; [by rewrite Hfd|]. rewrite Hh. simpl.
  assert (Consistent
            (set_handlers (<[fd := Uninitialized]> (handlers_ s)) (handlerCount_ s - 1)
               (set_interest (delete fd (interest s)) s))) as Hcons1.
  { split; simpl.
    - intros fd' Hfd'. destruct (decide (fd' = fd)) as [->|Hne].
      + rewrite lookup_delete_eq in Hfd'. by destruct Hfd'.
      + rewrite lookup_delete_ne in Hfd' by done.
        rewrite list_lookup_insert_ne by done. by apply Hs.
    - intros fd' Hfd'. destruct (decide (fd' = fd)) as [->|Hne]; [done|].
      rewrite lookup_delete_ne in Hfd' by done. by apply Hp.
    - pose proof (initialised_insert (handlers_ s) fd (Weak h) Uninitialized Hh).
      simpl in *. lia.
    - done. }
  case_decide; [|done]. eapply Consistent_ext; [..|exact Hcons1]; simpl; try done. lia.
Qed.

Lemma registerDescriptor_frame (fd : nat) (events : Z) (h : nat) (s : Loop) :
  let s' := state_of (registerDescriptor fd events h s) in
  files s' = files s ∧ eventFd_ s' = eventFd_ s ∧ counter s' = counter s ∧
  closed_ s' = closed_ s ∧ joined_ s' = joined_ s ∧
  epollEvents_ s' = epollEvents_ s ∧ thread s' = thread s ∧
  dispatched s' = dispatched s.
Proof.
  destruct (registerDescriptor_eq fd events h s) as (weak & Hw & ->).
  by destruct (files s fd).
Qed.

Lemma unregisterDescriptor_frame (fd : nat) (s : Loop) :
  let s' := state_of (unregisterDescriptor fd s) in
  files s' = files s ∧ eventFd_ s' = eventFd_ s ∧
  closed_ s' = closed_ s ∧ joined_ s' = joined_ s ∧
  epollEvents_ s' = epollEvents_ s ∧ thread s' = thread s ∧
  dispatched s' = dispatched s.
Proof.
  rewrite unregisterDescriptor_eq.
  destruct (files s fd); simpl; [done..|].
  destruct (interest s !! fd); simpl; [|done].
  destruct (handlers_ s !! fd); simpl; [|done].
  by case_decide.
Qed.

Lemma handle_events_frame (events : list (nat * Z)) (s : Loop) :
  let s' := state_of (handle_events events s) in
  files s' = files s ∧ interest s' = interest s ∧ eventFd_ s' = eventFd_ s ∧
  handlers_ s' = handlers_ s ∧ handlerCount_ s' = handlerCount_ s ∧
  closed_ s' = closed_ s ∧ joined_ s' = joined_ s ∧
  epollEvents_ s' = epollEvents_ s ∧ thread s' = thread s ∧
  (0 ≤ counter s → 0 ≤ counter s').
Proof.
  revert s. induction events as [|[fd ev] events IH]; intros s; [done|]. simpl.
  destruct (handlers_ s !! fd) as [[|h]|]; [apply IH| |apply IH].
  unfold handleEventsFromLoop. simpl. repeat case_decide; simpl; [done|..].
  - destruct (IH (set_counter 0 (set_dispatched (dispatched s ++ [(h, ev)]) s)))
      as (? & ? & ? & ? & ? & ? & ? & ? & ? & Hk).
    repeat split; try done. intros _. by apply Hk.
  - destruct (IH (set_dispatched (dispatched s ++ [(h, ev)]) s))
      as (? & ? & ? & ? & ? & ? & ? & ? & ? & Hk).
    repeat split; done.
Qed.

Lemma handleEpollEventsFromLoop_frame (s : Loop) :
  let s' := state_of (handleEpollEventsFromLoop s) in
  files s' = files s ∧ interest s' = interest s ∧ eventFd_ s' = eventFd_ s ∧
  handlers_ s' = handlers_ s ∧ handlerCount_ s' = handlerCount_ s ∧
  closed_ s' = closed_ s ∧ joined_ s' = joined_ s ∧ thread s' = thread s ∧
  (0 ≤ counter s → 0 ≤ counter s').
Proof.
  pose proof (handle_events_frame (epollEvents_ s) s) as Hframe.
  unfold handleEpollEventsFromLoop.
  destruct (handle_events (epollEvents_ s) s) as [s1|e s1]; simpl in *;
    destruct Hframe as (? & ? & ? & ? & ? & ? & ? & ? & ? & ?); done.
Qed.

(** The run of the reactor when the wakeup handler sits in the slot of the
    eventfd and in no other, and the events are for different descriptors:
    every event with a handler in its slot is dispatched, in order, and
    the wakeup is read if an event of the eventfd is among them. *)
Lemma handle_events_returns (events : list (nat * Z)) (s : Loop) :
  NoDup events.*1 →
  handlers_ s !! eventFd_ s = Some (Weak 0) →
  (∀ fd, handlers_ s !! fd = Some (Weak 0) → fd = eventFd_ s) →
  (existsb (wakes s) events = true → counter s ≠ 0) →
  handle_events events s
  = Returns (set_counter (if existsb (wakes s) events then 0 else counter s)
               (set_dispatched (dispatched s ++ omap (dispatch s) events) s)).
Proof.
  revert s. induction events as [|[fd ev] events IH]; intros s Hnd Hslot Hpriv Hk.
  { simpl. rewrite app_nil_r. by destruct s. }
  apply NoDup_cons in Hnd as [Hfd Hnd]. simpl in Hfd.
  assert (eventFd_ s ∈ events.*1 ∨ existsb (wakes s) events = false) as Hrest.
  { destruct (existsb (wakes s) events) eqn:Hex; [left|by right].
    apply existsb_exists in Hex as ([fd' ev'] & Hin & Hw).
    unfold wakes in Hw. apply andb_true_iff in Hw as [Hw _].
    apply bool_decide_eq_true in Hw. simpl in Hw. subst fd'.
    apply list_elem_of_fmap. exists (eventFd_ s, ev'). split; [done|].
    by apply list_elem_of_In. }
  simpl. unfold dispatch at 1. simpl.
  destruct (handlers_ s !! fd) as [[|h]|] eqn:Hh.
  - assert (fd ≠ eventFd_ s) as Hne by congruence.
    rewrite IH; try done.
    + unfold wakes at 2. simpl. by rewrite bool_decide_eq_false_2.
    + intros Hex. apply Hk. simpl. by rewrite Hex, orb_true_r.
  - unfold handleEventsFromLoop. simpl. case_decide as Hread.
    + destruct Hread as [-> Hbit]. assert (fd = eventFd_ s) as -> by by apply Hpriv.
      assert (wakes s (eventFd_ s, ev) = true) as Hw.
      { unfold wakes. simpl. rewrite bool_decide_eq_true_2 by done. simpl.
        apply negb_true_iff, Z.eqb_neq. done. }
      destruct Hrest as [Hin|Hex]; [done|].
      rewrite decide_False by (apply Hk; simpl; by rewrite Hw).
      rewrite IH; try done.
      * simpl. rewrite Hw. simpl.
        change (existsb (wakes (set_counter 0
                  (set_dispatched (dispatched s ++ [(0%nat, ev)]) s))) events)
          with (existsb (wakes s) events).
        rewrite Hex. simpl. rewrite <- app_assoc. done.
      * change (existsb (wakes (set_counter 0
                  (set_dispatched (dispatched s ++ [(0%nat, ev)]) s))) events)
          with (existsb (wakes s) events).
        by rewrite Hex.
    + assert (wakes s (fd, ev) = false) as Hw.
      { unfold wakes. simpl. destruct (decide (fd = eventFd_ s)) as [->|Hne].
        - rewrite bool_decide_eq_true_2 by done. simpl.
          apply negb_false_iff, Z.eqb_eq.
          destruct (decide (Z.land ev EPOLLIN = 0)) as [|Hbit]; [done|].
          destruct Hread. split; [congruence|done].
        - by rewrite bool_decide_eq_false_2. }
      rewrite IH; try done.
      * simpl. rewrite Hw. simpl.
        change (existsb (wakes (set_dispatched (dispatched s ++ [(h, ev)]) s)) events)
          with (existsb (wakes s) events).
        rewrite <- app_assoc. done.
      * change (existsb (wakes (set_dispatched (dispatched s ++ [(h, ev)]) s)) events)
          with (existsb (wakes s) events).
        intros Hex. apply Hk. simpl. by rewrite Hex, orb_true_r.
  - assert (fd ≠ eventFd_ s) as Hne by congruence.
    rewrite IH; try done.
    + unfold wakes at 2. simpl. by rewrite bool_decide_eq_false_2.
    + intros Hex. apply Hk. simpl. by rewrite Hex, orb_true_r.
Qed.
Lemma cancel_wakeupHandler (s : Loop) :
  cancel (wakeupHandler s, s)
  = match unregisterDescriptor (eventFd_ s) s with
    | Returns s1 =>
        Returns ({| handler := 0; fd_ := eventFd_ s; event_ := EPOLLIN;
                    cancelled_ := true |}, s1)
    | Throws e s1 => Throws e (wakeupHandler s, s1)
    end.
Proof. done. Qed.

(** The step of the thread at a false condition of [while]: the loop is
    left as the [unregisterDescriptor] of the wakeup handler leaves it. *)
Lemma loop_leaves (result : EpollWait) (s : Loop) :
  thread s = AtWhile → loop_condition s = false →
  ∃ t, inside t = false ∧
       loop result s = set_thread t (state_of (unregisterDescriptor (eventFd_ s) s)) ∧
       (t = Returned ↔ ∃ s1, unregisterDescriptor (eventFd_ s) s = Returns s1).
Proof.
  intros Ht Hcond. unfold loop. rewrite Ht, Hcond, cancel_wakeupHandler.
  destruct (unregisterDescriptor (eventFd_ s) s) as [s1|e s1]; simpl.
  - exists Returned. split; [done|]. split; [done|]. split; eauto.
  - exists (thrown e). split; [by destruct e|]. split; [done|].
    split; [by destruct e|]. by intros [? ?].
Qed.

Lemma loop_starts (result : EpollWait) (s : Loop) :
  thread s = Starting → files s (eventFd_ s) = Pollable →
  loop result s
  = set_thread AtWhile (state_of (registerDescriptor (eventFd_ s) EPOLLIN 0 s)) ∧
  interest (loop result s) !! eventFd_ s = Some EPOLLIN ∧
  (∃ weak, grown (eventFd_ s) s !! eventFd_ s = Some weak ∧
           handlers_ (loop result s) = <[eventFd_ s := Weak 0]> (grown (eventFd_ s) s)).
Proof.
  intros Ht Hkind. unfold loop, start, wakeupHandler. rewrite Ht. simpl.
  destruct (registerDescriptor_eq (eventFd_ s) EPOLLIN 0 s) as (weak & Hw & ->).
  rewrite Hkind. simpl. split; [done|]. split; [by rewrite lookup_insert_eq|].
  by exists weak.
Qed.

Lemma Consistent_set_thread (t : LoopThread) (s : Loop) :
  Consistent s → Consistent (set_thread t s).
Proof. intros Hcons. eapply Consistent_ext; [..|exact Hcons]; try done. apply Hcons. Qed.

Lemma Consistent_loop (s : Loop) result : Consistent s → Consistent (loop result s).
Proof.
  intros Hcons. pose proof (cons_counter _ Hcons) as Hz.
  unfold loop. destruct (thread s) eqn:Ht.
  - unfold start, wakeupHandler. simpl.
    pose proof (registerDescriptor_Consistent (eventFd_ s) EPOLLIN 0 s Hcons) as H1.
    destruct (registerDescriptor _ _ _ s); by apply Consistent_set_thread.
  - destruct (loop_condition s).
    + by eapply Consistent_ext; [..|exact Hcons].
    + rewrite cancel_wakeupHandler.
      pose proof (unregisterDescriptor_Consistent (eventFd_ s) s Hcons) as H1.
      destruct (unregisterDescriptor _ s); by apply Consistent_set_thread.
  - destruct (epoll_wait _ _ _); [|done].
    destruct result as [errno|events]; [case_decide|];
      by eapply Consistent_ext; [..|exact Hcons].
  - destruct (epollEvents_ s); [by apply Consistent_set_thread|done].
  - done.
  - done.
Qed.

Lemma Consistent_step (s : Loop) a : Consistent s → Consistent (step s a).
Proof.
  intros Hcons. pose proof (cons_counter _ Hcons) as Hz.
  destruct a as [fd events h|fd| | |result|]; simpl.
  - by apply registerDescriptor_Consistent.
  - by apply unregisterDescriptor_Consistent.
  - unfold close. destruct (closed_ s); [done|].
    eapply Consistent_ext; [..|exact Hcons]; simpl; try done. lia.
  - unfold join, close. destruct (closed_ s);
      (eapply Consistent_ext; [..|exact Hcons]; simpl; try done). lia.
  - by apply Consistent_loop.
  - destruct (thread s); try done.
    destruct (handleEpollEventsFromLoop_frame s) as (? & ? & ? & ? & ? & ? & ? & ? & Hk).
    eapply Consistent_ext; [..|exact Hcons]; try done. by apply Hk.
Qed.

Lemma Consistent_run (schedule : list Action) (s : Loop) :
  Consistent s → Consistent (run s schedule).
Proof.
  revert s. induction schedule as [|a schedule IH]; intros s Hcons; [done|].
  simpl. by apply IH, Consistent_step.
Qed.

Lemma Running_initial kinds eventFd : Running eventFd (initial kinds eventFd).
Proof.
  split; [done| |apply Consistent_initial|done].
  simpl. apply fn_lookup_insert.
Qed.

Lemma Running_ext eventFd (s s' : Loop) :
  files s' = files s → interest s' = interest s → eventFd_ s' = eventFd_ s →
  (inside (thread s') = true → inside (thread s) = true) →
  Consistent s' → Running eventFd s → Running eventFd s'.
Proof.
  intros Hf Hi He Ht Hcons [H1 H2 H3 H4]. split.
  - congruence.
  - by rewrite Hf.
  - done.
  - rewrite Hi. intros Hin. by apply H4, Ht.
Qed.

Lemma Running_loop eventFd (s : Loop) result :
  Running eventFd s → Running eventFd (loop result s).
Proof.
  intros Hrun. pose proof Hrun as [He Hkind Hcons Hwake].
  pose proof (Consistent_loop s result Hcons) as Hcons'.
  destruct (thread s) eqn:Ht.
  - assert (files s (eventFd_ s) = Pollable) as Hkind' by by rewrite He.
    destruct (loop_starts result s Ht Hkind') as (Hloop & Hi & _).
    destruct (registerDescriptor_frame (eventFd_ s) EPOLLIN 0 s) as (Hf & He' & _).
    split; [| |done|].
    + rewrite Hloop. simpl. congruence.
    + rewrite Hloop. simpl. by rewrite Hf.
    + intros _. rewrite <- He. done.
  - destruct (loop_condition s) eqn:Hcond.
    + revert Hcons'. unfold loop. rewrite Ht, Hcond. intros Hcons'.
      eapply Running_ext; [..|exact Hrun]; simpl; try done. by rewrite Ht.
    + destruct (loop_leaves result s Ht Hcond) as (t & Hout & Hloop & _).
      destruct (unregisterDescriptor_frame (eventFd_ s) s) as (Hf & He' & _).
      split; [| |done|].
      * rewrite Hloop. simpl. congruence.
      * rewrite Hloop. simpl. by rewrite Hf.
      * rewrite Hloop. simpl. by rewrite Hout.
  - revert Hcons'. unfold loop. rewrite Ht. destruct (epoll_wait _ _ _); [|done].
    destruct result as [errno|events]; [case_decide|]; intros Hcons';
      (eapply Running_ext; [..|exact Hrun]; simpl; try done); by rewrite Ht.
  - revert Hcons'. unfold loop. rewrite Ht. destruct (epollEvents_ s); [|done].
    intros Hcons'. eapply Running_ext; [..|exact Hrun]; simpl; try done. by rewrite Ht.
  - unfold loop. by rewrite Ht.
  - unfold loop. by rewrite Ht.
Qed.

Lemma Running_step eventFd (s : Loop) a :
  a ≠ Unregister eventFd → Running eventFd s → Running eventFd (step s a).
Proof.
  intros Hne Hrun. pose proof Hrun as [He Hkind Hcons Hwake].
  pose proof (Consistent_step s a Hcons) as Hcons'.
  destruct a as [fd events h|fd| | |result|]; simpl in *.
  - destruct (registerDescriptor_frame fd events h s) as (Hf & He' & _ & _ & _ & _ & Ht & _).
    split; [congruence|by rewrite Hf|done|]. rewrite Ht. intros Hin.
    specialize (Hwake Hin). revert Hwake.
    destruct (registerDescriptor_eq fd events h s) as (weak & Hw & ->).
    destruct (files s fd); simpl; try done.
    intros Hwake. apply lookup_insert_is_Some'. by right.
  - destruct (unregisterDescriptor_frame fd s) as (Hf & He' & _ & _ & _ & Ht & _).
    split; [congruence|by rewrite Hf|done|]. rewrite Ht. intros Hin.
    specialize (Hwake Hin). revert Hwake. rewrite unregisterDescriptor_eq.
    destruct (files s fd); simpl; try done.
    destruct (interest s !! fd); simpl; try done.
    assert (eventFd ≠ fd) by congruence.
    destruct (handlers_ s !! fd); simpl; [case_decide|]; simpl;
      by rewrite lookup_delete_ne.
  - revert Hcons'. unfold close. destruct (closed_ s); [done|]. intros Hcons'.
    by eapply Running_ext; [..|exact Hrun].
  - revert Hcons'. unfold join, close. destruct (closed_ s); intros Hcons';
      by eapply Running_ext; [..|exact Hrun].
  - by apply Running_loop.
  - destruct (thread s) eqn:Ht; try done.
    destruct (handleEpollEventsFromLoop_frame s) as (? & ? & ? & ? & ? & ? & ? & Ht' & Hk).
    eapply Running_ext; [..|exact Hrun]; try done. by rewrite Ht', Ht.
Qed.

Lemma Running_run eventFd (schedule : list Action) (s : Loop) :
  Forall (fun a => a ≠ Unregister eventFd) schedule →
  Running eventFd s → Running eventFd (run s schedule).
Proof.
  revert s. induction schedule as [|a schedule IH]; intros s Hall Hrun; [done|].
  apply Forall_cons in Hall as [Ha Hall]. simpl. apply IH; [done|].
  by apply Running_step.
Qed.

Lemma Running_count eventFd (s : Loop) :
  Running eventFd s → inside (thread s) = true → 1 ≤ handlerCount_ s.
Proof.
  intros [He Hkind Hcons Hwake] Ht. rewrite (cons_count _ Hcons).
  destruct (cons_slots _ Hcons _ (Hwake Ht)) as [h Hh].
  apply initialised_lookup in Hh. lia.
Qed.
Lemma unregisterDescriptor_handlers (fd fd' : nat) (h : nat) (s : Loop) :
  handlers_ (state_of (unregisterDescriptor fd s)) !! fd' = Some (Weak h) →
  handlers_ s !! fd' = Some (Weak h).
Proof.
  rewrite unregisterDescriptor_eq.
  destruct (files s fd); simpl; [done..|].
  destruct (interest s !! fd); simpl; [|done].
  destruct (handlers_ s !! fd) as [weak|] eqn:Hw; simpl; [|done].
  assert (fd < length (handlers_ s))%nat as Hlen by by eapply lookup_lt_Some.
  assert (<[fd := Uninitialized]> (handlers_ s) !! fd' = Some (Weak h)
          → handlers_ s !! fd' = Some (Weak h)) as Hins.
  { destruct (decide (fd' = fd)) as [->|Hne].
    - by rewrite list_lookup_insert_eq.
    - by rewrite list_lookup_insert_ne. }
  by case_decide.
Qed.

Lemma loop_condition_mono (s s' : Loop) :
  closed_ s' = closed_ s → handlerCount_ s ≤ handlerCount_ s' →
  loop_condition s' = false → loop_condition s = false.
Proof.
  unfold loop_condition. intros -> Hle.
  rewrite !orb_false_iff, !bool_decide_eq_false. intros [? ?]. split; [done|lia].
Qed.

Lemma epoll_wait_events (events : list (nat * Z)) (s : Loop) :
  epoll_wait kCapacity_ (EpollEvents events) s = true →
  (0 < length events ≤ kCapacity_)%nat ∧ NoDup events.*1 ∧
  (∀ event, event ∈ events → is_Some (interest s !! fst event)) ∧
  (existsb (wakes s) events = true → 0 < counter s).
Proof.
  simpl. rewrite !andb_true_iff, !bool_decide_eq_true, forallb_forall.
  intros [[[Hlen Hnd] Hreg] Hwake]. split; [done|]. split; [done|]. split.
  - intros event Hin. apply list_elem_of_In, Hreg in Hin.
    by apply bool_decide_eq_true in Hin.
  - intros Hex. rewrite Hex in Hwake. simpl in Hwake.
    by apply bool_decide_eq_true in Hwake.
Qed.

Lemma Awake_initial kinds eventFd : Awake eventFd (initial kinds eventFd).
Proof. split; [apply Running_initial|done..]. Qed.

Lemma foreign_not_unregister (eventFd : nat) (a : Action) :
  foreign eventFd a = true → a ≠ Unregister eventFd.
Proof. intros Hfor ->. simpl in Hfor. by apply bool_decide_eq_true in Hfor. Qed.

Lemma Awake_loop eventFd (s : Loop) result :
  Awake eventFd s → Awake eventFd (loop result s).
Proof.
  intros Hawake.
  pose proof Hawake as [Hrun Hhandler Hpriv Hwoken Hevents Hhanded].
  pose proof Hrun as [He Hkind Hcons Hwake].
  pose proof (Running_loop eventFd s result Hrun) as Hrun'.
  destruct (thread s) eqn:Ht.
  - assert (files s (eventFd_ s) = Pollable) as Hkind' by by rewrite He.
    destruct (loop_starts result s Ht Hkind') as (Hloop & Hi & weak & Hw & Hh).
    assert (thread (loop result s) = AtWhile) as Ht' by by rewrite Hloop.
    assert (eventFd_ s < length (grown (eventFd_ s) s))%nat as Hlen
      by by eapply lookup_lt_Some.
    split; [done|..].
    + intros _. rewrite <- He. split; [done|]. rewrite Hh.
      by rewrite list_lookup_insert_eq.
    + rewrite Hh. intros fd' Hfd'. destruct (decide (fd' = eventFd_ s)); [congruence|].
      rewrite list_lookup_insert_ne in Hfd' by done.
      apply grown_lookup_weak in Hfd'. by apply Hpriv.
    + by rewrite Ht'.
    + by rewrite Ht'.
    + by rewrite Ht'.
  - destruct (loop_condition s) eqn:Hcond.
    + revert Hrun'. unfold loop. rewrite Ht, Hcond. intros Hrun'.
      split; simpl; [done| |done| |done|done].
      * intros _. by apply Hhandler.
      * intros _. unfold loop_condition in *. simpl. congruence.
    + destruct (loop_leaves result s Ht Hcond) as (t & Hout & Hloop & _).
      assert (thread (loop result s) = t) as Ht' by by rewrite Hloop.
      split; [done|..].
      * by rewrite Ht', Hout.
      * rewrite Hloop. simpl. intros fd' Hfd'.
        apply unregisterDescriptor_handlers in Hfd'. by apply Hpriv.
      * rewrite Ht'. intros ->. done.
      * rewrite Ht'. intros ->. done.
      * rewrite Ht'. intros ->. done.
  - revert Hrun'. unfold loop. rewrite Ht.
    destruct (epoll_wait kCapacity_ result s) eqn:Hwait; [|done].
    destruct result as [errno|events].
    + case_decide; intros Hrun'; (split; simpl; [done| |done..]); [|done].
      intros _. by apply Hhandler.
    + apply epoll_wait_events in Hwait as (_ & Hnd & _ & Hk).
      intros Hrun'. split; simpl; [done| |done|done|done|by intros _].
      intros _. by apply Hhandler.
  - revert Hrun'. unfold loop. rewrite Ht. destruct (epollEvents_ s); [|done].
    intros Hrun'. split; simpl; [done| |done..].
    intros _. by apply Hhandler.
  - unfold loop. by rewrite Ht.
  - unfold loop. by rewrite Ht.
Qed.

(** The run of the reactor, in a loop whose wakeup eventfd and handler the
    other threads leave alone: it returns, with every event dispatched to
    the handler of its descriptor, the wakeup read if it was reported, and
    nothing left in [epollEvents_]. *)
Lemma handleEpollEventsFromLoop_returns eventFd (s : Loop) :
  Awake eventFd s → thread s = WaitingForReactor →
  handleEpollEventsFromLoop s
  = Returns (set_epollEvents []
               (set_counter (if existsb (wakes s) (epollEvents_ s) then 0
                             else counter s)
                  (set_dispatched
                     (dispatched s ++ omap (dispatch s) (epollEvents_ s)) s))).
Proof.
  intros [[He Hkind Hcons Hwake] Hhandler Hpriv Hwoken Hevents Hhanded] Ht.
  unfold handleEpollEventsFromLoop. rewrite handle_events_returns; [done|..].
  - by apply Hevents.
  - rewrite He. apply Hhandler. by rewrite Ht.
  - rewrite He. apply Hpriv.
  - intros Hex. specialize (Hhanded Ht Hex). lia.
Qed.

Lemma Awake_step eventFd (s : Loop) a :
  foreign eventFd a = true → Awake eventFd s → Awake eventFd (step s a).
Proof.
  intros Hfor Hawake.
  pose proof Hawake as [Hrun Hhandler Hpriv Hwoken Hevents Hhanded].
  pose proof Hrun as [He Hkind Hcons Hwake].
  pose proof (cons_counter _ Hcons) as Hz.
  pose proof (Running_step eventFd s a (foreign_not_unregister _ _ Hfor) Hrun) as Hrun'.
  destruct a as [fd events h|fd| | |result|]; simpl in Hfor, Hrun' |- *.
  - apply bool_decide_eq_true in Hfor as [Hfd Hh].
    revert Hrun'. destruct (registerDescriptor_eq fd events h s) as (weak & Hw & ->).
    assert (fd < length (grown fd s))%nat as Hlen by by eapply lookup_lt_Some.
    assert (∀ fd', <[fd := Weak h]> (grown fd s) !! fd' = Some (Weak 0)
                   → fd' = eventFd) as Hpriv'.
    { intros fd' Hfd'. apply Hpriv. destruct (decide (fd' = fd)) as [->|Hne].
      - rewrite list_lookup_insert_eq in Hfd' by done. congruence.
      - rewrite list_lookup_insert_ne in Hfd' by done.
        by apply grown_lookup_weak in Hfd'. }
    assert (inside (thread s) = true →
            <[fd := Weak h]> (grown fd s) !! eventFd = Some (Weak 0)) as Hslot'.
    { intros Hin. rewrite list_lookup_insert_ne by done.
      apply grown_lookup_weak. by apply Hhandler. }
    assert (handlerCount_ s ≤ if is_uninitialized weak then handlerCount_ s + 1
                              else handlerCount_ s) as Hle
      by (destruct (is_uninitialized weak); lia).
    destruct (files s fd); simpl; intros Hrun';
      (split; simpl; [done| |done| |done|done]).
    all: try (intros Hin; split; [|by apply Hslot']).
    all: try (rewrite ?lookup_insert_ne by done; by apply Hhandler).
    all: intros Ht Hc; apply Hwoken; [done|];
      eapply loop_condition_mono; [..|exact Hc]; done.
  - apply bool_decide_eq_true in Hfor.
    revert Hrun'. rewrite unregisterDescriptor_eq.
    destruct (files s fd); simpl; [done..|].
    destruct (interest s !! fd) as [old|] eqn:Hfd; simpl; [|done].
    destruct (cons_slots _ Hcons fd) as [h Hh]; [by rewrite Hfd|]. rewrite Hh. simpl.
    assert (fd < length (handlers_ s))%nat as Hlen by by eapply lookup_lt_Some.
    assert (inside (thread s) = true → 2 ≤ handlerCount_ s) as Htwo.
    { intros Hin. destruct (Hhandler Hin) as [_ Hslot].
      rewrite (cons_count _ Hcons).
      pose proof (initialised_two (handlers_ s) fd eventFd h 0 Hfor Hh Hslot). lia. }
    assert (∀ fd', <[fd := Uninitialized]> (handlers_ s) !! fd' = Some (Weak 0)
                   → fd' = eventFd) as Hpriv'.
    { intros fd' Hfd'. apply Hpriv. destruct (decide (fd' = fd)) as [->|Hne].
      - by rewrite list_lookup_insert_eq in Hfd'.
      - by rewrite list_lookup_insert_ne in Hfd'. }
    case_decide as Hone; intros Hrun'; (split; simpl; [done| |done| |done|]).
    + intros Hin. rewrite lookup_delete_ne, list_lookup_insert_ne by done.
      by apply Hhandler.
    + intros _ _. lia.
    + intros Ht Hex. specialize (Hhanded Ht Hex). lia.
    + intros Hin. rewrite lookup_delete_ne, list_lookup_insert_ne by done.
      by apply Hhandler.
    + intros Ht Hc. assert (2 ≤ handlerCount_ s) by (apply Htwo; by rewrite Ht).
      unfold loop_condition in Hc. simpl in Hc.
      apply orb_false_iff in Hc as [_ Hc]. apply bool_decide_eq_false in Hc. lia.
    + done.
  - revert Hrun'. unfold close. destruct (closed_ s); [done|]. intros Hrun'.
    split; simpl; [done|done|done| |done|].
    + intros _ _. lia.
    + intros Ht Hex. specialize (Hhanded Ht Hex). lia.
  - revert Hrun'. unfold join, close. destruct (closed_ s) eqn:Hc; intros Hrun';
      (split; simpl; [done|done|done| |done|]).
    + intros Ht Hcond. apply Hwoken; [done|]. unfold loop_condition in *.
      simpl in Hcond. exact Hcond.
    + done.
    + intros _ _. lia.
    + intros Ht Hex. specialize (Hhanded Ht Hex). lia.
  - by apply Awake_loop.
  - destruct (thread s) eqn:Ht; try done.
    revert Hrun'. rewrite (handleEpollEventsFromLoop_returns eventFd s Hawake Ht).
    intros Hrun'. split; simpl; [done| |done| |intros _; constructor|done].
    + intros _. by apply Hhandler.
    + by rewrite Ht.
Qed.

Lemma Awake_run eventFd (schedule : list Action) (s : Loop) :
  Forall (fun a => foreign eventFd a = true) schedule →
  Awake eventFd s → Awake eventFd (run s schedule).
Proof.
  revert s. induction schedule as [|a schedule IH]; intros s Hall Hawake; [done|].
  apply Forall_cons in Hall as [Ha Hall]. simpl. apply IH; [done|].
  by apply Awake_step.
Qed.
Lemma loop_condition_false (s : Loop) :
  1 ≤ handlerCount_ s →
  loop_condition s = false ↔ closed_ s = true ∧ handlerCount_ s = 1.
Proof.
  intros Hcount. unfold loop_condition.
  rewrite orb_false_iff, negb_false_iff, bool_decide_eq_false.
  split; intros [? ?]; (split; [done|lia]).
Qed.

(** The return of [Loop::loop]: the wakeup handler is unregistered, and
    with it the last descriptor and the last handler. *)
Lemma loop_returns eventFd (s : Loop) (result : EpollWait) :
  Running eventFd s → thread s = AtWhile →
  closed_ s = true → handlerCount_ s = 1 →
  ∃ h,
    handlers_ s !! eventFd = Some (Weak h) ∧
    loop result s
    = set_thread Returned
        (set_handlers (<[eventFd := Uninitialized]> (handlers_ s)) 0
           (set_interest (delete eventFd (interest s)) s)) ∧
    delete eventFd (interest s) = ∅ ∧
    ∀ fd h', <[eventFd := Uninitialized]> (handlers_ s) !! fd ≠ Some (Weak h').
Proof.
  intros Hrun Ht Hc Hcount. pose proof Hrun as [He Hkind Hcons Hwake].
  assert (is_Some (interest s !! eventFd)) as [old Hold] by (apply Hwake; by rewrite Ht).
  destruct (cons_slots _ Hcons eventFd) as [h Hh]; [by rewrite Hold|].
  assert (loop_condition s = false) as Hcond.
  { apply loop_condition_false; [lia|done]. }
  pose proof (unregisterDescriptor_Consistent eventFd s Hcons) as Hcons1.
  revert Hcons1.
  unfold loop. rewrite Ht, Hcond, cancel_wakeupHandler, He, unregisterDescriptor_eq.
  rewrite Hkind, Hold, Hh. simpl. rewrite Hcount. simpl. intros Hcons1.
  assert (initialised (<[eventFd := Uninitialized]> (handlers_ s)) = 0%nat) as Hnone.
  { pose proof (cons_count _ Hcons1) as Hn. simpl in Hn. lia. }
  exists h. split; [done|]. split; [done|]. split.
  - apply map_eq. intros fd. rewrite lookup_empty.
    destruct (delete eventFd (interest s) !! fd) as [events|] eqn:Hfd; [|done].
    destruct (cons_slots _ Hcons1 fd) as [h' Hh']; [simpl; by rewrite Hfd|].
    simpl in Hh'. by apply initialised_none in Hh'.
  - intros fd h'. by apply initialised_none.
Qed.

Lemma loop_stays_returned (s : Loop) (result : EpollWait) :
  thread s = Returned → loop result s = s.
Proof. intros Ht. unfold loop. by rewrite Ht. Qed.

Lemma loop_stays_thrown (s : Loop) (result : EpollWait) (errno : Z) :
  thread s = Threw errno → loop result s = s.
Proof. intros Ht. unfold loop. by rewrite Ht. Qed.

Lemma loop_in_epoll_wait (s : Loop) (result : EpollWait) :
  thread s = InEpollWait →
  loop result s
  = if epoll_wait kCapacity_ result s then
      match result with
      | EpollError errno =>
          if decide (errno = EINTR) then set_thread AtWhile s
          else set_thread (Threw errno) s
      | EpollEvents events =>
          set_thread WaitingForReactor (set_epollEvents events s)
      end
    else s.
Proof. intros Ht. unfold loop. by rewrite Ht. Qed.

Lemma loop_waiting (s : Loop) (result : EpollWait) :
  thread s = WaitingForReactor →
  loop result s = match epollEvents_ s with
                  | [] => set_thread AtWhile s
                  | _ :: _ => s
                  end.
Proof. intros Ht. unfold loop. by rewrite Ht. Qed.

Lemma reactor_stays_returned (s : Loop) :
  thread s = Returned → step s Reactor = s.
Proof. intros Ht. simpl. by rewrite Ht. Qed.

Lemma epoll_wait_wakeup (s : Loop) :
  interest s !! eventFd_ s = Some EPOLLIN → 0 < counter s →
  epoll_wait kCapacity_ (EpollEvents [(eventFd_ s, EPOLLIN)]) s = true.
Proof.
  intros Hi Hk. unfold epoll_wait. rewrite !andb_true_iff. repeat split.
  - simpl. rewrite Hi. rewrite bool_decide_eq_true_2 by eauto. done.
  - rewrite (bool_decide_eq_true_2 (0 < counter s)) by done. apply orb_true_r.
Qed.

(** Once the loop is closed with the wakeup handler as its only handler,
    the thread of the loop and the reactor, however they take turns, bring
    the thread to the return; [epoll_wait] does not block, for the wakeup
    is there to be read. *)
Lemma loop_terminates eventFd (s : Loop) (r1 r2 r3 : EpollWait) :
  Awake eventFd s → closed_ s = true → handlerCount_ s = 1 →
  inside (thread s) = true →
  (thread s = InEpollWait → epoll_wait kCapacity_ r1 s = true) →
  thread (run s [LoopThreadStep r1; Reactor; LoopThreadStep r2; LoopThreadStep r3])
  = Returned ∨
  ∃ errno, r1 = EpollError errno ∧ errno ≠ EINTR ∧ thread s = InEpollWait ∧
           thread (run s [LoopThreadStep r1; Reactor; LoopThreadStep r2;
                          LoopThreadStep r3]) = Threw errno.
Proof.
  intros Hawake Hc Hcount Hin Hwait.
  assert (∀ s', Awake eventFd s' → thread s' = AtWhile → closed_ s' = true →
                handlerCount_ s' = 1 → ∀ result, thread (loop result s') = Returned)
    as Hret.
  { intros s' Hawake' Ht' Hc' Hcount' result.
    destruct (loop_returns eventFd s' result (awake_running _ _ Hawake') Ht' Hc' Hcount')
      as (h & _ & -> & _). done. }
  assert (∀ s', Awake eventFd s' → thread s' = WaitingForReactor →
                closed_ s' = true → handlerCount_ s' = 1 → ∀ r r',
                thread (loop r' (loop r (step s' Reactor))) = Returned) as Hdisp.
  { intros s' Hawake' Ht' Hc' Hcount' r r'.
    pose proof (Awake_step eventFd s' Reactor eq_refl Hawake') as Hawake1.
    revert Hawake1. simpl. rewrite Ht'.
    rewrite (handleEpollEventsFromLoop_returns eventFd s' Hawake' Ht'). simpl.
    intros Hawake1.
    pose proof (Awake_loop eventFd _ r Hawake1) as Hawake2. revert Hawake2.
    unfold loop at 1 3. simpl. rewrite Ht'. intros Hawake2.
    by apply Hret. }
  change (run s [LoopThreadStep r1; Reactor; LoopThreadStep r2; LoopThreadStep r3])
    with (loop r3 (loop r2 (step (loop r1 s) Reactor))).
  pose proof (Awake_loop eventFd s r1 Hawake) as Hawake1.
  destruct (thread s) eqn:Ht; try done.
  - left. pose proof (Hret s Hawake Ht Hc Hcount r1) as Ht1.
    rewrite reactor_stays_returned by done.
    by rewrite !(loop_stays_returned (loop r1 s)) by done.
  - rewrite (loop_in_epoll_wait s r1 Ht), (Hwait eq_refl) in Hawake1 |- *.
    destruct r1 as [errno|events]; [case_decide as Herr|].
    + left. change (step (set_thread AtWhile s) Reactor) with (set_thread AtWhile s).
      pose proof (Hret _ Hawake1 eq_refl Hc Hcount r2) as Ht2.
      by rewrite loop_stays_returned.
    + right. exists errno. split; [done|]. split; [done|]. split; [done|].
      change (step (set_thread (Threw errno) s) Reactor)
        with (set_thread (Threw errno) s).
      by rewrite !(loop_stays_thrown (set_thread (Threw errno) s) _ errno).
    + left. by apply Hdisp.
  - rewrite (loop_waiting s r1 Ht) in Hawake1 |- *.
    destruct (epollEvents_ s) eqn:Hev.
    + left. change (step (set_thread AtWhile s) Reactor) with (set_thread AtWhile s).
      pose proof (Hret _ Hawake1 eq_refl Hc Hcount r2) as Ht2.
      by rewrite loop_stays_returned.
    + left. by apply Hdisp.
Qed.

(** C9.  A loop made with the wakeup descriptor [eventFd], after any
    schedule of its users, its reactor and its own thread in which the
    users leave the wakeup descriptor and the wakeup handler alone.

    The thread returns only from the test of [while], with the loop closed
    and the handler count at one.  At the test of [while], the wakeup
    handler is counted; with the loop closed and the count at one the
    thread returns, and the wakeup handler, destroyed with the stack of
    [loop], leaves nothing registered; otherwise the thread resizes
    [epollEvents_] to [kCapacity_] and calls [epoll_wait].  Inside
    [epoll_wait] the thread stays until the kernel has a result: an
    interruption takes it back to the test, another error out of [loop]
    by an exception, events to the wait for the reactor with the events
    in [epollEvents_].  While it waits, the thread does not move as long
    as events are pending; the run of the reactor returns, having called
    the handler in the slot of the descriptor of every event, in order,
    read the wakeup if it was reported, and cleared [epollEvents_]; the
    thread then goes back to the test.

    Termination: once the loop is closed and the count is at one, with the
    thread inside [while], the eventfd is the only descriptor registered;
    a thread inside [epoll_wait] is not left blocked, as the eventfd is
    registered for [EPOLLIN] and a wakeup is written and not yet read, so
    that its event is there for the kernel to report; and the thread and
    the reactor between them reach the return of [loop] in four steps,
    whatever [epoll_wait] reports, short of an error other than [EINTR],
    which is thrown. *)
Theorem loop_returns_iff_closed_and_only_wakeup
    (kinds : nat → FileKind) (eventFd : nat) (schedule : list Action) :
  Forall (fun a => foreign eventFd a = true) schedule →
  let s := run (initial kinds eventFd) schedule in
  (∀ a, thread s ≠ Returned → thread (step s a) = Returned →
        thread s = AtWhile ∧ closed_ s = true ∧ handlerCount_ s = 1 ∧
        ∃ result, a = LoopThreadStep result) ∧
  (thread s = AtWhile →
   1 ≤ handlerCount_ s ∧
   ∀ result,
     (closed_ s = true ∧ handlerCount_ s = 1 →
      thread (loop result s) = Returned ∧
      interest (loop result s) = ∅ ∧ handlerCount_ (loop result s) = 0) ∧
     (¬ (closed_ s = true ∧ handlerCount_ s = 1) →
      loop result s
      = set_thread InEpollWait
          (set_epollEvents (resize kCapacity_ blank (epollEvents_ s)) s) ∧
      length (epollEvents_ (loop result s)) = kCapacity_)) ∧
  (thread s = InEpollWait →
   ∀ result,
     loop result s
     = if epoll_wait kCapacity_ result s then
         match result with
         | EpollError errno =>
             if decide (errno = EINTR) then set_thread AtWhile s
             else set_thread (Threw errno) s
         | EpollEvents events =>
             set_thread WaitingForReactor (set_epollEvents events s)
         end
       else s) ∧
  (thread s = WaitingForReactor →
   (∀ result, epollEvents_ s ≠ [] → loop result s = s) ∧
   handleEpollEventsFromLoop s = Returns (step s Reactor) ∧
   thread (step s Reactor) = WaitingForReactor ∧
   epollEvents_ (step s Reactor) = [] ∧
   dispatched (step s Reactor)
   = dispatched s ++ omap (dispatch s) (epollEvents_ s) ∧
   counter (step s Reactor)
   = (if existsb (wakes s) (epollEvents_ s) then 0 else counter s) ∧
   ∀ result, loop result (step s Reactor) = set_thread AtWhile (step s Reactor)) ∧
  (closed_ s = true → handlerCount_ s = 1 → inside (thread s) = true →
   (∀ fd, is_Some (interest s !! fd) ↔ fd = eventFd) ∧
   (thread s = InEpollWait →
    interest s !! eventFd = Some EPOLLIN ∧ 0 < counter s ∧
    epoll_wait kCapacity_ (EpollEvents [(eventFd, EPOLLIN)]) s = true) ∧
   ∀ r1 r2 r3,
     (thread s = InEpollWait → epoll_wait kCapacity_ r1 s = true) →
     thread (run s [LoopThreadStep r1; Reactor; LoopThreadStep r2; LoopThreadStep r3])
     = Returned ∨
     ∃ errno, r1 = EpollError errno ∧ errno ≠ EINTR ∧ thread s = InEpollWait ∧
              thread (run s [LoopThreadStep r1; Reactor; LoopThreadStep r2;
                             LoopThreadStep r3]) = Threw errno).
Proof.
  intros Hall s.
  assert (Awake eventFd s) as Hawake by (apply Awake_run, Awake_initial; done).
  pose proof Hawake as [Hrun Hhandler Hpriv Hwoken Hevents Hhanded].
  pose proof Hrun as [He Hkind Hcons Hwake].
  split; [|split; [|split; [|split]]].
  - intros a Hnot Hret.
    destruct a as [fd events h|fd| | |result|]; [simpl in Hret..|unfold step in Hret].
    + destruct (registerDescriptor_frame fd events h s)
        as (_ & _ & _ & _ & _ & _ & Ht' & _).
      by rewrite Ht' in Hret.
    + destruct (unregisterDescriptor_frame fd s) as (_ & _ & _ & _ & _ & Ht' & _).
      by rewrite Ht' in Hret.
    + unfold close in Hret. by destruct (closed_ s).
    + unfold join, close in Hret. by destruct (closed_ s).
    + destruct (thread s) eqn:Ht; try done.
      * assert (files s (eventFd_ s) = Pollable) as Hkind' by by rewrite He.
        destruct (loop_starts result s Ht Hkind') as (Hloop & _). by rewrite Hloop in Hret.
      * destruct (loop_condition s) eqn:Hcond.
        { unfold loop in Hret. by rewrite Ht, Hcond in Hret. }
        assert (1 ≤ handlerCount_ s) as Hcount
          by (apply (Running_count eventFd); [done|by rewrite Ht]).
        apply loop_condition_false in Hcond as [? ?]; [|done]. eauto.
      * unfold loop in Hret. rewrite Ht in Hret.
        destruct (epoll_wait _ _ _); [|by rewrite Ht in Hret].
        destruct result; [case_decide|]; done.
      * unfold loop in Hret. rewrite Ht in Hret.
        destruct (epollEvents_ s); [done|by rewrite Ht in Hret].
      * rewrite (loop_stays_thrown s result _ Ht) in Hret. congruence.
    + destruct (handleEpollEventsFromLoop_frame s)
        as (_ & _ & _ & _ & _ & _ & _ & Ht' & _).
      destruct (thread s) eqn:Ht; congruence.
  - intros Ht.
    assert (1 ≤ handlerCount_ s) as Hcount
      by (apply (Running_count eventFd); [done|by rewrite Ht]).
    split; [done|]. intros result. split.
    + intros [Hc Hone].
      destruct (loop_returns eventFd s result Hrun Ht Hc Hone) as (h & _ & -> & Hi & _).
      done.
    + intros Hnot. assert (loop_condition s = true) as Hcond.
      { apply not_false_iff_true. intros Hcond. apply Hnot.
        by apply loop_condition_false. }
      unfold loop. rewrite Ht, Hcond. split; [done|]. simpl. apply length_resize.
  - intros Ht result. unfold loop. by rewrite Ht.
  - intros Ht. simpl. rewrite Ht.
    rewrite (handleEpollEventsFromLoop_returns eventFd s Hawake Ht). simpl.
    split; [|repeat (split; [done|]); intros result; unfold loop; simpl; by rewrite Ht].
    intros result Hev. unfold loop. rewrite Ht. by destruct (epollEvents_ s).
  - intros Hc Hcount Hin. split; [|split].
    + intros fd. destruct (Hhandler Hin) as [Hi Hslot]. split.
      * intros Hfd. destruct (cons_slots _ Hcons fd Hfd) as [h Hh].
        destruct (decide (fd = eventFd)) as [|Hne]; [done|].
        pose proof (initialised_two (handlers_ s) fd eventFd h 0 Hne Hh Hslot).
        pose proof (cons_count _ Hcons). lia.
      * intros ->. by rewrite Hi.
    + intros Ht. destruct (Hhandler Hin) as [Hi Hslot].
      assert (0 < counter s) as Hk.
      { apply Hwoken; [done|]. apply loop_condition_false; [lia|done]. }
      split; [done|]. split; [done|].
      rewrite <- He. apply epoll_wait_wakeup; [by rewrite He|done].
    + intros r1 r2 r3. by apply (loop_terminates eventFd).
Qed.
Lemma loop_returns_iff_closed_and_only_wakeup_witness :
  let s := run (initial (fun _ => Pollable) 3)
             [LoopThreadStep (EpollError 0); Register 5 EPOLLIN 42%nat;
              LoopThreadStep (EpollError 0); Close; Unregister 5] in
  thread s = InEpollWait ∧ closed_ s = true ∧ handlerCount_ s = 1 ∧
  counter s = 2 ∧
  thread (run s [LoopThreadStep (EpollEvents [(3%nat, EPOLLIN)]); Reactor;
                 LoopThreadStep (EpollError 0); LoopThreadStep (EpollError 0)])
  = Returned.
Proof.
  intros s.
  destruct (loop_returns_iff_closed_and_only_wakeup (fun _ => Pollable) 3
              [LoopThreadStep (EpollError 0); Register 5 EPOLLIN 42%nat;
               LoopThreadStep (EpollError 0); Close; Unregister 5])
    as (_ & _ & _ & _ & Hterm).
  - repeat constructor.
  - destruct (Hterm eq_refl eq_refl eq_refl) as (_ & _ & Hruns).
    destruct (Hruns (EpollEvents [(3%nat, EPOLLIN)]) (EpollError 0) (EpollError 0)
                (fun _ => eq_refl)) as [Hret|(errno & Herr & _)]; [|discriminate].
    split; [reflexivity|]. split; [reflexivity|]. split; [reflexivity|].
    split; [reflexivity|]. exact Hret.
Defined.

(** The claim of C8 fails: with descriptor 5 registered, one call of
    [unregisterDescriptor] returns, and a second one throws the system
    error [ENOENT] of [EPOLL_CTL_DEL]. *)
Lemma unregisterDescriptor_twice_throws :
  let s := state_of (registerDescriptor 5 EPOLLIN 42 (initial (fun _ => Pollable) 3)) in
  let s1 := state_of (unregisterDescriptor 5 s) in
  unregisterDescriptor 5 s = Returns s1 ∧
  unregisterDescriptor 5 s1 = Throws (SystemException ENOENT) s1 ∧
  unregisterDescriptor 5 s1 ≠ Returns s1.
Proof.
  intros s s1.
  assert (unregisterDescriptor 5 s = Returns s1) as Honce by reflexivity.
  assert (unregisterDescriptor 5 s1 = Throws (SystemException ENOENT) s1) as Htwice
    by reflexivity.
  split; [done|]. split; [done|]. by rewrite Htwice.
Qed.

(** C8, amended.  On a loop whose handler table and interest list are
    consistent, for a descriptor in the interest list: a call of
    [unregisterDescriptor] returns, with the descriptor out of the interest
    list, its slot reset and the handler count one less; and a second
    call, made on the loop as the first left it, does not return: it
    throws the system error [ENOENT] of [EPOLL_CTL_DEL] and leaves the
    loop, handler table included, as the first call left it. *)
Theorem unregisterDescriptor_second_call_throws (fd : nat) (s : Loop) :
  Consistent s → is_Some (interest s !! fd) →
  ∃ s1,
    unregisterDescriptor fd s = Returns s1 ∧
    interest s1 !! fd = None ∧
    handlers_ s1 !! fd = Some Uninitialized ∧
    handlerCount_ s1 = handlerCount_ s - 1 ∧
    unregisterDescriptor fd s1 = Throws (SystemException ENOENT) s1.
Proof.
  intros Hcons [old Hfd].
  destruct (cons_slots _ Hcons fd) as [h Hh]; [by rewrite Hfd|].
  pose proof (cons_files _ Hcons fd) as Hkind. rewrite Hfd in Hkind.
  specialize (Hkind (ex_intro _ old eq_refl)).
  assert (fd < length (handlers_ s))%nat as Hlen by by eapply lookup_lt_Some.
  rewrite (unregisterDescriptor_eq fd s), Hkind, Hfd, Hh. simpl.
  eexists. split; [done|].
  assert (∀ s1, files s1 = files s → interest s1 = delete fd (interest s) →
                unregisterDescriptor fd s1 = Throws (SystemException ENOENT) s1)
    as Hagain.
  { intros s1 Hf Hi. rewrite unregisterDescriptor_eq, Hf, Hkind, Hi.
    by rewrite lookup_delete_eq. }
  case_decide; simpl; (split; [by rewrite lookup_delete_eq|]);
    (split; [by rewrite list_lookup_insert_eq|]); (split; [done|]);
    by apply Hagain.
Qed.

Lemma unregisterDescriptor_second_call_throws_witness :
  let s := state_of (registerDescriptor 5 EPOLLIN 42 (initial (fun _ => Pollable) 3)) in
  ∃ s1, unregisterDescriptor 5 s = Returns s1 ∧
        handlerCount_ s1 = 0 ∧
        unregisterDescriptor 5 s1 = Throws (SystemException ENOENT) s1.
Proof.
  intros s.
  assert (Consistent s) as Hcons.
  { apply registerDescriptor_Consistent, Consistent_initial. }
  destruct (unregisterDescriptor_second_call_throws 5 s Hcons)
    as (s1 & H1 & _ & _ & Hc & H2).
  { by eexists. }
  exists s1. split; [exact H1|]. split; [exact Hc|exact H2].
Defined.

End ShmLoopFacts.

(** ** The rearmable callback *)

Section RearmableFacts.
Import RearmableCallback.
Context {Fn Args : Type}.

Lemma zip_app_drop_l (A A2 : list Fn) (T : list Args) :
  zip (A ++ A2) T = zip A T ++ zip A2 (drop (length A) T).
Proof.
  revert T. induction A as [|a A IH]; intros T; simpl; [by rewrite drop_0|].
  destruct T as [|t T]; simpl; [by destruct A2|]. by rewrite IH.
Qed.

Lemma zip_app_drop_r (A : list Fn) (T T2 : list Args) :
  zip A (T ++ T2) = zip A T ++ zip (drop (length T) A) T2.
Proof.
  revert A. induction T as [|t T IH]; intros A; simpl.
  - rewrite drop_0. by destruct A.
  - destruct A as [|a A]; simpl; [done|]. by rewrite IH.
Qed.

Lemma armed_snoc (ops : list (@Op Fn Args)) op :
  armed (ops ++ [op]) = armed ops ++ match op with Arm fn => [fn] | Trigger _ => [] end.
Proof. unfold armed. rewrite omap_app. by destruct op. Qed.

Lemma triggered_snoc (ops : list (@Op Fn Args)) op :
  triggered (ops ++ [op])
  = triggered ops ++ match op with Trigger args => [args] | Arm _ => [] end.
Proof. unfold triggered. rewrite omap_app. by destruct op. Qed.

Lemma drop_nil_length {X} (l : list X) n : drop n l = [] → (length l ≤ n)%nat.
Proof.
  intros H. apply (f_equal length) in H. rewrite length_drop in H.
  simpl in H. lia.
Qed.

Lemma drop_cons_length {X} (l : list X) n x rest :
  drop n l = x :: rest → (n < length l)%nat ∧ rest = drop (S n) l.
Proof.
  intros H. split.
  - apply (f_equal length) in H. rewrite length_drop in H. simpl in H. lia.
  - apply (f_equal (drop 1)) in H. rewrite drop_drop in H. simpl in H.
    rewrite drop_0 in H. rewrite <- H. f_equal. lia.
Qed.

Lemma rearmable_run (ops : list (@Op Fn Args)) :
  fired (run ops) = zip (armed ops) (triggered ops) ∧
  callbacks_ (run ops) = drop (length (triggered ops)) (armed ops) ∧
  args_ (run ops) = drop (length (armed ops)) (triggered ops).
Proof.
  induction ops as [|op ops IH] using rev_ind; [done|].
  destruct IH as (Hf & Hc & Ha).
  unfold run in *. rewrite fold_left_app. simpl.
  rewrite armed_snoc, triggered_snoc.
  set (A := armed ops) in *. set (T := triggered ops) in *.
  set (s0 := fold_left step ops empty) in *.
  destruct op as [fn|args]; simpl.
  - rewrite app_nil_r, length_app. simpl. unfold arm.
    rewrite zip_app_drop_l, <- Ha, Hf.
    destruct (args_ s0) as [|a rest] eqn:E; simpl.
    + symmetry in Ha. apply drop_nil_length in Ha.
      rewrite app_nil_r. split; [done|]. split.
      * rewrite Hc, drop_app_le; [done|lia].
      * rewrite drop_ge; [done|lia].
    + symmetry in Ha. apply drop_cons_length in Ha as [Hlt Hrest].
      split; [done|]. split.
      * rewrite Hc, drop_app, (drop_ge A) by lia.
        rewrite (drop_ge [fn]); [done|]. simpl. lia.
      * rewrite Hrest. f_equal. lia.
  - rewrite app_nil_r, length_app. simpl. unfold trigger.
    rewrite zip_app_drop_r, <- Hc, Hf.
    destruct (callbacks_ s0) as [|c rest] eqn:E; simpl.
    + symmetry in Hc. apply drop_nil_length in Hc.
      rewrite app_nil_r. split; [done|]. split.
      * rewrite drop_ge; [done|lia].
      * rewrite Ha, drop_app_le; [done|lia].
    + symmetry in Hc. apply drop_cons_length in Hc as [Hlt Hrest].
      rewrite zip_with_nil_r. split; [done|]. split.
      * rewrite Hrest. f_equal. lia.
      * rewrite Ha, drop_app, (drop_ge T) by lia.
        rewrite (drop_ge [args]); [done|]. simpl. lia.
Qed.

(** X1.  After any sequence of [arm] and [trigger] on a new rearmable
    callback: the calls made are the armed callables paired, in order, with
    the triggered arguments (the i-th armed with the i-th triggered); the
    callables still stored are the armed ones beyond the number of triggers
    and the arguments still stashed are the triggered ones beyond the number
    of arms, so the two deques are never both non-empty. *)
Theorem rearmable_pairs_in_order (ops : list (@Op Fn Args)) :
  let s := run ops in
  fired s = zip (armed ops) (triggered ops) ∧
  callbacks_ s = drop (length (triggered ops)) (armed ops) ∧
  args_ s = drop (length (armed ops)) (triggered ops) ∧
  (callbacks_ s = [] ∨ args_ s = []).
Proof.
  intros s. destruct (rearmable_run ops) as (Hf & Hc & Ha). repeat split; try done.
  subst s. rewrite Hc, Ha.
  destruct (decide (length (armed ops) ≤ length (triggered ops))%nat).
  - left. by apply drop_ge.
  - right. apply drop_ge. lia.
Qed.

Lemma triggerAll_loop_fst (generator : nat → Args) k (callbacks : list Fn) calls :
  (triggerAll_loop generator k callbacks calls).*1 = calls.*1 ++ callbacks.
Proof.
  revert k calls. induction callbacks as [|fn rest IH]; intros k calls; simpl.
  - by rewrite app_nil_r.
  - rewrite IH, fmap_app. simpl. by rewrite <- app_assoc.
Qed.

Lemma triggerAll_loop_snd (generator : nat → Args) k (callbacks : list Fn) calls :
  (triggerAll_loop generator k callbacks calls).*2
  = calls.*2 ++ (generator <$> seq k (length callbacks)).
Proof.
  revert k calls. induction callbacks as [|fn rest IH]; intros k calls; simpl.
  - by rewrite app_nil_r.
  - rewrite IH, fmap_app. simpl. by rewrite <- app_assoc.
Qed.

Lemma zip_fst_take (A : list Fn) (T : list Args) :
  (zip A T).*1 = take (length T) A.
Proof.
  revert T. induction A as [|a A IH]; intros [|t T]; simpl; try done.
  by rewrite IH.
Qed.

Lemma zip_snd_take (A : list Fn) (T : list Args) :
  (zip A T).*2 = take (length A) T.
Proof.
  revert T. induction A as [|a A IH]; intros [|t T]; simpl; try done.
  by rewrite IH.
Qed.

(** X2.  [triggerAll] after any sequence of [arm] and [trigger]: every
    callable armed so far has then been called exactly once, in the order
    of arming (those that were still stored with the results of the
    generator, in the order it was called); none is left stored, the
    stashed arguments are untouched, and a [trigger] that follows is
    stashed, not delivered. *)
Theorem triggerAll_flushes_armed_callbacks
    (ops : list (@Op Fn Args)) (generator : nat → Args) :
  let s := triggerAll generator (run ops) in
  (fired s).*1 = armed ops ∧
  (fired s).*2 =
    take (length (armed ops)) (triggered ops)
    ++ (generator <$> seq 0 (length (armed ops) - length (triggered ops))) ∧
  callbacks_ s = [] ∧
  args_ s = args_ (run ops) ∧
  ∀ args, fired (trigger args s) = fired s ∧
          args_ (trigger args s) = args_ s ++ [args].
Proof.
  intros s. destruct (rearmable_run ops) as (Hf & Hc & Ha). subst s.
  unfold triggerAll. simpl. split; [|split].
  - rewrite triggerAll_loop_fst, Hf, Hc, zip_fst_take. apply take_drop.
  - rewrite triggerAll_loop_snd, Hf, Hc, zip_snd_take, length_drop. done.
  - done.
Qed.

End RearmableFacts.

(** ** The closing emitter *)

Section ClosingFacts.
Import Closing.
Context {Thunk : Type}.

(** X3.  A receiver activated at a positive address that no live receiver
    of the emitter has: while it lives, [close()] of the emitter calls its
    thunk, once (each token is called once); a second subscription under
    its token does not replace the thunk; its destruction leaves the emitter
    as it was before the activation, and from then on [close()] does not
    call anything under its token.  A receiver that was never activated
    unsubscribes nothing when destroyed. *)
Theorem closing_receiver_lifecycle
    (address : Z) (fn : Thunk) (receivers_ : gmap Z Thunk) :
  0 < address → receivers_ !! address = None →
  let active := activate address fn (inactive, receivers_) in
  (address, fn) ∈ close (snd active) ∧
  NoDup (close (snd active)).*1 ∧
  (∀ fn', subscribe address fn' (snd active) = snd active) ∧
  destroy active = receivers_ ∧
  (∀ fn', (address, fn') ∉ close (destroy active)) ∧
  destroy (inactive, receivers_) = receivers_.
Proof.
  intros Hpos Hfresh active. subst active. unfold activate, subscribe. simpl.
  rewrite Hfresh. repeat split.
  - unfold close. apply elem_of_map_to_list. by rewrite lookup_insert_eq.
  - apply NoDup_fst_map_to_list.
  - intros fn'. by rewrite lookup_insert_eq.
  - unfold destroy. simpl. rewrite decide_True by done.
    unfold unsubscribe. rewrite delete_insert_eq. by apply delete_id.
  - intros fn'. unfold destroy. simpl. rewrite decide_True by done.
    unfold close, unsubscribe. rewrite elem_of_map_to_list, lookup_delete_eq. done.
Qed.

End ClosingFacts.

Lemma closing_receiver_lifecycle_witness :
  let receivers_ : gmap Z nat := <[4096 := 1%nat]> ∅ in
  Closing.destroy (Closing.activate 8192 2%nat (Closing.inactive, receivers_)) = receivers_ ∧
  (8192, 2%nat) ∈ Closing.close (snd (Closing.activate 8192 2%nat (Closing.inactive, receivers_))).
Proof.
  intros receivers_.
  destruct (closing_receiver_lifecycle 8192 2%nat receivers_)
    as (Hin & _ & _ & Hback & _); [lia|reflexivity|].
  split; [exact Hback|exact Hin].
Defined.

(** ** The history of a basic channel *)

Section ChannelHistoryFacts.
Import Callback BasicChannel ChannelHistory.

Lemma sendCompleted_Ok (id : Z) (s s' : Impl) :
  sendCompleted id s = Ok s' →
  ∃ i op,
    sendOperations_ s !! i = Some op ∧ SendOperation.id op = id ∧
    (∀ j y, sendOperations_ s !! j = Some y → (j < i)%nat → SendOperation.id y ≠ id) ∧
    s' = invoke (SendCallback (SendOperation.callback op) (error_ s))
           (set_sendOperations (delete i (sendOperations_ s)) s).
Proof.
  unfold sendCompleted.
  destruct (list_find _ _) as [[i op]|] eqn:Hfind; [|done]. intros [= <-].
  apply list_find_Some in Hfind as (Hl & Hid & Hfirst). by exists i, op.
Qed.

Lemma recvCompleted_Ok (id : Z) (s s' : Impl) :
  recvCompleted id s = Ok s' →
  ∃ i op,
    recvOperations_ s !! i = Some op ∧ RecvOperation.id op = id ∧
    (∀ j y, recvOperations_ s !! j = Some y → (j < i)%nat → RecvOperation.id y ≠ id) ∧
    s' = invoke (RecvCallback (RecvOperation.callback op) (error_ s))
           (set_recvOperations (delete i (recvOperations_ s)) s).
Proof.
  unfold recvCompleted.
  destruct (list_find _ _) as [[i op]|] eqn:Hfind; [|done]. intros [= <-].
  apply list_find_Some in Hfind as (Hl & Hid & Hfirst). by exists i, op.
Qed.

Lemma onPacket_Ok (packet : Packet) (s s' : Impl) :
  onPacket_ packet s = Ok s' →
  ∃ ops,
    s' = set_connection
           {| inflight := inflight (connection_ s) ++ ops
                            ++ [ReadPacket (Lazy LambdaOnPacket)];
              closed := closed (connection_ s) |} s ∧
    Forall submitted_by_channel ops ∧
    Forall (fun op => is_packet_read op = false) ops.
Proof.
  unfold onPacket_, onRequest_, onReply_. destruct packet as [id|id|]; simpl.
  - destruct (list_find _ _) as [[i op]|]; [|done]. simpl. intros [= <-].
    eexists [_; _]. split.
    + unfold readPacket_, connection_submit, set_connection, submit. simpl.
      by rewrite <- !app_assoc.
    + split; repeat constructor; simpl; eauto.
  - destruct (list_find _ _) as [[i op]|]; [|done]. simpl. intros [= <-].
    eexists [_]. split.
    + unfold readPacket_, connection_submit, set_connection, submit. simpl.
      by rewrite <- !app_assoc.
    + split; repeat constructor; simpl; eauto.
  - done.
Qed.

(** What the two [processError_] do: nothing, or the first error is set and
    the connection closed. *)
Lemma lazy_processError_cases (s : Impl) (error : Error) :
  let '(stop, s') := LazyCallbackWrapper.processError_ s error in
  (stop = false ∧ s' = s ∧ error_ s = kSuccess ∧ error = kSuccess) ∨
  (stop = true ∧ s' = s ∧ error_ s ≠ kSuccess) ∨
  (stop = true ∧ s' = handleError_ (set_error error s) ∧
   error_ s = kSuccess ∧ error ≠ kSuccess).
Proof.
  unfold LazyCallbackWrapper.processError_. simpl.
  destruct (is_error (error_ s)) eqn:He.
  - right. left. apply is_error_true in He. done.
  - apply is_error_false in He. destruct (is_error error) eqn:Herr; simpl.
    + right. right. apply is_error_true in Herr. done.
    + left. apply is_error_false in Herr. done.
Qed.

Lemma eager_processError_cases (s : Impl) (error : Error) :
  let s' := EagerCallbackWrapper.processError_ s error in
  s' = s ∨
  (s' = handleError_ (set_error error s) ∧ error_ s = kSuccess ∧ error ≠ kSuccess).
Proof.
  unfold EagerCallbackWrapper.processError_. simpl.
  destruct (is_error (error_ s)) eqn:He; simpl; [by left|].
  apply is_error_false in He. destruct (is_error error) eqn:Herr; simpl; [|by left].
  right. apply is_error_true in Herr. done.
Qed.

(** What a call back of the transport amounts to: the operation leaves
    the connection; then possibly the first error is set and the connection
    closed; then possibly the wrapped lambda runs (always for an eager
    callback; for a lazy one only with Success on a live channel in the
    Success state). *)
Lemma step_Complete_Ok (k : nat) (error : Error) (packet : Packet) (s s' : Impl) op :
  inflight (connection_ s) !! k = Some op →
  step (Complete k error packet) s = Ok s' →
  let s1 := set_connection (called_back k (connection_ s)) s in
  ∃ s2,
    (s2 = s1 ∨
     (s2 = handleError_ (set_error error s1) ∧ error_ s = kSuccess ∧ error ≠ kSuccess)) ∧
    ((s' = s2 ∧ (∃ fn, op_callback op = Lazy fn) ∧
      (s2 = s1 → use_count s1 = 0%nat ∨ error_ s ≠ kSuccess)) ∨
     (∃ fn, apply_lambda fn packet s2 = Ok s' ∧
            (op_callback op = Eager fn ∨
             (op_callback op = Lazy fn ∧ s2 = s1 ∧ error_ s = kSuccess)))).
Proof.
  intros Hop Hstep s1. unfold step in Hstep. rewrite Hop in Hstep. fold s1 in Hstep.
  destruct (op_callback op) as [fn|fn]; simpl in Hstep.
  - unfold runIfAlive in Hstep. case_bool_decide as Halive.
    2:{ injection Hstep as <-. exists s1. split; [by left|]. left.
        split; [done|]. split; [by eauto|]. intros _. left. lia. }
    unfold run_task, LazyCallbackWrapper.entryPointFromLoop_,
      LazyCallbackWrapper.processError_ in Hstep. simpl in Hstep.
    destruct (is_error (error_ s)) eqn:He; simpl in Hstep.
    { injection Hstep as <-. exists s1. split; [by left|]. left.
      split; [done|]. split; [by eauto|]. intros _. right.
      by apply is_error_true. }
    apply is_error_false in He.
    destruct (is_error error) eqn:Herr; simpl in Hstep.
    + apply is_error_true in Herr.
      injection Hstep as <-. eexists. split; [right; done|]. left.
      split; [done|]. split; [by eauto|]. intros Heq.
      apply (f_equal error_) in Heq. simpl in Heq. congruence.
    + exists s1. split; [by left|]. right. exists fn. split; [done|]. right. done.
  - unfold run_task, EagerCallbackWrapper.entryPointFromLoop_ in Hstep.
    pose proof (eager_processError_cases s1 error) as Hcases. simpl in Hcases.
    eexists. split; [exact Hcases|]. right. exists fn. split; [done|by left].
Qed.

Lemma step_Complete_None (k : nat) (error : Error) (packet : Packet) (s : Impl) :
  inflight (connection_ s) !! k = None →
  step (Complete k error packet) s = Ok s.
Proof. intros Hk. unfold step. by rewrite Hk. Qed.

Lemma send_called_snoc (calls : list Invocation) i :
  send_called (calls ++ [i]) = send_called calls ++ send_called [i].
Proof. unfold send_called. by rewrite omap_app. Qed.

Lemma recv_called_snoc (calls : list Invocation) i :
  recv_called (calls ++ [i]) = recv_called calls ++ recv_called [i].
Proof. unfold recv_called. by rewrite omap_app. Qed.

(** A wrapped lambda moves a completion callback from the channel's list
    to the calls made, or leaves both alone. *)
Lemma apply_lambda_owed (fn : Lambda) (packet : Packet) (s s' : Impl) :
  apply_lambda fn packet s = Ok s' →
  send_owed s' ≡ₚ send_owed s ∧ recv_owed s' ≡ₚ recv_owed s ∧ channel s' = channel s.
Proof.
  destruct fn as [| |id|id]; simpl.
  - by intros [= <-].
  - intros (ops & -> & _)%onPacket_Ok. done.
  - intros (i & op & Hl & _ & _ & ->)%sendCompleted_Ok.
    unfold send_owed, recv_owed; simpl. split; [|split; [|done]].
    + rewrite send_called_snoc. simpl.
      rewrite (delete_Permutation (sendOperations_ s) i op Hl) at 2. simpl.
      rewrite app_assoc. symmetry. apply Permutation_cons_append.
    + rewrite recv_called_snoc. simpl. by rewrite app_nil_r.
  - intros (i & op & Hl & _ & _ & ->)%recvCompleted_Ok.
    unfold send_owed, recv_owed; simpl. split; [|split; [|done]].
    + rewrite send_called_snoc. simpl. by rewrite app_nil_r.
    + rewrite recv_called_snoc. simpl.
      rewrite (delete_Permutation (recvOperations_ s) i op Hl) at 2. simpl.
      rewrite app_assoc. symmetry. apply Permutation_cons_append.
Qed.

Lemma step_Complete_owed (k : nat) (error : Error) (packet : Packet) (s s' : Impl) :
  step (Complete k error packet) s = Ok s' →
  send_owed s' ≡ₚ send_owed s ∧ recv_owed s' ≡ₚ recv_owed s ∧ channel s' = channel s.
Proof.
  intros Hstep. destruct (inflight (connection_ s) !! k) as [op|] eqn:Hk.
  2:{ rewrite step_Complete_None in Hstep by done. by injection Hstep as <-. }
  destruct (step_Complete_Ok _ _ _ _ _ _ Hk Hstep) as (s2 & Hs2 & Hs').
  assert (send_owed s2 = send_owed s ∧ recv_owed s2 = recv_owed s
          ∧ channel s2 = channel s) as (Hsend & Hrecv & Hch).
  { by destruct Hs2 as [->|(-> & _)]. }
  destruct Hs' as [(-> & _)|(fn & Hfn & _)].
  - by rewrite Hsend, Hrecv, Hch.
  - apply apply_lambda_owed in Hfn. by rewrite <- Hsend, <- Hrecv, <- Hch.
Qed.

Lemma run_owed (events : list Event) (s s' : Impl) :
  run events s = Ok s' →
  send_owed s' ≡ₚ send_owed s ++ (if channel s then sends_accepted events else []) ∧
  recv_owed s' ≡ₚ recv_owed s ++ (if channel s then recvs_accepted events else []).
Proof.
  revert s. induction events as [|e events IH]; intros s Hrun; simpl in Hrun.
  { injection Hrun as <-. simpl. destruct (channel s); by rewrite !app_nil_r. }
  destruct (step e s) as [s1|] eqn:Hstep; [|done]. simpl in Hrun.
  destruct (IH _ Hrun) as [IHs IHr]. rewrite IHs, IHr. clear IH IHs IHr Hrun.
  destruct e as [ptr len dcb cb|d ptr len cb| | |k error packet]; simpl in Hstep.
  - destruct (channel s) eqn:Hch; injection Hstep as <-; simpl; [|by rewrite Hch].
    rewrite Hch. unfold send_owed, recv_owed. simpl.
    rewrite send_called_snoc, recv_called_snoc. simpl. rewrite !app_nil_r.
    split; [|done]. rewrite fmap_app. simpl. rewrite <- !app_assoc.
    apply Permutation_app_head. simpl. apply Permutation_middle.
  - destruct (channel s) eqn:Hch; injection Hstep as <-; simpl; [|by rewrite Hch].
    rewrite Hch. unfold send_owed, recv_owed. simpl.
    split; [done|]. rewrite fmap_app. simpl. rewrite <- !app_assoc.
    apply Permutation_app_head. simpl. apply Permutation_middle.
  - destruct (channel s) eqn:Hch; injection Hstep as <-; simpl; [|by rewrite Hch].
    unfold closeFromLoop_. destruct (is_error (error_ s)); simpl; by rewrite Hch.
  - destruct (channel s) eqn:Hch; injection Hstep as <-; simpl; [|by rewrite Hch].
    unfold closeFromLoop_. destruct (is_error (error_ s)); simpl; by rewrite !app_nil_r.
  - apply step_Complete_owed in Hstep as (Hs & Hr & Hch). by rewrite Hs, Hr, Hch.
Qed.

(** X4.  No completion callback is lost or duplicated: in every history of
    a channel that the channel survives, the callbacks the user has passed
    to [send] while the [Channel] existed are, counted with repetition,
    those the channel still holds in [sendOperations_] together with those
    it has called; likewise for [recv] and [recvOperations_]. *)
Theorem completion_callbacks_conserved (events : list Event) (s : Impl) :
  run events create = Ok s →
  (SendOperation.callback <$> sendOperations_ s) ++ send_called (called s)
    ≡ₚ sends_accepted events ∧
  (RecvOperation.callback <$> recvOperations_ s) ++ recv_called (called s)
    ≡ₚ recvs_accepted events.
Proof.
  intros Hrun. apply run_owed in Hrun as [Hs Hr]. split.
  - exact Hs.
  - exact Hr.
Qed.

(** *** The packet pump *)

Lemma filter_delete_length {A : Type} (P : A → Prop) `{!∀ x, Decision (P x)}
    (l : list A) (k : nat) (x : A) :
  l !! k = Some x →
  length (filter P l)
  = (length (filter P (delete k l)) + (if decide (P x) then 1 else 0))%nat.
Proof.
  intros Hk. rewrite (delete_Permutation l k x Hk) at 1.
  rewrite filter_cons. destruct (decide (P x)); simpl; lia.
Qed.

Lemma packet_reads_called_back (k : nat) (s : Impl) op :
  inflight (connection_ s) !! k = Some op →
  packet_reads s
  = (packet_reads (set_connection (called_back k (connection_ s)) s)
     + (if is_packet_read op then 1 else 0))%nat.
Proof.
  intros Hk. unfold packet_reads. simpl.
  rewrite (filter_delete_length _ _ k op Hk).
  destruct (is_packet_read op); by case_decide.
Qed.

Lemma packet_reads_none (ops : list Operation) :
  Forall (fun op => is_packet_read op = false) ops →
  filter (fun op => is_packet_read op = true) ops = [].
Proof.
  induction 1 as [|op ops Hop _ IH]; [done|].
  rewrite filter_cons. case_decide; [congruence|done].
Qed.

Lemma Pumping_ext (s s' : Impl) :
  connection_ s' = connection_ s → error_ s' = error_ s → channel s' = channel s →
  Pumping s → Pumping s'.
Proof.
  intros Hc He Hch [H1 H2 H3 H4 H5].
  split; unfold packet_reads in *; rewrite ?Hc, ?He, ?Hch; done.
Qed.

Lemma Pumping_error (e : Error) (s : Impl) :
  e ≠ kSuccess →
  Forall submitted_by_channel (inflight (connection_ s)) →
  (packet_reads s ≤ 1)%nat →
  Pumping (handleError_ (set_error e s)).
Proof. intros He Hops Hmost. split; simpl; try done. Qed.

Lemma Pumping_closeFromLoop_ (s : Impl) :
  Pumping s → Pumping (closeFromLoop_ s) ∧ error_ (closeFromLoop_ s) ≠ kSuccess.
Proof.
  intros Hinv. unfold closeFromLoop_. destruct (is_error (error_ s)) eqn:He.
  - split; [done|]. by apply is_error_true.
  - split; [|done]. apply Pumping_error; [done|apply Hinv..].
Qed.

Lemma Pumping_submit (op : Operation) (s : Impl) :
  submitted_by_channel op → is_packet_read op = false →
  Pumping s → Pumping (connection_submit op s).
Proof.
  intros Hop Hno [H1 H2 H3 H4 H5].
  assert (packet_reads (connection_submit op s) = packet_reads s) as Hreads.
  { unfold packet_reads. simpl. rewrite filter_app, length_app.
    rewrite (packet_reads_none [op]) by (by constructor). simpl. lia. }
  split; rewrite ?Hreads; simpl; try done.
  apply Forall_app. split; [done|by constructor].
Qed.

Lemma Pumping_Complete (k : nat) (error : Error) (packet : Packet) (s s' : Impl) :
  Pumping s → step (Complete k error packet) s = Ok s' → Pumping s'.
Proof.
  intros Hinv Hstep. destruct (inflight (connection_ s) !! k) as [op|] eqn:Hk.
  2:{ rewrite step_Complete_None in Hstep by done. by injection Hstep as <-. }
  destruct (step_Complete_Ok _ _ _ _ _ _ Hk Hstep) as (s2 & Hs2 & Hs').
  set (s1 := set_connection (called_back k (connection_ s)) s) in *.
  pose proof (packet_reads_called_back k s op Hk) as Hreads. fold s1 in Hreads.
  assert (Forall submitted_by_channel (inflight (connection_ s1))) as Hops1.
  { simpl. apply Forall_delete, Hinv. }
  assert (submitted_by_channel op) as Hop.
  { eapply Forall_lookup_1; [apply Hinv|done]. }
  assert (packet_reads s1 ≤ 1)%nat as Hmost1.
  { destruct Hinv as [_ _ Hmost _ _]. lia. }
  assert (is_packet_read op = false ∨ error_ s ≠ kSuccess → Pumping s1) as Hs1.
  { intros Hcase. destruct Hinv as [H1 H2 H3 H4 H5]. split; try done.
    intros He. destruct Hcase as [Hno|?]; [|done].
    rewrite Hno in Hreads. specialize (H4 He). lia. }
  assert (error ≠ kSuccess → Pumping (handleError_ (set_error error s1))) as Herr.
  { intros. by apply Pumping_error. }
  destruct Hs' as [(-> & _ & Hskip)|(fn & Hfn & [Heager|(Hlazy & -> & He)])].
  - destruct Hs2 as [->|(-> & _ & Hne)]; [|by apply Herr].
    apply Hs1. right. destruct (Hskip eq_refl) as [Hcount|?]; [|done].
    apply Hinv. unfold use_count in Hcount. simpl in Hcount.
    destruct (channel s); [lia|done].
  - assert (is_packet_read op = false ∧
            ∃ id, fn = LambdaSendCompleted id ∨ fn = LambdaRecvCompleted id)
      as (Hno & id & Hid).
    { destruct op; simpl in *; try congruence; destruct Hop as [id Hop];
        split; try done; exists id; [right|left]; congruence. }
    assert (Pumping s2) as Hinv2.
    { destruct Hs2 as [->|(-> & _ & Hne)]; [apply Hs1; by left|by apply Herr]. }
    destruct Hid as [-> | ->]; simpl in Hfn.
    + apply sendCompleted_Ok in Hfn as (i & sop & _ & _ & _ & ->).
      by apply (Pumping_ext s2).
    + apply recvCompleted_Ok in Hfn as (i & rop & _ & _ & _ & ->).
      by apply (Pumping_ext s2).
  - destruct op; simpl in *; try (destruct Hop; congruence).
    + assert (fn = LambdaOnPacket) as -> by congruence. simpl in Hfn.
      apply onPacket_Ok in Hfn as (ops & -> & Hsub & Hno).
      assert (packet_reads s1 = 0%nat) as Hzero.
      { destruct Hinv as [_ _ _ Harmed _]. specialize (Harmed He). lia. }
      assert (∀ c', packet_reads
                (set_connection
                   {| inflight := inflight (connection_ s1) ++ ops
                                    ++ [ReadPacket (Lazy LambdaOnPacket)];
                      closed := c' |} s1) = 1%nat) as Hone.
      { intros c'. unfold packet_reads in *. simpl in *.
        rewrite !filter_app, !length_app, Hzero, (packet_reads_none ops) by done.
        done. }
      destruct Hinv as [H1 H2 H3 H4 H5]. split; rewrite ?Hone; simpl; try done.
      apply Forall_app. split; [done|]. apply Forall_app. split; [done|].
      by constructor.
    + assert (fn = LambdaNop) as -> by congruence. simpl in Hfn.
      injection Hfn as <-. apply Hs1. by left.
Qed.

Lemma Pumping_step (e : Event) (s s' : Impl) :
  Pumping s → step e s = Ok s' → Pumping s'.
Proof.
  intros Hinv Hstep.
  destruct e as [ptr len dcb cb|d ptr len cb| | |k error packet].
  - simpl in Hstep. destruct (channel s); injection Hstep as <-; [|done].
    by apply (Pumping_ext s).
  - simpl in Hstep. destruct (channel s); injection Hstep as <-; [|done].
    unfold recvFromLoop_. apply Pumping_submit; [done..|]. by apply (Pumping_ext s).
  - simpl in Hstep. destruct (channel s); injection Hstep as <-; [|done].
    by apply Pumping_closeFromLoop_.
  - simpl in Hstep. destruct (channel s); injection Hstep as <-; [|done].
    destruct (Pumping_closeFromLoop_ s Hinv) as [[H1 H2 H3 H4 H5] Hne].
    split; simpl; done.
  - by apply (Pumping_Complete k error packet s).
Qed.

Lemma Pumping_create : Pumping create.
Proof.
  split; simpl; try done. repeat constructor.
Qed.

Lemma Pumping_run (events : list Event) (s s' : Impl) :
  Pumping s → run events s = Ok s' → Pumping s'.
Proof.
  revert s. induction events as [|e events IH]; intros s Hinv Hrun; simpl in Hrun.
  { by injection Hrun as <-. }
  destruct (step e s) as [s1|] eqn:Hstep; [|done]. simpl in Hrun.
  apply (IH s1); [|done]. by apply (Pumping_step e s).
Qed.


(** X6.  In every history of a channel, the channel is in the error state
    exactly when it has closed its connection, and a channel whose
    [Channel] object is gone is in the error state: what the transport
    still calls back finds the first error set. *)
Theorem error_state_iff_connection_closed (events : list Event) (s : Impl) :
  run events create = Ok s →
  (error_ s ≠ kSuccess ↔ closed (connection_ s) = true) ∧
  (channel s = false → error_ s ≠ kSuccess).
Proof.
  intros Hrun. destruct (Pumping_run events create s Pumping_create Hrun)
    as [Hdestroyed _ _ _ Hclosed].
  done.
Qed.

(** *** Identifiers and operations *)

Lemma StronglySorted_delete {A : Type} (R : relation A) (l : list A) (i : nat) :
  StronglySorted R l → StronglySorted R (delete i l).
Proof.
  revert i. induction l as [|x l IH]; intros [|i] Hs; simpl; try done.
  - by apply StronglySorted_cons in Hs as [_ Hs].
  - apply StronglySorted_cons in Hs as [Hall Hs]. apply StronglySorted_cons.
    split; [by apply Forall_delete|by apply IH].
Qed.

Lemma StronglySorted_lookup_lt (l : list Z) (j i : nat) (a b : Z) :
  StronglySorted Z.lt l → l !! j = Some a → l !! i = Some b → (j < i)%nat → a < b.
Proof.
  revert j i. induction l as [|x l IH]; intros j i Hs Hj Hi Hlt; [done|].
  apply StronglySorted_cons in Hs as [Hall Hs].
  destruct i as [|i]; [lia|]. simpl in Hi. destruct j as [|j]; simpl in Hj.
  - injection Hj as ->. apply (proj1 (Forall_forall _ _) Hall).
    by apply list_elem_of_lookup_2 with i.
  - apply (IH j i); [done..|lia].
Qed.

(** In a list of operations with increasing identifiers, looking an
    identifier up finds the one operation that has it. *)
Lemma list_find_sorted_id (ops : list SendOperation.t) (i : nat) op :
  StronglySorted Z.lt (SendOperation.id <$> ops) →
  ops !! i = Some op →
  list_find (fun o => SendOperation.id o = SendOperation.id op) ops = Some (i, op) ∧
  (∀ j o, ops !! j = Some o → SendOperation.id o = SendOperation.id op → j = i).
Proof.
  intros Hs Hi.
  assert (∀ j o, ops !! j = Some o → SendOperation.id o = SendOperation.id op → j = i)
    as Huniq.
  { intros j o Hj Heq.
    assert ((SendOperation.id <$> ops) !! j = Some (SendOperation.id o)) as Hj'.
    { by rewrite list_lookup_fmap, Hj. }
    assert ((SendOperation.id <$> ops) !! i = Some (SendOperation.id op)) as Hi'.
    { by rewrite list_lookup_fmap, Hi. }
    destruct (lt_eq_lt_dec j i) as [[Hlt|?]|Hlt]; [|done|].
    - pose proof (StronglySorted_lookup_lt _ _ _ _ _ Hs Hj' Hi' Hlt). lia.
    - pose proof (StronglySorted_lookup_lt _ _ _ _ _ Hs Hi' Hj' Hlt). lia. }
  split; [|done]. apply list_find_Some. split; [done|]. split; [done|].
  intros j o Hj Hlt Heq. specialize (Huniq j o Hj Heq). lia.
Qed.

Lemma Numbered_ext (n : Z) (s s' : Impl) :
  id_ s' = id_ s → sendOperations_ s' = sendOperations_ s →
  Numbered n s → Numbered n s'.
Proof. intros Hid Hops [H1 H2 H3]. split; rewrite ?Hid, ?Hops; done. Qed.

Lemma Numbered_mono (n m : Z) (s : Impl) : n ≤ m → Numbered n s → Numbered m s.
Proof. intros Hle [H1 H2 H3]. split; [lia|done..]. Qed.

Lemma Numbered_apply_lambda (fn : Lambda) (packet : Packet) (n : Z) (s s' : Impl) :
  Numbered n s → apply_lambda fn packet s = Ok s' → Numbered n s'.
Proof.
  intros Hinv. destruct fn as [| |id|id]; simpl.
  - by intros [= <-].
  - intros (ops & -> & _)%onPacket_Ok. by apply (Numbered_ext n s).
  - intros (i & op & _ & _ & _ & ->)%sendCompleted_Ok.
    destruct Hinv as [H1 H2 H3]. split; simpl; [done| |by apply Forall_delete].
    rewrite list_fmap_delete. by apply StronglySorted_delete.
  - intros (i & op & _ & _ & _ & ->)%recvCompleted_Ok. by apply (Numbered_ext n s).
Qed.

Lemma Numbered_sendFromLoop_ (ptr length : Z) (dcb cb : UserCallback) (n : Z) (s : Impl) :
  n + 1 < two64 → Numbered n s →
  Numbered (n + 1) (sendFromLoop_ ptr length dcb cb s).
Proof.
  intros Hn [H1 H2 H3]. unfold sendFromLoop_. split; simpl.
  - unfold to_uint64. rewrite Z.mod_small by (unfold two64 in *; lia). lia.
  - rewrite fmap_app. apply StronglySorted_app_2; [|done|repeat constructor].
    intros x1 x2 Hx1 Hx2. simpl in Hx2. apply list_elem_of_singleton in Hx2 as ->.
    apply list_elem_of_fmap in Hx1 as (op & -> & Hop).
    pose proof (proj1 (Forall_forall _ _) H3 op Hop) as Hlt. simpl in Hlt. lia.
  - unfold to_uint64. rewrite Z.mod_small by (unfold two64 in *; lia).
    apply Forall_app. split.
    + eapply Forall_impl; [exact H3|]. simpl. lia.
    + repeat constructor; simpl; lia.
Qed.

Lemma Numbered_step (e : Event) (n : Z) (s s' : Impl) :
  n + 1 < two64 → Numbered n s → step e s = Ok s' → Numbered (n + 1) s'.
Proof.
  intros Hn Hinv Hstep.
  assert (Numbered (n + 1) s) as Hinv' by (apply (Numbered_mono n); [lia|done]).
  destruct e as [ptr len dcb cb|d ptr len cb| | |k error packet]; simpl in Hstep.
  - destruct (channel s); injection Hstep as <-; [|done].
    by apply Numbered_sendFromLoop_.
  - destruct (channel s); injection Hstep as <-; [|done].
    by apply (Numbered_ext _ s).
  - destruct (channel s); injection Hstep as <-; [|done].
    apply (Numbered_ext _ s); [| |done]; unfold closeFromLoop_;
      by destruct (is_error (error_ s)).
  - destruct (channel s); injection Hstep as <-; [|done].
    apply (Numbered_ext _ s); [| |done]; unfold closeFromLoop_;
      by destruct (is_error (error_ s)).
  - destruct (inflight (connection_ s) !! k) as [op|] eqn:Hk.
    2:{ by injection Hstep as <-. }
    assert (step (Complete k error packet) s = Ok s') as Hstep'.
    { simpl. by rewrite Hk. }
    destruct (step_Complete_Ok _ _ _ _ _ _ Hk Hstep') as (s2 & Hs2 & Hs').
    assert (Numbered (n + 1) s2) as Hinv2.
    { destruct Hs2 as [->|(-> & _)]; by apply (Numbered_ext _ s). }
    destruct Hs' as [(-> & _)|(fn & Hfn & _)]; [done|].
    by apply (Numbered_apply_lambda fn packet _ s2).
Qed.

Lemma Numbered_run (events : list Event) (n : Z) (s s' : Impl) :
  n + Z.of_nat (length events) < two64 → Numbered n s →
  run events s = Ok s' → Numbered (n + Z.of_nat (length events)) s'.
Proof.
  revert n s. induction events as [|ev events IH]; intros n s Hn Hinv; simpl.
  - intros [= <-]. by rewrite Z.add_0_r.
  - destruct (step ev s) as [s1|] eqn:Hstep; [|done]. simpl. intros Hrun.
    simpl in Hn.
    replace (n + Z.of_nat (S (length events)))
      with ((n + 1) + Z.of_nat (length events)) in * by lia.
    apply (IH (n + 1) s1); [lia| |done].
    apply (Numbered_step ev n s); [lia|done..].
Qed.

Lemma Numbered_create : Numbered 0 create.
Proof. split; simpl; [lia|constructor..]. Qed.

(** X7.  On a channel that has seen fewer than 2^64 events an identifier
    names one outstanding send: the identifiers in [sendOperations_]
    increase along the list and are below [id_]; a request for the
    identifier of an outstanding send announces the payload and writes
    that send's buffer, and [sendCompleted] with the identifier removes
    that send, and no other, and calls its callback with the channel's
    error. *)
Theorem operation_id_names_one_send
    (events : list Event) (s : Impl) (i : nat) (op : SendOperation.t) :
  run events create = Ok s → Z.of_nat (length events) < two64 →
  sendOperations_ s !! i = Some op →
  0 ≤ SendOperation.id op < id_ s ∧
  (∀ j op', sendOperations_ s !! j = Some op' →
            ((j < i)%nat ↔ SendOperation.id op' < SendOperation.id op)) ∧
  onRequest_ (SendOperation.id op) s
    = Ok (connection_submit
            (WriteBytes (SendOperation.ptr op) (SendOperation.length op)
               (Eager (LambdaSendCompleted (SendOperation.id op))))
            (connection_submit
               (WritePacket (Reply (SendOperation.id op)) (Lazy LambdaNop)) s)) ∧
  sendCompleted (SendOperation.id op) s
    = Ok (invoke (SendCallback (SendOperation.callback op) (error_ s))
            (set_sendOperations (delete i (sendOperations_ s)) s)).
Proof.
  intros Hrun Hlen Hi.
  assert (Numbered (0 + Z.of_nat (length events)) s) as [Hid Hsorted Hbelow].
  { apply (Numbered_run events 0 create); [lia|apply Numbered_create|done]. }
  destruct (list_find_sorted_id _ i op Hsorted Hi) as [Hfind Huniq].
  split; [|split; [|split]].
  - apply (proj1 (Forall_forall _ _) Hbelow op). by apply list_elem_of_lookup_2 with i.
  - intros j op' Hj.
    assert ((SendOperation.id <$> sendOperations_ s) !! j = Some (SendOperation.id op'))
      as Hj' by (by rewrite list_lookup_fmap, Hj).
    assert ((SendOperation.id <$> sendOperations_ s) !! i = Some (SendOperation.id op))
      as Hi' by (by rewrite list_lookup_fmap, Hi).
    split.
    + intros Hlt. by apply (StronglySorted_lookup_lt _ j i _ _ Hsorted).
    + intros Hlt. destruct (lt_eq_lt_dec j i) as [[?|Heq]|Hgt]; [done| |].
      * subst j. rewrite Hj in Hi. injection Hi as ->. lia.
      * pose proof (StronglySorted_lookup_lt _ i j _ _ Hsorted Hi' Hj' Hgt). lia.
  - unfold onRequest_. by rewrite Hfind.
  - unfold sendCompleted. by rewrite Hfind.
Qed.

(** X8.  Identifiers of recvs come from the peer's descriptors and may
    repeat.  A reply is matched with the oldest outstanding recv that has
    its identifier: the payload is read into that recv's buffer, and
    [recvCompleted] removes that recv and calls its callback with the
    channel's error, leaving later recvs with the same identifier in
    place. *)
Theorem reply_serves_oldest_recv
    (s : Impl) (older newer : list RecvOperation.t) (op : RecvOperation.t) :
  recvOperations_ s = older ++ op :: newer →
  Forall (fun o => RecvOperation.id o ≠ RecvOperation.id op) older →
  onReply_ (RecvOperation.id op) s
    = Ok (connection_submit
            (ReadBytes (RecvOperation.ptr op) (RecvOperation.length op)
               (Eager (LambdaRecvCompleted (RecvOperation.id op)))) s) ∧
  recvCompleted (RecvOperation.id op) s
    = Ok (invoke (RecvCallback (RecvOperation.callback op) (error_ s))
            (set_recvOperations (older ++ newer) s)).
Proof.
  intros Hops Holder.
  assert (list_find (fun o => RecvOperation.id o = RecvOperation.id op)
            (recvOperations_ s) = Some (length older, op)) as Hfind.
  { apply list_find_Some. rewrite Hops. split; [|split; [done|]].
    - by rewrite list_lookup_middle.
    - intros j o Hj Hlt. rewrite lookup_app_l in Hj by done.
      apply (proj1 (Forall_forall _ _) Holder o). by apply list_elem_of_lookup_2 with j. }
  unfold onReply_, recvCompleted. rewrite Hfind. split; [done|].
  rewrite Hops. by rewrite delete_middle.
Qed.

End ChannelHistoryFacts.

Lemma completion_callbacks_conserved_witness :
  BasicChannel.run ChannelHistory.exchange BasicChannel.create
    = Ok ChannelHistory.exchanged ∧
  (BasicChannel.SendOperation.callback
     <$> BasicChannel.sendOperations_ ChannelHistory.exchanged)
    ++ ChannelHistory.send_called (BasicChannel.called ChannelHistory.exchanged)
    ≡ₚ [2%nat; 4%nat].
Proof.
  split; [reflexivity|].
  apply (completion_callbacks_conserved ChannelHistory.exchange ChannelHistory.exchanged).
  reflexivity.
Defined.


Lemma error_state_iff_connection_closed_witness :
  BasicChannel.run [BasicChannel.CallClose] BasicChannel.closed_after_send
    = Ok BasicChannel.closed_after_send ∧
  BasicChannel.error_ BasicChannel.closed_after_send ≠ kSuccess.
Proof.
  split; [reflexivity|].
  destruct (error_state_iff_connection_closed
              [BasicChannel.CallSend 4096 5 1%nat 2%nat; BasicChannel.CallClose]
              BasicChannel.closed_after_send eq_refl) as [Hiff _].
  apply Hiff. reflexivity.
Defined.

Lemma operation_id_names_one_send_witness :
  BasicChannel.sendOperations_ ChannelHistory.exchanged !! 1%nat
    = Some (BasicChannel.SendOperation.mk 1 4100 7 4%nat) ∧
  BasicChannel.sendCompleted 1 ChannelHistory.exchanged
    = Ok (BasicChannel.invoke (BasicChannel.SendCallback 4%nat kSuccess)
            (BasicChannel.set_sendOperations
               [BasicChannel.SendOperation.mk 0 4096 5 2%nat]
               ChannelHistory.exchanged)).
Proof.
  split; [reflexivity|].
  apply (operation_id_names_one_send ChannelHistory.exchange ChannelHistory.exchanged
           1%nat (BasicChannel.SendOperation.mk 1 4100 7 4%nat));
    reflexivity.
Defined.

Lemma reply_serves_oldest_recv_witness :
  BasicChannel.recvCompleted 7 ChannelHistory.twice_requested
  = Ok (BasicChannel.invoke (BasicChannel.RecvCallback 6%nat kSuccess)
          (BasicChannel.set_recvOperations
             [BasicChannel.RecvOperation.mk 3 8100 5 5%nat;
              BasicChannel.RecvOperation.mk 7 8200 5 7%nat]
             ChannelHistory.twice_requested)).
Proof.
  apply (reply_serves_oldest_recv ChannelHistory.twice_requested
           [BasicChannel.RecvOperation.mk 3 8100 5 5%nat]
           [BasicChannel.RecvOperation.mk 7 8200 5 7%nat]
           (BasicChannel.RecvOperation.mk 7 8192 5 6%nat)).
  - reflexivity.
  - repeat constructor. simpl. lia.
Defined.

(** ** The history of a CMA context *)

Section CmaHistoryFacts.
Import Cma CmaHistory.

Ltac unfold_cma :=
  unfold join, close, requestCopy, push, queue_push,
    handleCopyRequests_iteration, queue_pop in *; simpl in *.

Lemma tombstones_push (x : option CopyRequest) (s : Impl) :
  tombstones (push x s)
  = (tombstones s + (if is_tombstone x then 1 else 0))%nat.
Proof.
  unfold tombstones, push, queue_push. simpl. rewrite filter_app, length_app.
  destruct x; simpl; lia.
Qed.

Lemma live_push_open (x : option CopyRequest) (s : Impl) :
  tombstones s = 0%nat →
  live (push x s) = live s ++ match x with Some request => [request] | None => [] end.
Proof.
  unfold tombstones, live, push, queue_push. simpl. intros Hzero.
  destruct (exited s); [lia|].
  assert (Datatypes.length (filter (fun x => is_tombstone x = true) (requests_ s)) = 0%nat)
    as Hnone by lia.
  clear Hzero. revert Hnone.
  induction (requests_ s) as [|[request|] q IH]; simpl; intros Hnone.
  - by destruct x.
  - by rewrite IH.
  - lia.
Qed.

Lemma live_push_closed (x : option CopyRequest) (s : Impl) :
  tombstones s = 1%nat → live (push x s) = live s.
Proof.
  unfold tombstones, live, push, queue_push. simpl. intros Hone.
  destruct (exited s); [done|].
  assert (Datatypes.length (filter (fun x => is_tombstone x = true) (requests_ s)) = 1%nat)
    as Hsome by lia.
  clear Hone. revert Hsome.
  induction (requests_ s) as [|[request|] q IH]; simpl; intros Hsome.
  - done.
  - by rewrite IH.
  - done.
Qed.

Lemma Queued_initial : Queued initial.
Proof. split; simpl; [done..|constructor]. Qed.

(** One action: the invariant is kept, and the requests copied or still to
    be served grow by the request made, if the context is open. *)
Lemma Queued_step (s : Impl) (a : Action) :
  Queued s →
  Queued (step s a) ∧
  copied (step s a) ++ live (step s a)
  = copied s ++ live s
    ++ (if closed_ s then []
        else match a with RequestCopy request => [request] | _ => [] end) ∧
  closed_ (step s a)
  = closed_ s || match a with Close | Join => true | _ => false end.
Proof.
  intros [Hem Htomb Hcalls].
  destruct a as [request| | |nread errno]; simpl.
  - unfold requestCopy. split; [|split].
    + split; simpl; [done| |done]. rewrite tombstones_push. simpl. lia.
    + simpl. destruct (closed_ s).
      * by rewrite live_push_closed, app_nil_r.
      * by rewrite live_push_open.
    + simpl. by rewrite orb_false_r.
  - unfold close. destruct (closed_ s) eqn:Hc; simpl.
    { split; [by split; rewrite ?Hc|]. by rewrite app_nil_r. }
    split; [|split; [|done]].
    + split; simpl; [lia| |done]. rewrite tombstones_push. simpl.
      unfold tombstones in *. simpl. lia.
    + simpl. rewrite live_push_open by done. simpl. by rewrite !app_nil_r.
  - unfold join, close. destruct (closed_ s) eqn:Hc; simpl.
    { rewrite Hc. split; [by split; simpl; rewrite ?Hc|]. by rewrite app_nil_r. }
    split; [|split; [|done]].
    + split; simpl; [lia| |done].
      pose proof (tombstones_push None
        {| requests_ := requests_ s; closed_ := true; joined_ := joined_ s;
           emitterClosed := S (emitterClosed s); exited := exited s;
           copied := copied s; called := called s |}) as Hpush.
      unfold tombstones in *. simpl in *. lia.
    + simpl.
      pose proof (live_push_open None
        {| requests_ := requests_ s; closed_ := true; joined_ := joined_ s;
           emitterClosed := S (emitterClosed s); exited := exited s;
           copied := copied s; called := called s |} Htomb) as Hpush.
      unfold live in *. simpl in *. rewrite Hpush. by rewrite !app_nil_r.
  - rewrite orb_false_r.
    assert (copied s ++ live s ++ (if closed_ s then [] else []) = copied s ++ live s)
      as -> by (destruct (closed_ s); by rewrite app_nil_r).
    unfold handleCopyRequests_iteration. destruct (exited s) eqn:Hex.
    { split; [by split|done]. }
    destruct (requests_ s) as [|[request|] rest] eqn:Hq; simpl.
    + split; [by split|done].
    + split; [|split; [|done]].
      * split; simpl; [done| |].
        -- unfold tombstones in *. simpl. rewrite Hq, Hex in Htomb.
           rewrite filter_cons in Htomb. simpl in Htomb. lia.
        -- apply Forall2_app; [done|]. repeat constructor. simpl. eauto.
      * unfold live. simpl. rewrite Hex, Hq. simpl. by rewrite <- app_assoc.
    + split; [|split; [|done]].
      * split; simpl; [done| |done].
        unfold tombstones in *. simpl. rewrite Hq, Hex in Htomb.
        rewrite filter_cons in Htomb. simpl in Htomb. lia.
      * unfold live. simpl. by rewrite Hex, Hq.
Qed.

Lemma Queued_run (schedule : list Action) (s : Impl) :
  Queued s →
  Queued (run s schedule) ∧
  copied (run s schedule) ++ live (run s schedule)
  = copied s ++ live s
    ++ (if closed_ s then [] else requested_before_close schedule).
Proof.
  revert s. induction schedule as [|a schedule IH]; intros s Hinv.
  { simpl. split; [done|]. destruct (closed_ s); by rewrite app_nil_r. }
  destruct (Queued_step s a Hinv) as (Hinv' & Hserved & Hclosed).
  destruct (IH (step s a) Hinv') as [Hinv'' Hrun].
  change (run s (a :: schedule)) with (run (step s a) schedule).
  split; [done|]. rewrite Hrun, app_assoc, Hserved, Hclosed. rewrite <- !app_assoc.
  destruct (closed_ s); simpl; [by destruct a|].
  destruct a; simpl; by rewrite ?app_nil_r.
Qed.

(** X9.  In every history of a CMA context the worker serves the requests
    made before the first [close()] or [join()], in the order they were
    made, and no others: the requests it has handed to [process_vm_readv],
    followed by those it will still serve, are those requests; and it has
    called back each request it has copied, once and in the same order,
    with the error of that copy. *)
Theorem worker_serves_requests_before_close_in_order (schedule : list Action) :
  copied (run initial schedule) ++ live (run initial schedule)
    = requested_before_close schedule ∧
  Forall2 answers (copied (run initial schedule)) (called (run initial schedule)).
Proof.
  destruct (Queued_run schedule initial Queued_initial) as [[_ _ Hcalls] Hserved].
  split; [|done]. by rewrite Hserved.
Qed.

(** X10.  [close()] takes effect once: however often [close()] and
    [join()] are called, and from whichever threads, the closing emitter is
    closed once and one tombstone is pushed, and none before the first
    call. *)
Theorem close_takes_effect_once (schedule : list Action) :
  emitterClosed (run initial schedule)
    = (if closed_ (run initial schedule) then 1%nat else 0%nat) ∧
  tombstones (run initial schedule)
    = (if closed_ (run initial schedule) then 1%nat else 0%nat).
Proof.
  destruct (Queued_run schedule initial Queued_initial) as [[Hem Htomb _] _].
  done.
Qed.

Lemma exited_run (after : list Action) (s : Impl) :
  exited s = true →
  exited (run s after) = true ∧ copied (run s after) = copied s.
Proof.
  revert s. induction after as [|a after IH]; intros s Hex; [done|].
  change (run s (a :: after)) with (run (step s a) after).
  assert (exited (step s a) = true ∧ copied (step s a) = copied s) as [Hex' Hco].
  { destruct a; simpl; unfold_cma; rewrite ?Hex; try done;
      by destruct (closed_ s). }
  destruct (IH _ Hex') as [? Hrun]. by rewrite Hrun, Hco.
Qed.

(** An action brings a closed context's worker nearer to its return. *)
Lemma worker_progress (s : Impl) (a : Action) (n : nat) :
  Queued s → closed_ s = true →
  (Datatypes.length (live s) < iterations (a :: []) + n)%nat →
  exited (step s a) = true ∨ (Datatypes.length (live (step s a)) < n)%nat.
Proof.
  intros Hinv Hc Hlt.
  destruct (Queued_step s a Hinv) as (_ & Hserved & _). rewrite Hc in Hserved.
  rewrite app_nil_r in Hserved.
  destruct Hinv as [_ Htomb _]. rewrite Hc in Htomb. unfold tombstones in Htomb.
  destruct a as [request| | |nread errno]; simpl in *.
  - right. apply app_inv_head in Hserved. by rewrite Hserved.
  - right. unfold close in *. rewrite Hc in *. done.
  - right. unfold join, close in *. rewrite Hc in *. done.
  - unfold live, handleCopyRequests_iteration in *.
    destruct (exited s) eqn:Hex; [by left|].
    destruct (requests_ s) as [|[request|] rest] eqn:Hq; simpl in *.
    + lia.
    + right. lia.
    + by left.
Qed.

Lemma worker_drains (after : list Action) (s : Impl) :
  Queued s → closed_ s = true →
  (Datatypes.length (live s) < iterations after)%nat →
  exited (run s after) = true ∧ copied (run s after) = copied s ++ live s.
Proof.
  revert s. induction after as [|a after IH]; intros s Hinv Hc Hlt.
  { simpl in Hlt. lia. }
  change (run s (a :: after)) with (run (step s a) after).
  destruct (Queued_step s a Hinv) as (Hinv' & Hserved & Hc'). rewrite Hc in *.
  rewrite app_nil_r in Hserved. simpl in Hc'.
  destruct (worker_progress s a (iterations after) Hinv Hc) as [Hex|Hlt'].
  { destruct a; simpl in *; lia. }
  - destruct (exited_run after _ Hex) as [Hex' Hco]. split; [done|].
    rewrite Hco, <- Hserved. unfold live. by rewrite Hex, app_nil_r.
  - destruct (IH _ Hinv' Hc' Hlt') as [Hex' Hco]. split; [done|].
    by rewrite Hco, Hserved.
Qed.

(** X11.  After [close()] the worker returns: in any continuation of a
    history that has closed the context, whatever else is called, the
    worker has returned from [handleCopyRequests_] once it has made more
    iterations than there were requests in front of the tombstone; by then
    it has copied and called back exactly the requests made before the
    first [close()], in order.  So [join()] does not wait for ever. *)
Theorem worker_returns_after_close (schedule after : list Action) :
  closed_ (run initial schedule) = true →
  (Datatypes.length (live (run initial schedule)) < iterations after)%nat →
  exited (run (run initial schedule) after) = true ∧
  copied (run (run initial schedule) after) = requested_before_close schedule ∧
  Forall2 answers (requested_before_close schedule)
    (called (run (run initial schedule) after)).
Proof.
  intros Hc Hlt.
  destruct (Queued_run schedule initial Queued_initial) as [Hinv Hserved].
  simpl in Hserved.
  destruct (worker_drains after _ Hinv Hc Hlt) as [Hex Hco].
  rewrite Hserved in Hco. split; [done|]. split; [done|].
  destruct (Queued_run after _ Hinv) as [[_ _ Hcalls] _]. by rewrite Hco in Hcalls.
Qed.

End CmaHistoryFacts.

Lemma worker_returns_after_close_witness :
  Cma.exited (Cma.run (Cma.run Cma.initial CmaHistory.two_then_close)
                [Cma.Worker 16 0; Cma.Join; Cma.Worker 0 0]) = true ∧
  Cma.called (Cma.run (Cma.run Cma.initial CmaHistory.two_then_close)
                [Cma.Worker 16 0; Cma.Join; Cma.Worker 0 0])
  = [(1%nat, kSuccess); (2%nat, kSuccess)].
Proof.
  destruct (worker_returns_after_close CmaHistory.two_then_close
              [Cma.Worker 16 0; Cma.Join; Cma.Worker 0 0]) as (Hex & _ & _).
  - reflexivity.
  - apply Nat.ltb_lt. reflexivity.
  - split; [exact Hex|reflexivity].
Defined.

(** ** The history of an epoll loop *)

Section ShmLoopHistoryFacts.
Import ShmLoop.

Lemma interest_counted (interest : gmap nat Z) (handlers : list WeakHandler) :
  (∀ fd, is_Some (interest !! fd) → ∃ h, handlers !! fd = Some (Weak h)) →
  (size interest ≤ initialised handlers)%nat.
Proof.
  revert handlers.
  induction interest as [|fd events interest Hfd IH] using map_ind;
    intros handlers Hslots.
  { rewrite map_size_empty. lia. }
  rewrite map_size_insert_None by done.
  destruct (Hslots fd) as [h Hh]; [by rewrite lookup_insert_eq|].
  pose proof (initialised_insert handlers fd (Weak h) Uninitialized Hh) as Hins.
  specialize (IH (<[fd := Uninitialized]> handlers)).
  simpl in Hins. etrans; [apply le_n_S, IH|lia].
  intros fd' Hfd'. assert (fd' ≠ fd) as Hne by (intros ->; rewrite Hfd in Hfd'; by destruct Hfd').
  rewrite list_lookup_insert_ne by done. apply Hslots.
  by rewrite lookup_insert_ne.
Qed.

(** X12.  The handler table and the kernel.  In every sequence of calls
    on a loop (each call of [registerDescriptor] and
    [unregisterDescriptor] taken as a whole, whether it returns or
    throws), steps of its thread and runs of its reactor: every
    descriptor in the interest list of epoll is open, supports epoll and
    has a handler in its slot of [handlers_]; [handlerCount_] is the
    number of slots that hold a handler, hence at least the number of
    descriptors in the interest list.  The converse fails after a
    registration that the kernel refuses: [registerDescriptor] throws
    with the handler in the slot, and counted, and the descriptor not in
    the interest list. *)
Theorem handlers_agree_with_epoll
    (kinds : nat → FileKind) (eventFd : nat) (schedule : list Action) :
  let s := run (initial kinds eventFd) schedule in
  (∀ fd, is_Some (interest s !! fd) →
         files s fd = Pollable ∧ ∃ h, handlers_ s !! fd = Some (Weak h)) ∧
  handlerCount_ s = Z.of_nat (initialised (handlers_ s)) ∧
  Z.of_nat (size (interest s)) ≤ handlerCount_ s ∧
  (∀ fd events h,
     files s fd ≠ Pollable →
     let s1 := step s (Register fd events h) in
     registerDescriptor fd events h s
     = Throws (SystemException (match files s fd with
                                | NotOpen => EBADF
                                | _ => EPERM
                                end)) s1 ∧
     handlers_ s1 !! fd = Some (Weak h) ∧
     interest s1 !! fd = None ∧
     handlerCount_ s1 = Z.of_nat (initialised (handlers_ s1)) ∧
     Z.of_nat (size (interest s1)) < handlerCount_ s1).
Proof.
  intros s.
  assert (Consistent s) as Hcons by apply Consistent_run, Consistent_initial.
  pose proof Hcons as [Hslots Hkinds Hcount Hz].
  split; [|split; [|split]].
  - intros fd Hfd. split; [by apply Hkinds|by apply Hslots].
  - done.
  - rewrite Hcount. apply inj_le. by apply interest_counted.
  - intros fd events h Hkind s1.
    pose proof (Consistent_step s (Register fd events h) Hcons) as Hcons1.
    fold s1 in Hcons1. revert Hcons1. unfold s1. simpl.
    destruct (registerDescriptor_eq fd events h s) as (weak & Hw & ->).
    assert (fd < length (grown fd s))%nat as Hlen by by eapply lookup_lt_Some.
    assert (interest s !! fd = None) as Hfd.
    { destruct (interest s !! fd) as [old|] eqn:Hfd; [|done].
      destruct Hkind. apply Hkinds. by rewrite Hfd. }
    assert (Z.of_nat (size (interest s))
            < Z.of_nat (initialised (<[fd := Weak h]> (grown fd s)))) as Hlt.
    { pose proof (initialised_insert (<[fd := Weak h]> (grown fd s)) fd (Weak h)
                    Uninitialized) as Hins.
      rewrite list_lookup_insert_eq in Hins by done. specialize (Hins eq_refl).
      rewrite list_insert_insert_eq in Hins. simpl in Hins.
      assert (size (interest s) ≤ initialised (<[fd := Uninitialized]> (grown fd s)))%nat.
      { apply interest_counted. intros fd' Hfd'.
        assert (fd' ≠ fd) as Hne by (intros ->; rewrite Hfd in Hfd'; by destruct Hfd').
        rewrite list_lookup_insert_ne by done.
        destruct (Hslots fd' Hfd') as [h' Hh']. exists h'. by apply grown_lookup_weak. }
      lia. }
    destruct (files s fd); simpl; intros Hcons1; [| |done];
      (split; [done|]); (split; [by rewrite list_lookup_insert_eq|]);
      (split; [done|]); pose proof (cons_count _ Hcons1) as Hn; simpl in Hn;
      (split; [done|]); by rewrite Hn.
Qed.

(** X13.  Registering a descriptor that is open, supports epoll and is
    not registered, and then unregistering it: the registration returns,
    with the descriptor added to the interest list with its events and the
    handler in its slot; the count goes up by one if the slot held no
    handler, and stays as it is if it held one (left by a registration
    that the kernel had refused); the unregistration returns, restores the
    interest list, empties the slot and lowers the count by one, and
    writes to the wakeup eventfd exactly when the count is then at one. *)
Theorem register_unregister_round_trip
    (s : Loop) (fd : nat) (events : Z) (h : nat) :
  files s fd = Pollable → interest s !! fd = None →
  ∃ weak s1 s2,
    grown fd s !! fd = Some weak ∧
    (is_uninitialized weak = false ↔ ∃ h', handlers_ s !! fd = Some (Weak h')) ∧
    registerDescriptor fd events h s = Returns s1 ∧
    unregisterDescriptor fd s1 = Returns s2 ∧
    interest s1 = <[fd := events]> (interest s) ∧
    handlers_ s1 !! fd = Some (Weak h) ∧
    handlerCount_ s1
    = (if is_uninitialized weak then handlerCount_ s + 1 else handlerCount_ s) ∧
    interest s2 = interest s ∧
    handlers_ s2 !! fd = Some Uninitialized ∧
    handlerCount_ s2 = handlerCount_ s1 - 1 ∧
    counter s2
    = (if decide (handlerCount_ s2 = 1) then counter s + 1 else counter s).
Proof.
  intros Hkind Hfd.
  destruct (grown_lookup fd s) as (weak & Hw & Hinit).
  destruct (registerDescriptor_eq fd events h s) as (weak' & Hw' & Hreg).
  rewrite Hw in Hw'. injection Hw' as <-. rewrite Hkind in Hreg.
  assert (fd < length (grown fd s))%nat as Hlen by by eapply lookup_lt_Some.
  eexists weak, _, _. split; [done|]. split; [done|]. split; [exact Hreg|].
  rewrite unregisterDescriptor_eq. simpl.
  rewrite Hkind, lookup_insert_eq, list_lookup_insert_eq by done. simpl.
  split; [done|].
  case_decide as Hone; simpl; rewrite ?list_insert_insert_eq;
    rewrite ?list_lookup_insert_eq by done; rewrite ?delete_insert_id by done;
    repeat (split; [done|]).
  - by rewrite decide_True.
  - by rewrite decide_False.
Qed.

(** X14.  One handler per descriptor: registering a descriptor that is
    registered already replaces its handler and its events (the
    [EPOLL_CTL_ADD] fails with [EEXIST] and [EPOLL_CTL_MOD] is used) and
    leaves the count and the other descriptors alone. *)
Theorem register_again_replaces_handler
    (kinds : nat → FileKind) (eventFd : nat) (schedule : list Action)
    (fd : nat) (events : Z) (h : nat) :
  is_Some (interest (run (initial kinds eventFd) schedule) !! fd) →
  ∃ s1,
    registerDescriptor fd events h (run (initial kinds eventFd) schedule)
    = Returns s1 ∧
    interest s1 !! fd = Some events ∧
    handlers_ s1 !! fd = Some (Weak h) ∧
    handlerCount_ s1 = handlerCount_ (run (initial kinds eventFd) schedule) ∧
    size (interest s1) = size (interest (run (initial kinds eventFd) schedule)) ∧
    (∀ fd', fd' ≠ fd →
       interest s1 !! fd' = interest (run (initial kinds eventFd) schedule) !! fd' ∧
       ∀ h', handlers_ s1 !! fd' = Some (Weak h')
             ↔ handlers_ (run (initial kinds eventFd) schedule) !! fd'
               = Some (Weak h')).
Proof.
  set (s := run (initial kinds eventFd) schedule). intros [old Hfd].
  assert (Consistent s) as Hcons by apply Consistent_run, Consistent_initial.
  destruct (cons_slots _ Hcons fd) as [h0 Hh0]; [by rewrite Hfd|].
  pose proof (cons_files _ Hcons fd) as Hkind. rewrite Hfd in Hkind.
  specialize (Hkind (ex_intro _ old eq_refl)).
  destruct (registerDescriptor_eq fd events h s) as (weak & Hw & Hreg).
  rewrite Hkind in Hreg.
  assert (weak = Weak h0) as ->.
  { apply (grown_lookup_weak fd fd s h0) in Hh0. congruence. }
  assert (fd < length (grown fd s))%nat as Hlen by by eapply lookup_lt_Some.
  eexists. split; [exact Hreg|]. simpl.
  split; [by rewrite lookup_insert_eq|].
  split; [by rewrite list_lookup_insert_eq|]. split; [done|].
  split.
  { by rewrite map_size_insert, Hfd. }
  intros fd' Hne. split.
  - by rewrite lookup_insert_ne.
  - intros h'. rewrite list_lookup_insert_ne by done. apply grown_lookup_weak.
Qed.

(** X15.  When [Loop::loop] returns, nothing is left registered.  After a
    schedule in which nobody else unregisters the wakeup descriptor, with
    the thread at the test of [while], the loop closed and the count at
    one: the step of the thread is the return; the wakeup handler, which
    is destroyed with the stack of [loop], has unregistered the eventfd,
    so that the interest list is empty, no slot holds a handler and the
    count is zero; no wakeup is written; and the thread stays returned. *)
Theorem loop_return_unregisters_wakeup
    (kinds : nat → FileKind) (eventFd : nat) (schedule : list Action)
    (result result' : EpollWait) :
  Forall (fun a => a ≠ Unregister eventFd) schedule →
  thread (run (initial kinds eventFd) schedule) = AtWhile →
  closed_ (run (initial kinds eventFd) schedule) = true →
  handlerCount_ (run (initial kinds eventFd) schedule) = 1 →
  thread (loop result (run (initial kinds eventFd) schedule)) = Returned ∧
  interest (loop result (run (initial kinds eventFd) schedule)) = ∅ ∧
  handlerCount_ (loop result (run (initial kinds eventFd) schedule)) = 0 ∧
  (∀ fd h, handlers_ (loop result (run (initial kinds eventFd) schedule)) !! fd
           ≠ Some (Weak h)) ∧
  counter (loop result (run (initial kinds eventFd) schedule))
    = counter (run (initial kinds eventFd) schedule) ∧
  loop result' (loop result (run (initial kinds eventFd) schedule))
    = loop result (run (initial kinds eventFd) schedule).
Proof.
  set (s := run (initial kinds eventFd) schedule). intros Hall Ht Hc Hcount.
  assert (Running eventFd s) as Hrun by (apply Running_run, Running_initial; done).
  destruct (loop_returns eventFd s result Hrun Ht Hc Hcount)
    as (h & Hh & -> & Hi & Hnone).
  simpl. done.
Qed.

Lemma buffer_ext (s s' : Loop) :
  thread s' = thread s → epollEvents_ s' = epollEvents_ s → buffer s → buffer s'.
Proof. unfold buffer. by intros -> ->. Qed.

Lemma buffer_loop (s : Loop) result : buffer s → buffer (loop result s).
Proof.
  unfold buffer at 1. intros Hbuf. destruct (thread s) eqn:Ht.
  - unfold loop, start, wakeupHandler. rewrite Ht. simpl.
    destruct (registerDescriptor_frame (eventFd_ s) EPOLLIN 0 s)
      as (_ & _ & _ & _ & _ & Hev & _).
    destruct (registerDescriptor _ _ _ s) as [s1|e s1]; simpl in *.
    + unfold buffer. simpl. left. congruence.
    + unfold buffer. simpl. destruct e; simpl; left; congruence.
  - unfold loop. rewrite Ht. destruct (loop_condition s).
    + unfold buffer. simpl. destruct Hbuf as [->| ->].
      * reflexivity.
      * reflexivity.
    + rewrite cancel_wakeupHandler.
      destruct (unregisterDescriptor_frame (eventFd_ s) s) as (_ & _ & _ & _ & Hev & _).
      destruct (unregisterDescriptor _ s) as [s1|e s1]; unfold buffer; simpl in *.
      * congruence.
      * destruct e; simpl; congruence.
  - unfold loop. rewrite Ht. destruct (epoll_wait _ _ _).
    + destruct result as [errno|events]; [case_decide|]; unfold buffer; simpl; eauto.
    + unfold buffer. by rewrite Ht.
  - unfold loop. rewrite Ht. destruct (epollEvents_ s) eqn:Hev.
    + unfold buffer. simpl. by left.
    + unfold buffer. by rewrite Ht.
  - unfold loop. rewrite Ht. unfold buffer. by rewrite Ht.
  - unfold loop. rewrite Ht. unfold buffer. by rewrite Ht.
Qed.

Lemma buffer_step (s : Loop) a : buffer s → buffer (step s a).
Proof.
  intros Hbuf. destruct a as [fd events h|fd| | |result|]; simpl.
  - destruct (registerDescriptor_frame fd events h s)
      as (_ & _ & _ & _ & _ & Hev & Ht & _).
    by apply (buffer_ext s).
  - destruct (unregisterDescriptor_frame fd s) as (_ & _ & _ & _ & Hev & Ht & _).
    by apply (buffer_ext s).
  - unfold close. destruct (closed_ s); [done|]. by apply (buffer_ext s).
  - unfold join, close. destruct (closed_ s); by apply (buffer_ext s).
  - by apply buffer_loop.
  - destruct (thread s) eqn:Ht; try done.
    destruct (handleEpollEventsFromLoop_frame s)
      as (_ & _ & _ & _ & _ & _ & _ & Ht' & _).
    unfold buffer. by rewrite Ht', Ht.
Qed.

Lemma buffer_run (schedule : list Action) (s : Loop) :
  buffer s → buffer (run s schedule).
Proof.
  revert s. induction schedule as [|a schedule IH]; intros s Hbuf; [done|].
  simpl. by apply IH, buffer_step.
Qed.

Lemma handle_events_clears (s s' : Loop) :
  handleEpollEventsFromLoop s = Returns s' → epollEvents_ s' = [].
Proof.
  unfold handleEpollEventsFromLoop.
  destruct (handle_events (epollEvents_ s) s); [|done]. by intros [= <-].
Qed.

(** X16.  The events of [epoll_wait] are handed over.  In every schedule:
    before the thread of the loop has handed events to the reactor, and
    after the reactor has dealt with them, [epollEvents_] is empty or is
    the buffer of [kCapacity_] blank entries made for [epoll_wait], which
    it is while the thread is inside [epoll_wait]; the events that
    [epoll_wait] returns are those the thread leaves in [epollEvents_]
    when it starts to wait for the reactor; while it waits with events
    pending the thread does not move, so that it neither calls
    [epoll_wait] again nor returns, and the calls of the other threads do
    not touch [epollEvents_]; and a run of the reactor that returns leaves
    [epollEvents_] empty. *)
Theorem epoll_events_handed_over
    (kinds : nat → FileKind) (eventFd : nat) (schedule : list Action) :
  let s := run (initial kinds eventFd) schedule in
  (thread s = InEpollWait → epollEvents_ s = replicate kCapacity_ blank) ∧
  (thread s ≠ InEpollWait → thread s ≠ WaitingForReactor →
   epollEvents_ s = [] ∨ epollEvents_ s = replicate kCapacity_ blank) ∧
  (thread s = InEpollWait → ∀ events,
     epoll_wait kCapacity_ (EpollEvents events) s = true →
     thread (loop (EpollEvents events) s) = WaitingForReactor ∧
     epollEvents_ (loop (EpollEvents events) s) = events) ∧
  (thread s = WaitingForReactor →
   (∀ result, epollEvents_ s ≠ [] → loop result s = s) ∧
   (∀ fd events h, epollEvents_ (step s (Register fd events h)) = epollEvents_ s) ∧
   (∀ fd, epollEvents_ (step s (Unregister fd)) = epollEvents_ s) ∧
   epollEvents_ (step s Close) = epollEvents_ s ∧
   epollEvents_ (step s Join) = epollEvents_ s) ∧
  (∀ s', handleEpollEventsFromLoop s = Returns s' →
         epollEvents_ s' = [] ∧ thread s' = thread s).
Proof.
  intros s.
  assert (buffer s) as Hbuf by (apply buffer_run; done).
  split; [|split; [|split; [|split]]].
  - intros Ht. unfold buffer in Hbuf. by rewrite Ht in Hbuf.
  - intros Ht1 Ht2. unfold buffer in Hbuf. destruct (thread s); try done. by left.
  - intros Ht events Hwait. rewrite (loop_in_epoll_wait s _ Ht), Hwait. done.
  - intros Ht. split; [|split; [|split; [|split]]].
    + intros result Hev. rewrite (loop_waiting s result Ht).
      by destruct (epollEvents_ s).
    + intros fd events h. simpl.
      by destruct (registerDescriptor_frame fd events h s)
        as (_ & _ & _ & _ & _ & Hev & _).
    + intros fd. simpl.
      by destruct (unregisterDescriptor_frame fd s) as (_ & _ & _ & _ & Hev & _).
    + simpl. unfold close. by destruct (closed_ s).
    + simpl. unfold join, close. by destruct (closed_ s).
  - intros s' Hret. split; [by eapply handle_events_clears|].
    destruct (handleEpollEventsFromLoop_frame s) as (_ & _ & _ & _ & _ & _ & _ & Ht' & _).
    by rewrite Hret in Ht'.
Qed.

(** X17.  [close()] is idempotent and wakes the loop once: the first call
    sets [closed_] and writes one wakeup to the eventfd; any further call,
    and the [close()] inside [join()], changes nothing; [join()] after
    [join()] changes nothing either. *)
Theorem close_wakes_the_loop_once (s : Loop) :
  closed_ (close s) = true ∧
  counter (close s) = (if closed_ s then counter s else counter s + 1) ∧
  close (close s) = close s ∧
  join (close s) = join s ∧
  join (join s) = join s ∧
  closed_ (join s) = true ∧ joined_ (join s) = true.
Proof.
  unfold join, close. destruct (closed_ s) eqn:Hc; simpl; rewrite ?Hc; simpl; done.
Qed.

End ShmLoopHistoryFacts.

Lemma register_unregister_round_trip_witness :
  ∃ s1 s2,
    ShmLoop.registerDescriptor 5 ShmLoop.EPOLLIN 42
      (ShmLoop.run (ShmLoop.initial (fun _ => ShmLoop.Pollable) 3)
         [ShmLoop.LoopThreadStep (ShmLoop.EpollError 0)]) = ShmLoop.Returns s1 ∧
    ShmLoop.unregisterDescriptor 5 s1 = ShmLoop.Returns s2 ∧
    ShmLoop.handlerCount_ s1 = 2 ∧ ShmLoop.handlerCount_ s2 = 1 ∧
    ShmLoop.counter s2 = 1.
Proof.
  destruct (register_unregister_round_trip
              (ShmLoop.run (ShmLoop.initial (fun _ => ShmLoop.Pollable) 3)
                 [ShmLoop.LoopThreadStep (ShmLoop.EpollError 0)])
              5 ShmLoop.EPOLLIN 42)
    as (weak & s1 & s2 & Hw & _ & Hreg & Hun & _ & _ & Hc1 & _ & _ & Hc2 & Hk2).
  - reflexivity.
  - reflexivity.
  - assert (weak = ShmLoop.Uninitialized) as -> by (by injection Hw as <-).
    simpl in Hc1. rewrite Hc1 in Hc2. simpl in Hc2. rewrite Hc2 in Hk2.
    exists s1, s2. split; [exact Hreg|]. split; [exact Hun|].
    split; [exact Hc1|]. split; [exact Hc2|]. exact Hk2.
Defined.

Lemma register_again_replaces_handler_witness :
  ∃ s1,
    ShmLoop.registerDescriptor 5 0 43
      (ShmLoop.run (ShmLoop.initial (fun _ => ShmLoop.Pollable) 3)
         [ShmLoop.LoopThreadStep (ShmLoop.EpollError 0);
          ShmLoop.Register 5 ShmLoop.EPOLLIN 42]) = ShmLoop.Returns s1 ∧
    ShmLoop.interest s1 !! 5%nat = Some 0 ∧
    ShmLoop.handlers_ s1 !! 5%nat = Some (ShmLoop.Weak 43) ∧
    ShmLoop.handlerCount_ s1 = 2.
Proof.
  destruct (register_again_replaces_handler (fun _ => ShmLoop.Pollable) 3
              [ShmLoop.LoopThreadStep (ShmLoop.EpollError 0);
               ShmLoop.Register 5 ShmLoop.EPOLLIN 42] 5 0 43)
    as (s1 & Hreg & Hi & Hh & Hc & _).
  - eexists. reflexivity.
  - exists s1. split; [exact Hreg|]. split; [exact Hi|]. split; [exact Hh|]. exact Hc.
Defined.

Lemma loop_return_unregisters_wakeup_witness :
  ShmLoop.interest
    (ShmLoop.loop (ShmLoop.EpollError 0)
       (ShmLoop.run (ShmLoop.initial (fun _ => ShmLoop.Pollable) 3)
          [ShmLoop.LoopThreadStep (ShmLoop.EpollError 0);
           ShmLoop.Register 5 ShmLoop.EPOLLIN 42;
           ShmLoop.Close; ShmLoop.Unregister 5])) = ∅.
Proof.
  apply (loop_return_unregisters_wakeup (fun _ => ShmLoop.Pollable) 3
           [ShmLoop.LoopThreadStep (ShmLoop.EpollError 0);
            ShmLoop.Register 5 ShmLoop.EPOLLIN 42;
            ShmLoop.Close; ShmLoop.Unregister 5]
           (ShmLoop.EpollError 0) (ShmLoop.EpollError 0)).
  - repeat constructor; discriminate.
  - reflexivity.
  - reflexivity.
  - reflexivity.
Defined.

(** ** The deferred loop at rest *)

Section DeferredLoopHistoryFacts.
Import DeferredLoop.
Context {Task : Type} `{!EqDecision Task}.
Variable submits : Task → list Task.
Variable throws : Task → bool.




End DeferredLoopHistoryFacts.

(** ** Deferred functions on the libuv loop *)

Section UvLoopFacts.
Import UvLoop.
Context {Fn : Type}.
Variable submits : Fn → list Fn.

Lemma Served_initial : Served (@initial Fn).
Proof. split; simpl; done. Qed.

Lemma Served_deferToLoop (fn : Fn) (s : @Loop Fn) :
  Served s → Served (deferToLoop fn s).
Proof.
  intros [Horder Hwoken]. split; simpl.
  - unfold waiting in *. simpl. by rewrite !app_assoc, <- (app_assoc (ran s)), Horder.
  - intros _. by left.
Qed.

Lemma Served_step (s : @Loop Fn) a : Served s → Served (step submits s a).
Proof.
  intros Hinv. destruct a as [fn| |]; simpl.
  - by apply Served_deferToLoop.
  - unfold deliver. destruct (thread s) eqn:Ht; [|done..].
    destruct (async_pending s) eqn:Hp; [|done].
    destruct Hinv as [Horder Hwoken]. unfold waiting in Horder. rewrite Ht in Horder.
    split; simpl; [done|]. intros _. by right.
  - unfold runFunctionsFromLoop.
    destruct (thread s) as [| |[|fn fns]|fn [|g todo] fns] eqn:Ht.
    + done.
    + destruct Hinv as [Horder Hwoken]. unfold waiting in *. rewrite Ht in *.
      split; simpl; [|done]. by rewrite app_nil_r.
    + destruct Hinv as [Horder Hwoken]. unfold waiting in *. rewrite Ht in *.
      split; simpl; [done|]. intros Hne. destruct (Hwoken Hne) as [?|?]; [by left|done].
    + destruct Hinv as [Horder Hwoken]. unfold waiting in *. rewrite Ht in *.
      split; simpl.
      * by rewrite <- app_assoc.
      * intros Hne. destruct (Hwoken Hne) as [?|?]; [by left|done].
    + destruct Hinv as [Horder Hwoken]. unfold waiting in *. rewrite Ht in *.
      split; simpl; [done|]. intros Hne. destruct (Hwoken Hne) as [?|?]; [by left|done].
    + apply Served_deferToLoop.
      destruct Hinv as [Horder Hwoken]. unfold waiting in *. rewrite Ht in *.
      split; simpl; [done|]. intros Hne. destruct (Hwoken Hne) as [?|?]; [by left|done].
Qed.

Lemma Served_run (s : @Loop Fn) schedule : Served s → Served (run submits s schedule).
Proof.
  revert s. induction schedule as [|a schedule IH]; intros s Hinv; [done|].
  simpl. by apply IH, Served_step.
Qed.

(** X19.  No deferred function is lost, run twice or overtaken.  Whatever
    the schedule of the threads calling [deferToLoop], of libuv delivering
    the async and of the thread of the loop: the functions called so far,
    followed by those left of the batch swapped out and by those in
    [fns_], are the functions deferred so far, in the order of the calls
    of [deferToLoop]; and while a function waits in [fns_], a wakeup is
    pending on the async handle or the thread of the loop is about to swap
    [fns_] out.  A function deferred by a running function waits for a
    later batch. *)
Theorem deferred_functions_run_in_order (schedule : list Action) :
  let s := run submits initial schedule in
  ran s ++ waiting s ++ fns_ s = deferred s ∧
  (fns_ s ≠ [] → async_pending s = true ∨ thread s = AtSwap) ∧
  (∀ fn g todo fns,
     thread s = InFn fn (g :: todo) fns →
     let s' := step submits s LoopThreadStep in
     thread s' = InFn fn todo fns ∧ fns_ s' = fns_ s ++ [g] ∧
     ran s' = ran s ∧ async_pending s' = true).
Proof.
  intros s.
  destruct (Served_run initial schedule Served_initial) as [Horder Hwoken].
  split; [done|]. split; [done|].
  intros fn g todo fns Ht s'. subst s'. simpl. unfold runFunctionsFromLoop.
  fold s. rewrite Ht. done.
Qed.

End UvLoopFacts.

(** ** The domain descriptor of the CMA context *)

Section CmaDomainFacts.
Import CmaDomain.

Lemma string_cons_app (x : ascii) (a b : string) :
  String x a +:+ b = String x (a +:+ b).
Proof. reflexivity. Qed.

Lemma string_nil_app (b : string) : "" +:+ b = b.
Proof. reflexivity. Qed.

Lemma string_app_assoc (a b c : string) : (a +:+ b) +:+ c = a +:+ (b +:+ c).
Proof.
  induction a as [|x a IH]; [done|]. rewrite !string_cons_app. by rewrite IH.
Qed.

Lemma has_slash_app_slash (a d : string) : has_slash (a +:+ String "/" d) = true.
Proof.
  induction a as [|x a IH].
  - by rewrite string_nil_app.
  - rewrite string_cons_app. simpl. rewrite IH. by rewrite orb_true_r.
Qed.

Lemma pretty_N_char_not_slash (x : N) : pretty_N_char x ≠ "/"%char.
Proof. unfold pretty_N_char. repeat case_match; done. Qed.

Lemma has_slash_pretty_N_go (x : N) (s : string) :
  has_slash (pretty_N_go x s) = has_slash s.
Proof.
  revert s. induction (N.lt_wf_0 x) as [x _ IH]; intros s.
  destruct (decide (x = 0%N)) as [->|Hne]; [by rewrite pretty_N_go_0|].
  rewrite pretty_N_go_step by lia. rewrite IH by (apply N.div_lt; lia).
  simpl. rewrite bool_decide_eq_false_2; [done|]. apply pretty_N_char_not_slash.
Qed.

Lemma has_slash_pretty (x : N) : has_slash (pretty x) = false.
Proof.
  unfold pretty, pretty_N. case_decide; [done|]. by rewrite has_slash_pretty_N_go.
Qed.

(** What follows the last slash, and what precedes it, are determined. *)
Lemma app_slash_inj (a b d1 d2 : string) :
  a +:+ String "/" d1 = b +:+ String "/" d2 →
  has_slash d1 = false → has_slash d2 = false →
  a = b ∧ d1 = d2.
Proof.
  revert b. induction a as [|x a IH]; intros [|y b];
    rewrite ?string_nil_app, ?string_cons_app; intros Heq H1 H2.
  - by simplify_eq.
  - simplify_eq. by rewrite has_slash_app_slash in H1.
  - simplify_eq. by rewrite has_slash_app_slash in H2.
  - injection Heq as -> Heq. destruct (IH b Heq H1 H2) as [-> ->]. done.
Qed.

(** X20.  The domain descriptor tells contexts apart exactly by boot id,
    effective user id and effective group id: when the boot id cannot be
    read the assertion throws; otherwise the descriptor is
    [cma:<boot id>/<euid>/<egid>], and two descriptors are equal if and
    only if the boot ids, the user ids and the group ids are, whatever
    characters the boot ids are made of. *)
Theorem domain_descriptor_identifies_domain :
  (∀ euid egid, returns (generateDomainDescriptor None euid egid) = false) ∧
  (∀ value euid egid,
     generateDomainDescriptor (Some value) euid egid
     = Ok ("cma:" +:+ value +:+ "/" +:+ pretty euid +:+ "/" +:+ pretty egid)) ∧
  (∀ value1 euid1 egid1 value2 euid2 egid2,
     generateDomainDescriptor (Some value1) euid1 egid1
     = generateDomainDescriptor (Some value2) euid2 egid2
     ↔ value1 = value2 ∧ euid1 = euid2 ∧ egid1 = egid2).
Proof.
  assert (∀ value euid egid,
     generateDomainDescriptor (Some value) euid egid
     = Ok ("cma:" +:+ value +:+ "/" +:+ pretty euid +:+ "/" +:+ pretty egid))
    as Hshape.
  { intros value euid egid. unfold generateDomainDescriptor, kChannelName.
    f_equal. by rewrite !string_app_assoc. }
  split; [done|]. split; [exact Hshape|].
  intros value1 euid1 egid1 value2 euid2 egid2. split.
  - rewrite !Hshape. rewrite !string_cons_app, !string_nil_app. intros [= Heq].
    rewrite <- !(string_cons_app "/" (pretty _)), <- !string_app_assoc in Heq.
    apply app_slash_inj in Heq as [Heq Hg]; [|apply has_slash_pretty..].
    apply app_slash_inj in Heq as [-> He]; [|apply has_slash_pretty..].
    apply (inj pretty) in He, Hg. by subst.
  - by intros (-> & -> & ->).
Qed.

End CmaDomainFacts.

(** ** A request that arrives twice *)

Section ChannelProtocolFacts.
Import BasicChannel ChannelHistory.

Lemma list_find_deleted_id (ops : list SendOperation.t) (i : nat) op :
  StronglySorted Z.lt (SendOperation.id <$> ops) →
  ops !! i = Some op →
  list_find (fun o => SendOperation.id o = SendOperation.id op) (delete i ops) = None.
Proof.
  intros Hs Hi. destruct (list_find_sorted_id ops i op Hs Hi) as [_ Huniq].
  apply list_find_None, Forall_forall. intros o Ho Heq.
  apply list_elem_of_lookup_1 in Ho as [j Hj].
  destruct (decide (j < i)%nat).
  - rewrite list_lookup_delete_lt in Hj by done. specialize (Huniq j o Hj Heq). lia.
  - rewrite list_lookup_delete_ge in Hj by lia. specialize (Huniq (S j) o Hj Heq). lia.
Qed.

(** X21.  The channel relies on the peer to request each send once.  On a
    channel that has seen fewer than 2^64 events, a request for an
    outstanding send that arrives twice is served twice (the payload is
    written twice); the completion of the first payload write removes the
    send and calls its callback, and the completion of the second one
    finds no send with the identifier and throws the assertion of
    [sendCompleted]: the callback is not called a second time. *)
Theorem request_twice_asserts_at_second_completion
    (events : list Event) (s : Impl) (i : nat) (op : SendOperation.t) :
  run events create = Ok s → Z.of_nat (length events) < two64 →
  sendOperations_ s !! i = Some op →
  ∃ s1 s2 s3,
    onPacket_ (Request (SendOperation.id op)) s = Ok s1 ∧
    onPacket_ (Request (SendOperation.id op)) s1 = Ok s2 ∧
    inflight (connection_ s2)
    = inflight (connection_ s)
      ++ [WritePacket (Reply (SendOperation.id op)) (Lazy LambdaNop);
          WriteBytes (SendOperation.ptr op) (SendOperation.length op)
            (Eager (LambdaSendCompleted (SendOperation.id op)));
          ReadPacket (Lazy LambdaOnPacket);
          WritePacket (Reply (SendOperation.id op)) (Lazy LambdaNop);
          WriteBytes (SendOperation.ptr op) (SendOperation.length op)
            (Eager (LambdaSendCompleted (SendOperation.id op)));
          ReadPacket (Lazy LambdaOnPacket)] ∧
    sendCompleted (SendOperation.id op) s2 = Ok s3 ∧
    called s3 = called s ++ [SendCallback (SendOperation.callback op) (error_ s)] ∧
    sendCompleted (SendOperation.id op) s3
    = Throw (AssertionFailed "Expected send operation to exist.").
Proof.
  intros Hrun Hlen Hi.
  assert (Numbered (0 + Z.of_nat (length events)) s) as [_ Hsorted _].
  { apply (Numbered_run events 0 create); [lia|apply Numbered_create|done]. }
  destruct (list_find_sorted_id _ i op Hsorted Hi) as [Hfind _].
  pose proof (list_find_deleted_id _ i op Hsorted Hi) as Hgone.
  eexists _, _, _. split; [|split; [|split; [|split; [|split]]]].
  - unfold onPacket_, onRequest_. rewrite Hfind. simpl. reflexivity.
  - unfold onPacket_, onRequest_. simpl. rewrite Hfind. simpl. reflexivity.
  - simpl. by rewrite <- !app_assoc.
  - unfold sendCompleted. simpl. rewrite Hfind. reflexivity.
  - done.
  - unfold sendCompleted. simpl. by rewrite Hgone.
Qed.

End ChannelProtocolFacts.

Lemma request_twice_asserts_at_second_completion_witness :
  ∃ s1 s2 s3,
    BasicChannel.onPacket_ (BasicChannel.Request 0) ChannelHistory.exchanged = Ok s1 ∧
    BasicChannel.onPacket_ (BasicChannel.Request 0) s1 = Ok s2 ∧
    BasicChannel.sendCompleted 0 s2 = Ok s3 ∧
    BasicChannel.sendCompleted 0 s3
    = Throw (AssertionFailed "Expected send operation to exist.").
Proof.
  destruct (request_twice_asserts_at_second_completion
              ChannelHistory.exchange ChannelHistory.exchanged 0%nat
              (BasicChannel.SendOperation.mk 0 4096 5 2%nat))
    as (s1 & s2 & s3 & H1 & H2 & _ & H3 & _ & H4); [reflexivity..|].
  exists s1, s2, s3. split; [exact H1|]. split; [exact H2|]. split; [exact H3|exact H4].
Defined.

(** ** The two wrappers compared *)

Section WrapperComparison.
Import Callback.
Context {S : Type} `{!Subject S}.

(** X22.  The lazy and the eager wrapper treat the error alike and differ
    only in calling the wrapped callable: for every subject, both leave the
    subject in the same state before the callable would run (unchanged
    when it is in the error state already or the callback reports Success,
    otherwise with the error set and [handleError_] called once); the eager
    wrapper then calls the callable on that state, the lazy one only when
    neither the subject nor the callback has an error, so on Success in the
    Success state the two do the same. *)
Theorem wrappers_differ_only_in_calling
    (fn : S → Result S) (error : Error) (subject : S) :
  snd (LazyCallbackWrapper.processError_ subject error)
    = EagerCallbackWrapper.processError_ subject error ∧
  EagerCallbackWrapper.processError_ subject error
    = (if is_error (subject_error subject) || negb (is_error error) then subject
       else subject_handleError (subject_set_error error subject)) ∧
  EagerCallbackWrapper.entryPointFromLoop_ fn error subject
    = fn (EagerCallbackWrapper.processError_ subject error) ∧
  LazyCallbackWrapper.entryPointFromLoop_ fn error subject
    = (if is_error (subject_error subject) || is_error error
       then Ok (EagerCallbackWrapper.processError_ subject error)
       else EagerCallbackWrapper.entryPointFromLoop_ fn error subject).
Proof.
  unfold LazyCallbackWrapper.entryPointFromLoop_, LazyCallbackWrapper.processError_,
    EagerCallbackWrapper.entryPointFromLoop_, EagerCallbackWrapper.processError_.
  destruct (is_error (subject_error subject)); simpl; [done|].
  destruct (is_error error); simpl; done.
Qed.

End WrapperComparison.

(** ** Progress of the libuv loop *)

Section UvLoopProgress.
Import UvLoop.
Context {Fn : Type}.
Variable submits : Fn → list Fn.

Lemma run_cons (s : @Loop Fn) a schedule :
  run submits s (a :: schedule) = run submits (step submits s a) schedule.
Proof. reflexivity. Qed.

(** The loop over a batch of functions that defer nothing. *)
Lemma run_batch (fns : list Fn) (s : @Loop Fn) :
  thread s = AtFor fns →
  Forall (fun fn => submits fn = []) fns →
  run submits s (replicate (2 * length fns + 1) LoopThreadStep)
  = {| fns_ := fns_ s; async_pending := async_pending s; thread := InUvRun;
       deferred := deferred s; ran := ran s ++ fns |}.
Proof.
  revert s. induction fns as [|fn fns IH]; intros s Ht Hall.
  - simpl. unfold runFunctionsFromLoop. rewrite Ht. unfold set_thread.
    by rewrite app_nil_r.
  - apply Forall_cons in Hall as [Hfn Hall].
    replace (2 * length (fn :: fns) + 1)%nat with (S (S (2 * length fns + 1)))
      by (simpl; lia).
    rewrite !replicate_S, !run_cons.
    assert (step submits (step submits s LoopThreadStep) LoopThreadStep
            = {| fns_ := fns_ s; async_pending := async_pending s;
                 thread := AtFor fns; deferred := deferred s;
                 ran := ran s ++ [fn] |}) as ->.
    { simpl. unfold runFunctionsFromLoop at 2. rewrite Ht, Hfn. reflexivity. }
    rewrite IH by done. simpl. by rewrite <- app_assoc.
Qed.

(** X23.  A wakeup is enough.  After any schedule, with the thread of the
    loop inside [uv_run] and functions waiting in [fns_] that defer nothing
    themselves: the async handle is marked, so libuv will call the
    callback, and one delivery followed by two steps of the thread for the
    swap and the end of the loop and two for each function runs them all,
    in order: then everything deferred so far has been called and nothing
    waits. *)
Theorem one_wakeup_runs_all_deferred (schedule : list Action) :
  let s := run submits initial schedule in
  thread s = InUvRun → fns_ s ≠ [] →
  Forall (fun fn => submits fn = []) (fns_ s) →
  async_pending s = true ∧
  let s' := run submits s
              (Deliver :: replicate (2 * length (fns_ s) + 2) LoopThreadStep) in
  ran s' = ran s ++ fns_ s ∧
  ran s' = deferred s' ∧
  fns_ s' = [] ∧ thread s' = InUvRun ∧ async_pending s' = false.
Proof.
  intros s Ht Hne Hall.
  destruct (Served_run submits initial schedule Served_initial) as [Horder Hwoken].
  fold s in Horder, Hwoken.
  assert (async_pending s = true) as Hp.
  { destruct (Hwoken Hne) as [?|Hswap]; [done|]. rewrite Ht in Hswap. done. }
  split; [done|].
  assert (run submits s
            (Deliver :: replicate (2 * length (fns_ s) + 2) LoopThreadStep)
          = {| fns_ := []; async_pending := false; thread := InUvRun;
               deferred := deferred s; ran := ran s ++ fns_ s |}) as Hrun.
  { replace (2 * length (fns_ s) + 2)%nat with (S (2 * length (fns_ s) + 1)) by lia.
    rewrite replicate_S, !run_cons.
    assert (step submits (step submits s Deliver) LoopThreadStep
            = {| fns_ := []; async_pending := false; thread := AtFor (fns_ s);
                 deferred := deferred s; ran := ran s |}) as ->.
    { simpl. unfold deliver. rewrite Ht, Hp. reflexivity. }
    by rewrite (run_batch (fns_ s)). }
  intros s'. subst s'. rewrite Hrun. simpl.
  unfold waiting in Horder. rewrite Ht in Horder. simpl in Horder.
  done.
Qed.

End UvLoopProgress.

Lemma one_wakeup_runs_all_deferred_witness :
  UvLoop.ran
    (UvLoop.run (fun _ : nat => [])
       (UvLoop.run (fun _ : nat => []) UvLoop.initial
          [UvLoop.DeferToLoop 1%nat; UvLoop.DeferToLoop 2%nat])
       (UvLoop.Deliver :: replicate 6 UvLoop.LoopThreadStep))
  = [1%nat; 2%nat].
Proof.
  destruct (one_wakeup_runs_all_deferred (fun _ : nat => [])
              [UvLoop.DeferToLoop 1%nat; UvLoop.DeferToLoop 2%nat])
    as (_ & Hran & _).
  - reflexivity.
  - discriminate.
  - repeat constructor.
  - exact Hran.
Defined.

(** ** A send from request to completion *)

Section ChannelExchangeFacts.
Import Callback BasicChannel ChannelHistory.




End ChannelExchangeFacts.


